(** * NetKet: statistics engine, stochastic-reconfiguration update, VMC driver
      and exchange samplers

    A shallow embedding of the C++ code of
      - [Sources/Stats/mc_stats.cc]: the Welford accumulator
        [detail::MeanAndVarianceAccumulator], [StatisticsLocal],
        [Statistics], [WeightedStatistics], [SubtractMean], [L1Norm] and
        [L2Norm];
      - the Python binding [statistics] (first part of
        [Sources/Stats/py_stats.cc]);
      - [class VariationalExact] (second part of [NetKet/Hilbert/hilbert.hpp]):
        the computation of [dim_] in the constructor, [Init], [Gradient] and
        [UpdateParameters];
      - [class VariationalMonteCarlo] (second part of
        [Sources/Stats/py_stats.cc]): [Init] and [Advance];
      - [NetKet/Sampler/metropolis_global.hpp]: [MetropolisGlobal::Init],
        [GenerateClusters], [Reset], [Sweep] and [Acceptance];
      - [class ExchangeKernel] ([unnamed/part_002]): [Init] and [operator()].

    Numbers.  A C++ [double] is idealised: every arithmetic operation is exact
    (no rounding, no overflow), but the IEEE special values are kept, because
    the code branches on them: not-a-number and the two infinities arise from
    invalid operations and from division by zero exactly as in IEEE 754.  The
    sign of zero is not tracked (a zero divisor counts as +0).  What is
    proved of a computed number is therefore proved of the exact value that
    the source approximates to within the rounding of its operations.  Where
    the source turns such a number into a decision (the [std::round] at the
    end of [Statistics], the sign of a small difference) binary64 can decide
    otherwise when the exact value is at, or within rounding of, the
    boundary; module [Binary64] evaluates [Statistics] in binary64 to show
    one such input.  [Index] and [int] are integers of [Z]; no computation
    below leaves their range when its inputs are in range.

    MPI.  A function that takes part in a collective is given the data held
    by the other ranks.  Library code (Eigen's solvers, the random engine and
    its distributions, [std::exp]) and the collaborators of the drivers are
    parameters.

    Part I has the programs, then the quantities they are compared with; Part
    II has the properties. *)

From Stdlib Require Import Reals Lra Lia ZArith String Bool.
From Stdlib Require PrimFloat FloatOps SpecFloat Uint63.
From stdpp Require Import base option list strings gmap.

Local Open Scope Z_scope.

(* ================================================================== *)
(** * Part I: the programs                                              *)
(* ================================================================== *)

(** ** Idealised IEEE doubles *)

Inductive double : Type :=
| NaN
| PInf
| NInf
| Fin (r : R).

#[global] Instance double_inhabited : Inhabited double := populate NaN.
#[global] Instance R_inhabited : Inhabited R := populate 0%R.

Definition Rltb (x y : R) : bool := if Rlt_dec x y then true else false.
Definition Reqb (x y : R) : bool := if Req_EM_T x y then true else false.

Definition isnan (x : double) : bool :=
  match x with NaN => true | _ => false end.

Definition dneg (x : double) : double :=
  match x with
  | NaN => NaN
  | PInf => NInf
  | NInf => PInf
  | Fin r => Fin (- r)
  end.

Definition dadd (x y : double) : double :=
  match x, y with
  | NaN, _ | _, NaN => NaN
  | PInf, NInf | NInf, PInf => NaN
  | PInf, _ | _, PInf => PInf
  | NInf, _ | _, NInf => NInf
  | Fin a, Fin b => Fin (a + b)
  end.

Definition dsub (x y : double) : double := dadd x (dneg y).

(** Product of an infinity with a finite factor [a]. *)
Definition inf_times (inf : double) (a : R) : double :=
  if Reqb a 0 then NaN else if Rltb a 0 then dneg inf else inf.

Definition dmul (x y : double) : double :=
  match x, y with
  | NaN, _ | _, NaN => NaN
  | Fin a, Fin b => Fin (a * b)
  | Fin a, inf => inf_times inf a
  | inf, Fin b => inf_times inf b
  | PInf, PInf | NInf, NInf => PInf
  | PInf, NInf | NInf, PInf => NInf
  end.

Definition ddiv (x y : double) : double :=
  match x, y with
  | NaN, _ | _, NaN => NaN
  | Fin a, Fin b =>
      if Reqb b 0
      then (if Reqb a 0 then NaN else if Rltb a 0 then NInf else PInf)
      else Fin (a / b)
  | Fin _, _ => Fin 0
  | inf, Fin b => if Rltb b 0 then dneg inf else inf
  | _, _ => NaN
  end.

(** [x < y]; false as soon as one side is not-a-number. *)
Definition dlt (x y : double) : bool :=
  match x, y with
  | NaN, _ | _, NaN => false
  | Fin a, Fin b => Rltb a b
  | NInf, NInf | PInf, _ | _, NInf => false
  | NInf, _ | _, PInf => true
  end.

Definition dabs (x : double) : double :=
  match x with
  | NaN => NaN
  | PInf | NInf => PInf
  | Fin r => Fin (Rabs r)
  end.

(** [std::sqrt] *)
Definition dsqrt (x : double) : double :=
  match x with
  | NaN | NInf => NaN
  | PInf => PInf
  | Fin r => if Rltb r 0 then NaN else Fin (sqrt r)
  end.

Definition Rfloor (r : R) : Z := up r - 1.
Definition Rceil (r : R) : Z := - Rfloor (- r).

(** [std::round] on a real: nearest integer, halves away from zero. *)
Definition Rround (r : R) : Z :=
  if Rltb r 0 then - Rfloor (- r + / 2) else Rfloor (r + / 2).

Definition dround (x : double) : double :=
  match x with Fin r => Fin (IZR (Rround r)) | _ => x end.

(** [std::ceil] *)
Definition dceil (x : double) : double :=
  match x with Fin r => Fin (IZR (Rceil r)) | _ => x end.

(** [static_cast<double>] / [double(...)] of an integer. *)
Definition to_double (z : Z) : double := Fin (IZR z).

Definition INT_MIN : Z := - 2 ^ 31.
Definition INT_MAX : Z := 2 ^ 31 - 1.

(** [int(x)]: truncation toward zero; undefined ([None]) when [x] is not
    finite or the truncated value is not an [int]. *)
Definition to_int (x : double) : option Z :=
  match x with
  | Fin r =>
      let t := if Rltb r 0 then Rceil r else Rfloor r in
      if (INT_MIN <=? t) && (t <=? INT_MAX) then Some t else None
  | _ => None
  end.

(** [std::numeric_limits<double>::epsilon()] *)
Definition epsilon : double := Fin (/ 2 ^ 52).

(** ** Complex numbers: [std::complex<double>] *)

Record Complex : Type := mkComplex { real : double; imag : double }.

#[global] Instance Complex_inhabited : Inhabited Complex :=
  populate (mkComplex NaN NaN).

Definition czero : Complex := mkComplex (Fin 0) (Fin 0).

Definition cadd (a b : Complex) : Complex :=
  mkComplex (dadd (real a) (real b)) (dadd (imag a) (imag b)).

Definition csub (a b : Complex) : Complex :=
  mkComplex (dsub (real a) (real b)) (dsub (imag a) (imag b)).

(** [complex / double] divides both components. *)
Definition cdivr (a : Complex) (d : double) : Complex :=
  mkComplex (ddiv (real a) d) (ddiv (imag a) d).

(** [Eigen]'s [abs2]: squared modulus. *)
Definition abs2 (a : Complex) : double :=
  dadd (dmul (real a) (real a)) (dmul (imag a) (imag a)).

(** [.sum()] of an Eigen vector. *)
Definition dsum (l : list double) : double := foldr dadd (Fin 0) l.
Definition csum (l : list Complex) : Complex := foldr cadd czero l.

(** ** Exceptions and outcomes *)

(** The exception classes thrown by the code; their messages are not
    modelled. *)
Inductive exception : Type :=
| InvalidInputError
| RuntimeError.

(** A call returns, throws, never returns because a blocking MPI collective
    is not entered by every rank, or has no defined behaviour in C++ (an
    access out of bounds, a conversion out of range, a distribution over an
    empty range). *)
Inductive outcome (A : Type) : Type :=
| Return (a : A)
| Throw (e : exception)
| Deadlock
| Undefined.

Arguments Return {A} a.
Arguments Throw {A} e.
Arguments Deadlock {A}.
Arguments Undefined {A}.

Definition bind {A B : Type} (x : outcome A) (k : A -> outcome B) : outcome B :=
  match x with
  | Return a => k a
  | Throw e => Throw e
  | Deadlock => Deadlock
  | Undefined => Undefined
  end.

Notation "'let*' x ':=' c1 'in' c2" := (bind c1 (fun x => c2))
  (at level 10, x name, c1 at level 100, c2 at level 200).

(** [NETKET_CHECK(cond, Exc, msg)] *)
Definition NETKET_CHECK (cond : bool) (e : exception) : outcome unit :=
  if cond then Return tt else Throw e.

(** ** [Stats/mc_stats.cc] *)

Module detail.

(** [class MeanAndVarianceAccumulator]: the two spans it writes through and
    the number of rows seen so far. *)
Record MeanAndVarianceAccumulator : Type := mkAcc {
  mu_ : list double;
  M2_ : list double;
  n_ : Z
}.

(** The constructor zero-fills both spans.  Its [CheckShape] compares the
    sizes of the two spans; [StatisticsLocal], the only caller, passes two
    buffers of [2 * number_chains] doubles, so one [size] stands for both. *)
Definition construct (size : nat) : MeanAndVarianceAccumulator :=
  {| mu_ := replicate size (Fin 0); M2_ := replicate size (Fin 0); n_ := 0 |}.

(** The lambda [kernel] of [operator()], with the already incremented [n_]. *)
Definition kernel (n : Z) (mu M2 x : double) : double * double :=
  let delta := dsub x mu in
  let mu := dadd mu (ddiv delta (to_double n)) in
  let M2 := dadd M2 (dmul delta (dsub x mu)) in
  (mu, M2).

(** The loop of [operator()] over the coordinates [i < mu_.size()]. *)
Fixpoint kernel_loop (n : Z) (mu M2 xs : list double)
  : list double * list double :=
  match mu, M2, xs with
  | m :: mu, q :: M2, x :: xs =>
      let '(m', q') := kernel n m q x in
      let '(mus, M2s) := kernel_loop n mu M2 xs in
      (m' :: mus, q' :: M2s)
  | _, _, _ => ([], [])
  end.

(** [operator()(xs)] *)
Definition call (acc : MeanAndVarianceAccumulator) (xs : list double)
  : MeanAndVarianceAccumulator :=
  let n := n_ acc + 1 in
  let '(mu, M2) := kernel_loop n (mu_ acc) (M2_ acc) xs in
  {| mu_ := mu; M2_ := M2; n_ := n |}.

(** The destructor: the final contents of the two spans. *)
Definition destruct_ (acc : MeanAndVarianceAccumulator)
  : list double * list double :=
  if n_ acc =? 0 then
    (replicate (length (mu_ acc)) NaN, replicate (length (M2_ acc)) NaN)
  else if n_ acc =? 1 then
    (mu_ acc, replicate (length (M2_ acc)) NaN)
  else
    let scale := ddiv (Fin 1) (to_double (n_ acc)) in
    (mu_ acc, map (fun x => dmul x scale) (M2_ acc)).

End detail.

(** [reinterpret_cast<const double*>(values.data())]: real and imaginary parts
    interleaved. *)
Definition as_doubles (values : list Complex) : list double :=
  flat_map (fun z => [real z; imag z]) values.

(** The converse view: a buffer of doubles read as complex numbers. *)
Fixpoint as_complex (p : list double) : list Complex :=
  match p with
  | re :: im :: p => mkComplex re im :: as_complex p
  | _ => []
  end.

(** The loop [for (i = 0; i < n; ++i, p += 2 * number_chains) acc({p, 2 *
    number_chains})] of [StatisticsLocal]. *)
Fixpoint accumulate (acc : detail.MeanAndVarianceAccumulator)
    (p : list double) (width : nat) (n : nat)
  : detail.MeanAndVarianceAccumulator :=
  match n with
  | O => acc
  | S n => accumulate (detail.call acc (take width p)) (drop width p) width n
  end.

(** The loop [for (i = 0; i < number_chains; ++i) var(i) = var(2 * i) +
    var(2 * i + 1)], in place. *)
Definition merge_variances (number_chains : nat) (var : list double)
  : list double :=
  foldl (fun var i => <[ i := dadd (var !!! (2 * i)%nat) (var !!! (2 * i + 1)%nat) ]> var)
        var (seq 0 number_chains).

(** [StatisticsLocal]: in-chain means and variances. *)
Definition StatisticsLocal (values : list Complex) (number_chains : Z)
  : outcome (list Complex * list double) :=
  let size := Z.of_nat (length values) in
  let* _ := NETKET_CHECK (0 <? number_chains) InvalidInputError in
  let* _ := NETKET_CHECK (Z.rem size number_chains =? 0) InvalidInputError in
  let chains := Z.to_nat number_chains in
  let acc := detail.construct (2 * chains) in
  let p := as_doubles values in
  let n := Z.quot size number_chains in
  let acc := accumulate acc p (2 * chains) (Z.to_nat n) in
  let '(mean, var) := detail.destruct_ acc in
  let var := merge_variances chains var in
  let var := take chains var in
  Return (as_complex mean, var).

(** [struct Stats]; the field [R] of the source is [R_] here, [R] being the
    type of the reals. *)
Record Stats : Type := mkStats {
  mean : Complex;
  error_of_mean : double;
  variance : double;
  correlation : double;
  R_ : double
}.

(** What a rank does before it enters the first collective of [Statistics]. *)
Definition Statistics_local_part (values : list Complex)
    (local_number_chains : Z) : outcome (list Complex * list double) :=
  let* _ := NETKET_CHECK (local_number_chains <=? Z.of_nat (length values))
                         InvalidInputError in
  StatisticsLocal values local_number_chains.

(** The other ranks of [MPI_COMM_WORLD] call [Statistics] with their own
    values and the same chain count.  A rank that throws never enters the
    collectives, and the ranks that do wait forever. *)
Fixpoint peers_local_part (others : list (list Complex))
    (local_number_chains : Z) : option (list (list Complex * list double)) :=
  match others with
  | [] => Some []
  | values :: others =>
      match Statistics_local_part values local_number_chains,
            peers_local_part others local_number_chains with
      | Return s, Some ss => Some (s :: ss)
      | _, _ => None
      end
  end.

(** [Statistics(values, local_number_chains)] on one rank; [others] are the
    values held by the other ranks of [MPI_COMM_WORLD].  [MPI_Allreduce] with
    [MPI_SUM] adds this rank's contribution to those of the other ranks. *)
Definition Statistics (others : list (list Complex)) (values : list Complex)
    (local_number_chains : Z) : outcome Stats :=
  let* stats_local := Statistics_local_part values local_number_chains in
  match peers_local_part others local_number_chains with
  | None => Deadlock
  | Some peers =>
      let n := Z.quot (Z.of_nat (length values)) local_number_chains in
      let m := Z.of_nat (S (length others)) * local_number_chains in
      let mean :=
        let local_mean := csum (fst stats_local) in
        let global_mean :=
          cadd local_mean (csum (map (fun s => csum (fst s)) peers)) in
        cdivr global_mean (to_double m) in
      let var :=
        let local_var (s : list Complex * list double) :=
          (dsum (map (fun x => abs2 (csub x mean)) (fst s)), dsum (snd s)) in
        let global_var :=
          (dadd (fst (local_var stats_local))
                (dsum (map (fun s => fst (local_var s)) peers)),
           dadd (snd (local_var stats_local))
                (dsum (map (fun s => snd (local_var s)) peers))) in
        if m =? 1 then (NaN, NaN)
        else (ddiv (fst global_var) (to_double m),
              ddiv (snd global_var) (to_double m)) in
      if negb (isnan (fst var)) && negb (isnan (snd var)) then
        let t := ddiv (fst var) (snd var) in
        let correlation :=
          dmul (Fin (/ 2)) (dsub (dmul t (to_double n)) (Fin 1)) in
        let correlation :=
          if dlt correlation (Fin 0) then Fin 0 else correlation in
        let R :=
          dsqrt (dadd (ddiv (to_double (n - 1)) (to_double n))
                      (ddiv (fst var) (snd var))) in
        Return {| mean := mean;
                  error_of_mean := dsqrt (ddiv (fst var) (to_double m));
                  variance := snd var;
                  correlation := dround correlation;
                  R_ := R |}
      else
        Return {| mean := mean; error_of_mean := NaN; variance := NaN;
                  correlation := NaN; R_ := NaN |}
  end.

(** *** Weighted statistics, norms and centring *)

(** [conj(z)] and [complex * double], which multiplies both components. *)
Definition cconj (z : Complex) : Complex := mkComplex (real z) (dneg (imag z)).
Definition cscale (z : Complex) (w : double) : Complex :=
  mkComplex (dmul (real z) w) (dmul (imag z) w).

(** [conj(a) * b] as Eigen's [dot] evaluates it on two complex numbers. *)
Definition conj_mul (a b : Complex) : Complex :=
  mkComplex (dadd (dmul (real a) (real b)) (dmul (imag a) (imag b)))
            (dsub (dmul (real a) (imag b)) (dmul (imag a) (real b))).

(** [std::abs] of a complex number: [hypot], which is infinite as soon as
    one component is. *)
Definition cabs (z : Complex) : double :=
  match real z, imag z with
  | PInf, _ | NInf, _ | _, PInf | _, NInf => PInf
  | _, _ => dsqrt (abs2 z)
  end.

(** [x.dot(w)] for a complex [x] and a real [w], and [x.dot(y)] for two
    complex vectors.  Eigen conjugates the first argument; the sizes must
    agree. *)
Definition dot_real (x : list Complex) (w : list double) : outcome Complex :=
  if Nat.eqb (length x) (length w)
  then Return (csum (zip_with (fun z w => cscale (cconj z) w) x w))
  else Undefined.

Definition dot_complex (x y : list Complex) : outcome Complex :=
  if Nat.eqb (length x) (length y)
  then Return (csum (zip_with conj_mul x y))
  else Undefined.

(** Modelled from the spec: [SumOnNodes] of [Utils/parallel_utils.hpp], which
    is not among the sources.  It is the sum-based collective of the
    statistics engine: every rank ends with the sum of the contributions of
    all ranks.  [others] are the contributions of the other ranks. *)
Definition SumOnNodes (others : list double) (x : double) : double :=
  dadd x (dsum others).
Definition SumOnNodes_complex (others : list Complex) (z : Complex) : Complex :=
  cadd z (csum others).

(** What a rank contributes to the two reductions of [WeightedStatistics]:
    [values.dot(weights)] and the real part of
    [values.dot((values.array() * weights.array()).matrix())]. *)
Definition WeightedStatistics_local_part (values : list Complex)
    (weights : list double) : outcome (Complex * double) :=
  let* mean := dot_real values weights in
  let* var := dot_complex values (zip_with cscale values weights) in
  Return (mean, real var).

Fixpoint peers_weighted_part (others : list (list Complex * list double))
  : outcome (list (Complex * double)) :=
  match others with
  | [] => Return []
  | (values, weights) :: others =>
      let* s := WeightedStatistics_local_part values weights in
      let* ss := peers_weighted_part others in
      Return (s :: ss)
  end.

(** [WeightedStatistics(values, weights)] on one rank; [others] are the values
    and weights held by the other ranks. *)
Definition WeightedStatistics (others : list (list Complex * list double))
    (values : list Complex) (weights : list double) : outcome Stats :=
  let* local := WeightedStatistics_local_part values weights in
  let* peers := peers_weighted_part others in
  let mean := SumOnNodes_complex (map fst peers) (fst local) in
  let var := SumOnNodes (map snd peers) (snd local) in
  let var := dsub var (dmul (cabs mean) (cabs mean)) in
  Return {| mean := mean; error_of_mean := NaN; variance := var;
            correlation := NaN; R_ := NaN |}.

(** [L1Norm(weights)] and [L2Norm(weights)]; a [RowMatrix<double>] is its
    buffer of coefficients, and [others] are the buffers of the other ranks. *)
Definition L1Norm (others : list (list double)) (weights : list double)
  : double :=
  let total_weight := dsum (map dabs weights) in
  SumOnNodes (map (fun w => dsum (map dabs w)) others) total_weight.

Definition squaredNorm (weights : list double) : double :=
  dsum (map (fun x => dmul x x) weights).

Definition L2Norm (others : list (list double)) (weights : list double)
  : double :=
  let total_weight := squaredNorm weights in
  dsqrt (SumOnNodes (map squaredNorm others) total_weight).

(** Modelled from the spec: [MeanOnNodes] of [Utils/parallel_utils.hpp], which
    is not among the sources: the sum-based collective, followed by the
    division by the number of ranks.  [others] are the vectors of the other
    ranks. *)
Definition MeanOnNodes (others : list (list Complex)) (x : list Complex)
  : list Complex :=
  map (fun j =>
         cdivr (SumOnNodes_complex (map (fun o => o !!! j) others) (x !!! j))
               (to_double (Z.of_nat (S (length others)))))
      (seq 0 (length x)).

(** [v.colwise().mean()] of a row-major matrix with [cols] columns, given as
    the list of its rows. *)
Definition colwise_mean (cols : nat) (v : list (list Complex)) : list Complex :=
  map (fun j =>
         cdivr (csum (map (fun row => row !!! j) v))
               (to_double (Z.of_nat (length v))))
      (seq 0 cols).

(** [SubtractMean(v_values)]: the new contents of [v_values]; [others] are
    the matrices of the other ranks. *)
Definition SubtractMean (others : list (list (list Complex))) (cols : nat)
    (v_values : list (list Complex)) : list (list Complex) :=
  let mean := colwise_mean cols v_values in
  let mean := MeanOnNodes (map (colwise_mean cols) others) mean in
  map (fun row => zip_with csub row mean) v_values.

(** ** The Python binding [statistics] ([Stats/py_stats.cc]) *)

(** A [py::array_t<Complex, py::array::c_style>]: its shape and its buffer in
    row-major order, whose length is the product of the shape. *)
Record array_t : Type := mkArray {
  shape : list Z;
  data : list Complex
}.

(** The lambda bound to [statistics]. *)
Definition py_statistics (others : list (list Complex))
    (local_values : array_t) : outcome Stats :=
  match length (shape local_values) with
  | 2%nat =>
      Statistics others (data local_values) (shape local_values !!! 1%nat)
  | 1%nat => Statistics others (data local_values) 1
  | _ =>
      let* _ := NETKET_CHECK false InvalidInputError in
      Undefined
  end.

(** ** Dense linear algebra over exact complex numbers *)

(** The vectors and matrices of the stochastic-reconfiguration update hold
    finite numbers and the code does not branch on special values there, so a
    [std::complex<double>] is a pair of reals in this part.  An Eigen vector
    or matrix is its coefficient function; its dimensions are carried by the
    driver. *)

Definition C : Type := (R * R)%type.

Definition C0 : C := (0, 0)%R.
Definition C1 : C := (1, 0)%R.
Definition RtoC (r : R) : C := (r, 0%R).
Definition Cplus (a b : C) : C := (a.1 + b.1, a.2 + b.2)%R.
Definition Cmult (a b : C) : C :=
  (a.1 * b.1 - a.2 * b.2, a.1 * b.2 + a.2 * b.1)%R.
Definition Cminus (a b : C) : C := (a.1 - b.1, a.2 - b.2)%R.
Definition Cconj (a : C) : C := (a.1, - a.2)%R.
(** [complex / double] *)
Definition Cdivr (a : C) (r : R) : C := (a.1 / r, a.2 / r)%R.
(** [double * complex] *)
Definition Cscale (r : R) (a : C) : C := (r * a.1, r * a.2)%R.
(** [std::abs] of a complex number *)
Definition Cabs (a : C) : R := sqrt (a.1 * a.1 + a.2 * a.2).

(** Sum of [f 0], ..., [f (n - 1)]. *)
Fixpoint sigma (n : nat) (f : nat -> C) : C :=
  match n with
  | O => C0
  | S n => Cplus (sigma n f) (f n)
  end.

(** The same for real numbers. *)
Fixpoint rsigma (n : nat) (f : nat -> R) : R :=
  match n with
  | O => 0%R
  | S n => (rsigma n f + f n)%R
  end.

(** [std::exp] and [std::norm] (the squared modulus) of a complex number. *)
Definition Cexp (a : C) : C := (exp a.1 * cos a.2, exp a.1 * sin a.2)%R.
Definition Cnorm (a : C) : R := (a.1 * a.1 + a.2 * a.2)%R.

Definition Vec : Type := nat -> C.
Definition Mat : Type := nat -> nat -> C.

(** [A.adjoint()] *)
Definition adjoint (A : Mat) : Mat := fun i k => Cconj (A k i).
(** [A * d.asDiagonal()]: column [k] of [A] scaled by [d k]. *)
Definition mul_diag (A : Mat) (d : Vec) : Mat := fun i k => Cmult (A i k) (d k).
(** [A * B], with [inner] the number of columns of [A]. *)
Definition matmul (inner : nat) (A B : Mat) : Mat :=
  fun i j => sigma inner (fun k => Cmult (A i k) (B k j)).
(** [A * x], with [cols] the number of columns of [A]. *)
Definition matvec (cols : nat) (A : Mat) (x : Vec) : Vec :=
  fun i => sigma cols (fun j => Cmult (A i j) (x j)).
(** [Identity(n, n) * r] *)
Definition scaled_identity (r : R) : Mat :=
  fun i j => if Nat.eqb i j then RtoC r else C0.
Definition matadd (A B : Mat) : Mat := fun i j => Cplus (A i j) (B i j).
(** [x.dot(y)]: Eigen conjugates its first argument. *)
Definition dot (n : nat) (x y : Vec) : C :=
  sigma n (fun i => Cmult (Cconj (x i)) (y i)).

(** Modelled from the spec: [class MatrixReplacement] of
    [matrix_replacement.hpp], which is not among the sources.  It stands for
    the operator [S] without materialising it: its product with a vector is
    [S x = O^H (O x)], scaled by the factor given to [setScale], plus the
    diagonal shift given to [setShift] times [x]. *)
Record MatrixReplacement : Type := mkMatrixReplacement {
  attached : Mat;
  attached_rows : nat;
  attached_cols : nat;
  shift_ : R;
  scale_ : R
}.

(** Modelled from the spec: the product [S * x] of a [MatrixReplacement]. *)
Definition apply_replacement (S : MatrixReplacement) (x : Vec) : Vec :=
  fun i =>
    Cplus
      (Cscale (scale_ S)
         (matvec (attached_rows S) (adjoint (attached S))
                 (matvec (attached_cols S) (attached S) x) i))
      (Cscale (shift_ S) (x i)).

(** ** [VariationalExact] *)

Module VariationalExact.

(** The members of [VariationalExact] that [UpdateParameters] reads or
    writes; [nsamp] is [vsamp_.rows()] and [npar] is [pars.size()]. *)
Record state : Type := mkState {
  Ok_ : Mat;
  psi2_ : Vec;
  elocs_ : Vec;
  grad_ : Vec;
  sr_diag_shift_ : R;
  sr_rescale_shift_ : bool;
  use_iterative_ : bool;
  use_cholesky_ : bool;
  dosr_ : bool;
  totalnodes_ : Z;
  nsamp : nat;
  npar : nat
}.

(** [Init], the part that fixes the sample quota of a process:
    [nsamples_node_ = int(std::ceil(double(nsamples_) / double(totalnodes_)))]. *)
Definition Init_nsamples_node_ (nsamples_ totalnodes_ : Z) : option Z :=
  to_int (dceil (ddiv (to_double nsamples_) (to_double totalnodes_))).

(** [int] arithmetic: a product that leaves the range of [int] has no
    defined behaviour. *)
Definition int_mul (a b : Z) : outcome Z :=
  if (INT_MIN <=? a * b) && (a * b <=? INT_MAX) then Return (a * b)
  else Undefined.

(** The constructor, the part that computes [dim_]:
    [dim_ = 1; for (i = 0; i < nv_ / 2; ++i) dim_ *= (nv_ - i);
     for (i = 0; i < nv_ / 2; ++i) dim_ /= (i + 1);] *)
Definition construct_dim_ (nv_ : Z) : outcome Z :=
  let half := Z.quot nv_ 2 in
  let* dim :=
    foldl (fun dim i => let* d := dim in int_mul d (nv_ - i))
          (Return 1) (seqZ 0 half) in
  Return (foldl (fun d i => Z.quot d (i + 1)) dim (seqZ 0 half)).

Section Gradient.

(** The calls [Eloc(vsamp_.row(i))], [psi_.DerLog(vsamp_.row(i))] and
    [psi_.LogVal(vsamp_.row(i))] on the rows of [vsamp_]. *)
Variable Eloc : nat -> C.
Variable DerLog : nat -> Vec.
Variable LogVal : nat -> C.

(** [Gradient], on a driver whose [vsamp_] holds the [dim_] configurations
    that [GetConfig] enumerates, so that [vsamp_.rows()] is [dim_].  The
    result is the driver with [Ok_], [psi2_], [elocs_] and [grad_] computed,
    then [elocmean_] and the value pushed as ["EnergyVariance"].
    [others_grad] is what the other ranks contribute to
    [SumOnNodes(grad_)]. *)
Definition Gradient (others_grad : list Vec) (st : state) : state * C * R :=
  let nsamp := nsamp st in
  let elocs : Vec := Eloc in
  let Ok : Mat := fun i => DerLog i in
  let norm := rsigma nsamp (fun i => Cnorm (Cexp (LogVal i))) in
  let psi2 : Vec := fun i => RtoC (Cnorm (Cexp (LogVal i))) in
  let psi2 : Vec := fun i => Cdivr (psi2 i) norm in
  let elocmean := sigma nsamp (fun i => Cmult (elocs i) (psi2 i)) in
  let Okmean : Vec :=
    fun i => sigma nsamp (fun j => Cmult (Ok j i) (psi2 j)) in
  let Ok : Mat := fun k i => Cminus (Ok k i) (Okmean i) in
  let elocs : Vec := fun k => Cminus (elocs k) (Cscale 1 elocmean) in
  let x := Cabs (dot nsamp (fun k => Cmult (psi2 k) (elocs k)) elocs) in
  let grad : Vec := fun i => Cscale 2 (matvec nsamp (adjoint Ok) elocs i) in
  let grad : Vec :=
    fun i => foldl (fun s g => Cplus s (g i)) (grad i) others_grad in
  let grad : Vec :=
    fun i => Cdivr (grad i) (IZR (totalnodes_ st * Z.of_nat nsamp)) in
  (mkState Ok psi2 elocs grad (sr_diag_shift_ st) (sr_rescale_shift_ st)
           (use_iterative_ st) (use_cholesky_ st) (dosr_ st) (totalnodes_ st)
           nsamp (npar st),
   elocmean, x).

End Gradient.

Section UpdateParameters.

(** Eigen's solvers are library code: [qr.solve(b)] after [qr.compute(S)]
    with threshold [1.0e-6], [llt.solve(b)] after [llt.compute(S)], and
    [it_solver.solve(b)] after [it_solver.compute(S)] with tolerance
    [1.0e-3].  Each takes the dimension, the operator and the right-hand
    side. *)
Variable FullPivHouseholderQR_solve : nat -> Mat -> Vec -> Vec.
Variable LLT_solve : nat -> Mat -> Vec -> Vec.
Variable ConjugateGradient_solve : nat -> MatrixReplacement -> Vec -> Vec.

(** [b = Ok_.adjoint() * psi2_.asDiagonal() * elocs_] *)
Definition rhs (st : state) : Vec :=
  matvec (nsamp st) (mul_diag (adjoint (Ok_ st)) (psi2_ st)) (elocs_ st).

(** The matrix [S] of the direct path, after the diagonal shift is added. *)
Definition S_direct (st : state) : Mat :=
  let S := matmul (nsamp st) (mul_diag (adjoint (Ok_ st)) (psi2_ st)) (Ok_ st) in
  matadd S (scaled_identity (sr_diag_shift_ st)).

(** The operator [S] of the iterative path, after [attachMatrix], [setShift]
    and [setScale]. *)
Definition S_iterative (st : state) : MatrixReplacement :=
  {| attached := Ok_ st;
     attached_rows := nsamp st;
     attached_cols := npar st;
     shift_ := sr_diag_shift_ st;
     scale_ := (1 / IZR (Z.of_nat (nsamp st) * totalnodes_ st))%R |}.

(** [UpdateParameters], up to the value of [grad_] that is handed to the
    optimizer; the optimizer step and the broadcast of the parameters
    follow.  The rescale step divides by [std::sqrt(std::real(nor))].  With
    [Re nor > 0] that is a division by a positive number, and the value below
    is the one of the source in exact arithmetic.  With [Re nor <= 0] the
    source divides by zero or by the square root of a negative number and
    fills [grad_] with NaN or infinite values, which the coefficients used
    here do not have: the value below says nothing about that case, and every
    statement on the rescale step is made for [Re nor > 0]. *)
Definition UpdateParameters (st : state) : state :=
  if dosr_ st then
    let b := rhs st in
    if negb (use_iterative_ st) then
      let S := S_direct st in
      let deltaP :=
        if negb (use_cholesky_ st)
        then FullPivHouseholderQR_solve (npar st) S b
        else LLT_solve (npar st) S b in
      let grad := deltaP in
      let grad :=
        if sr_rescale_shift_ st then
          let nor := dot (npar st) deltaP (matvec (npar st) S deltaP) in
          fun i => Cdivr (grad i) (sqrt nor.1)
        else grad in
      mkState (Ok_ st) (psi2_ st) (elocs_ st) grad (sr_diag_shift_ st)
              (sr_rescale_shift_ st) (use_iterative_ st) (use_cholesky_ st)
              (dosr_ st) (totalnodes_ st) (nsamp st) (npar st)
    else
      let S := S_iterative st in
      let deltaP := ConjugateGradient_solve (npar st) S b in
      let grad := deltaP in
      let grad :=
        if sr_rescale_shift_ st then
          let nor := dot (npar st) deltaP (apply_replacement S deltaP) in
          fun i => Cdivr (grad i) (sqrt nor.1)
        else grad in
      mkState (Ok_ st) (psi2_ st) (elocs_ st) grad (sr_diag_shift_ st)
              (sr_rescale_shift_ st) (use_iterative_ st) (use_cholesky_ st)
              (dosr_ st) (totalnodes_ st) (nsamp st) (npar st)
  else st.

End UpdateParameters.

End VariationalExact.

(** ** [VariationalMonteCarlo] *)

Module VariationalMonteCarlo.

(** [nonstd::optional<SR>]: the arguments [sr_.emplace] is given. *)
Record SR (Solver : Type) : Type := mkSR {
  sr_solver : Solver;
  sr_diag_shift : double;
  sr_use_iterative : bool;
  sr_is_holomorphic : bool
}.
Arguments mkSR {Solver}.

(** The members of the driver.  [MCResult] is the result of a sampling run,
    [Solver] the least-squares solver selected for SR. *)
Record state (MCResult Solver : Type) : Type := mkState {
  totalnodes_ : Z;
  mynode_ : Z;
  sr_ : option (SR Solver);
  observable_stats_ : gmap string Stats;
  mc_data_ : option MCResult;
  nsamples_ : Z;
  nsamples_node_ : Z;
  ninitsamples_ : Z;
  ndiscard_ : Z;
  npar_ : Z;
  target_ : string
}.
Arguments mkState {MCResult Solver}.
Arguments totalnodes_ {MCResult Solver}.
Arguments mynode_ {MCResult Solver}.
Arguments sr_ {MCResult Solver}.
Arguments observable_stats_ {MCResult Solver}.
Arguments mc_data_ {MCResult Solver}.
Arguments nsamples_ {MCResult Solver}.
Arguments nsamples_node_ {MCResult Solver}.
Arguments ninitsamples_ {MCResult Solver}.
Arguments ndiscard_ {MCResult Solver}.
Arguments npar_ {MCResult Solver}.
Arguments target_ {MCResult Solver}.

Section Driver.

(** The collaborators behind the references the driver holds (sampler,
    machine, Hamiltonian, optimizer) and the other MPI ranks are not part of
    these sources.  [World] is their joint state; the calls the driver makes
    are functions on it. *)
Variable World : Type.
Variable MCResult : Type.
Variable Solver : Type.
Variable Gradient_t : Type.

(** [MPI_Comm_size], [MPI_Comm_rank] *)
Variable MPI_Comm_size : World -> Z.
Variable MPI_Comm_rank : World -> Z.
(** [psi_.Npar()], [psi_.IsHolomorphic()], [opt_.Init(npar_, holomorphic)] *)
Variable Npar : World -> Z.
Variable IsHolomorphic : World -> bool.
Variable opt_Init : World -> Z -> bool -> World.
(** [SR::SolverFromString] *)
Variable SolverFromString : string -> option Solver.
(** [ComputeSamples(sampler_, nsamples_node_, ndiscard_, "centered")]: runs
    the sampler. *)
Variable ComputeSamples : World -> Z -> Z -> MCResult * World.
Variable n_chains : MCResult -> Z.
(** [LocalValues(mc_data_.samples, mc_data_.log_values, psi_, ham_,
    sampler_.BatchSize())] *)
Variable LocalValues : World -> MCResult -> list Complex.
(** The local values the other ranks pass to [Statistics] in the same step. *)
Variable others_local_values : World -> list (list Complex).
(** [Gradient(local_values, *mc_data_.der_logs)] and [GradientOfVariance(
    mc_data_.samples, local_values, psi_, ham_)] *)
Variable Gradient : World -> list Complex -> MCResult -> Gradient_t.
Variable GradientOfVariance : World -> list Complex -> MCResult -> Gradient_t.
(** [UpdateParameters()] with the gradient just computed: SR update,
    optimizer step, broadcast. *)
Variable UpdateParameters : World -> option (SR Solver) -> Gradient_t -> World.

Abbreviation state := (state MCResult Solver).

(** [Init].  The driver's [target_] is already set by the constructor's
    initialiser list. *)
Definition Init (w : World) (target : string)
    (nsamples discarded_samples discarded_samples_on_init : Z)
    (method : string) (diag_shift : double) (use_iterative : bool)
    (use_cholesky : option bool) (sr_lsq_solver : string)
  : World * outcome state :=
  let npar := Npar w in
  let w := opt_Init w npar (IsHolomorphic w) in
  let totalnodes := MPI_Comm_size w in
  let mynode := MPI_Comm_rank w in
  match to_int (dceil (ddiv (to_double nsamples) (to_double totalnodes))) with
  | None => (w, Undefined)
  | Some nsamples_node =>
    let ninitsamples := discarded_samples_on_init in
    let ndiscard :=
      if discarded_samples =? -1
      then to_int (dmul (Fin (/ 10)) (to_double nsamples_node))
      else Some discarded_samples in
    match ndiscard with
    | None => (w, Undefined)
    | Some ndiscard =>
      let check_cholesky :=
        match use_cholesky with
        | Some value =>
            if value && negb (String.eqb sr_lsq_solver "LLT")
            then Throw InvalidInputError
            else Return "ColPivHouseholder"%string
        | None => Return sr_lsq_solver
        end in
      (w,
       let* solver_str := check_cholesky in
       let* sr :=
         if String.eqb method "Gd" then Return None
         else match SolverFromString sr_lsq_solver with
              | None => Throw InvalidInputError
              | Some solver =>
                  Return (Some (mkSR solver diag_shift use_iterative
                                     (IsHolomorphic w)))
              end in
       (* [if (target_ != "energy" && target_ != "variance")
              InvalidInputError("...");]
          builds an exception object and drops it: there is no [throw]. *)
       let _ :=
         if negb (String.eqb target "energy") &&
            negb (String.eqb target "variance")
         then Some InvalidInputError else None in
       Return (mkState totalnodes mynode sr ∅ None nsamples nsamples_node
                       ninitsamples ndiscard npar target))
    end
  end.

(** The constructor. *)
Definition construct (w : World) (nsamples discarded_samples
    discarded_samples_on_init : Z) (target method : string)
    (diag_shift : double) (use_iterative : bool) (use_cholesky : option bool)
    (sr_lsq_solver : string) : World * outcome state :=
  Init w target nsamples discarded_samples discarded_samples_on_init method
       diag_shift use_iterative use_cholesky sr_lsq_solver.

Definition set_mc_data_ (st : state) (mc : MCResult) : state :=
  mkState (totalnodes_ st) (mynode_ st) (sr_ st) (observable_stats_ st)
          (Some mc) (nsamples_ st) (nsamples_node_ st) (ninitsamples_ st)
          (ndiscard_ st) (npar_ st) (target_ st).

Definition set_observable_stats_ (st : state) (m : gmap string Stats) : state :=
  mkState (totalnodes_ st) (mynode_ st) (sr_ st) m
          (mc_data_ st) (nsamples_ st) (nsamples_node_ st) (ninitsamples_ st)
          (ndiscard_ st) (npar_ st) (target_ st).

(** The body of the loop of [Advance], run [steps] times.  The result is the
    state of the collaborators when the call ends, and how it ends. *)
Fixpoint Advance_loop (steps : nat) (w : World) (st : state)
  : World * outcome state :=
  match steps with
  | O => (w, Return st)
  | S steps =>
      let '(mc, w) := ComputeSamples w (nsamples_node_ st) (ndiscard_ st) in
      let st := set_mc_data_ st mc in
      let local_values := LocalValues w mc in
      match Statistics (others_local_values w) local_values (n_chains mc) with
      | Return stats =>
          let st :=
            set_observable_stats_ st
              (<["Energy"%string := stats]> (observable_stats_ st)) in
          if String.eqb (target_ st) "energy" then
            let grad := Gradient w local_values mc in
            Advance_loop steps (UpdateParameters w (sr_ st) grad) st
          else if String.eqb (target_ st) "variance" then
            let grad := GradientOfVariance w local_values mc in
            Advance_loop steps (UpdateParameters w (sr_ st) grad) st
          else (w, Throw RuntimeError)
      | Throw e => (w, Throw e)
      | Deadlock => (w, Deadlock)
      | Undefined => (w, Undefined)
      end
  end.

(** [Advance(steps)] *)
Definition Advance (steps : Z) (w : World) (st : state)
  : World * outcome state :=
  Advance_loop (Z.to_nat steps) w st.

End Driver.

End VariationalMonteCarlo.

(** ** Samplers *)

Definition dgt (x y : double) : bool := dlt y x.

(** [l[i]] / [l(i)] for a C++ index. *)
Definition at_ {A} (l : list A) (i : Z) : outcome A :=
  if (0 <=? i) && (i <? Z.of_nat (length l)) then
    match l !! Z.to_nat i with
    | Some x => Return x
    | None => Undefined
    end
  else Undefined.

(** [l[i] = x] / [l(i) = x] for a C++ index. *)
Definition set_at {A} (l : list A) (i : Z) (x : A) : outcome (list A) :=
  if (0 <=? i) && (i <? Z.of_nat (length l))
  then Return (<[Z.to_nat i := x]> l)
  else Undefined.

(** Modelled from the spec: [AbstractHilbert::UpdateConf], whose
    implementations are not among the sources.  The documentation
    ([Docs/hilbert/Spin.md], [update_conf]) gives it: [to_change] lists the
    quantum numbers to modify and [new_conf] the values they take, so
    [v(tochange[k]) = newconf[k]] for every [k], in order. *)
Fixpoint UpdateConf (v : list double) (tochange : list Z)
    (newconf : list double) : outcome (list double) :=
  match tochange, newconf with
  | [], _ => Return v
  | sf :: tochange, x :: newconf =>
      let* v := set_at v sf x in
      UpdateConf v tochange newconf
  | _ :: _, [] => Undefined
  end.

(** The loops of [GenerateClusters] and of [ExchangeKernel::Init]: the
    ordered pairs of distinct sites at distance at most [dmax], where [dist i
    j] is [graph.AllDistances()[i][j]]. *)
Definition GenerateClusters (dist : nat -> nat -> Z) (nv : nat) (dmax : Z)
  : list (list Z) :=
  flat_map (fun i =>
    flat_map (fun j =>
      if (dist i j <=? dmax) && negb (Nat.eqb i j)
      then [[Z.of_nat i; Z.of_nat j]] else [])
      (seq 0 nv))
    (seq 0 nv).

(** [std::norm]: squared modulus. *)
Definition std_norm (z : Complex) : double := abs2 z.

(** Constructing [std::uniform_int_distribution<int>(a, b)] requires
    [a <= b]. *)
Definition uniform_int_distribution (a b : Z) : outcome (Z * Z) :=
  if a <=? b then Return (a, b) else Undefined.

(** *** [MetropolisGlobal] *)

Module MetropolisGlobal.

(** What the sampler asks of the wave function [WfType]. *)
Record WfType (LookupType : Type) : Type := mkWf {
  LogVal : list double -> Complex;
  LogValDiff : list double -> list Z -> list double -> LookupType -> Complex;
  InitLookup : list double -> LookupType -> LookupType;
  UpdateLookup :
    list double -> list Z -> list double -> LookupType -> LookupType
}.
Arguments LogVal {LookupType}.
Arguments LogValDiff {LookupType}.
Arguments InitLookup {LookupType}.
Arguments UpdateLookup {LookupType}.

(** The members of the sampler that [Sweep] reads or writes;
    [default_random_engine] is the type of [rgen_]. *)
Record state (default_random_engine LookupType : Type) : Type := mkState {
  nv_ : Z;
  L_ : Z;
  rgen_ : default_random_engine;
  v_ : list double;
  accept_ : list double;
  moves_ : list double;
  clusters_ : list (list Z);
  lt_ : LookupType
}.
Arguments mkState {default_random_engine LookupType}.
Arguments nv_ {default_random_engine LookupType}.
Arguments L_ {default_random_engine LookupType}.
Arguments rgen_ {default_random_engine LookupType}.
Arguments v_ {default_random_engine LookupType}.
Arguments accept_ {default_random_engine LookupType}.
Arguments moves_ {default_random_engine LookupType}.
Arguments clusters_ {default_random_engine LookupType}.
Arguments lt_ {default_random_engine LookupType}.

(** [L_ = int(std::sqrt(nv_) + 0.5)] in [Init]. *)
Definition Init_L_ (nv : Z) : option Z :=
  to_int (dadd (dsqrt (to_double nv)) (Fin (/ 2))).

Section Sweep.

(** The random engine and the standard distributions are library code:
    [distu(rgen)] for a [std::uniform_real_distribution<double>] and
    [dist(rgen)] for a [std::uniform_int_distribution] on [a, b]. *)
Variable default_random_engine : Type.
Variable uniform_real : default_random_engine -> double * default_random_engine.
Variable uniform_int :
  Z -> Z -> default_random_engine -> Z * default_random_engine.

(** [std::exp] on complex numbers is library code. *)
Variable std_exp : Complex -> Complex.

Variable LookupType : Type.
Variable psi_ : WfType LookupType.

Abbreviation state := (state default_random_engine LookupType).

(** [x[i] += 1] on a vector of doubles. *)
Definition increment (x : list double) (i : Z) : outcome (list double) :=
  let* xi := at_ x i in
  set_at x i (dadd xi (Fin 1)).

(** The acceptance test shared, as repeated text, by the three kinds of move:
    [ratio = std::norm(std::exp(psi_.LogValDiff(v_, tochange, newconf, lt_)))]
    and, if [ratio > distu(rgen_)], the update of the acceptance counter
    [which], of the look-up tables and of the configuration. *)
Definition metropolis_test (which : Z) (tochange : list Z)
    (newconf : list double) (st : state) : outcome state :=
  let ratio :=
    std_norm (std_exp (LogValDiff psi_ (v_ st) tochange newconf (lt_ st))) in
  let '(u, rgen) := uniform_real (rgen_ st) in
  if dgt ratio u then
    let* accept := increment (accept_ st) which in
    let lt := UpdateLookup psi_ (v_ st) tochange newconf (lt_ st) in
    let* v := UpdateConf (v_ st) tochange newconf in
    Return (mkState (nv_ st) (L_ st) rgen v accept (moves_ st)
                    (clusters_ st) lt)
  else
    Return (mkState (nv_ st) (L_ st) rgen (v_ st) (accept_ st) (moves_ st)
                    (clusters_ st) (lt_ st)).

(** The loop [for (int j = 0; j < L_; j++)] of the column swap ([cols =
    true]) and of the row swap: where the entry of line [r] exceeds that of
    line [(r + 1) % L_] by more than the machine epsilon, both sites are
    pushed to [tochange] and their values, exchanged, to [newconf].
    [v_reshape] is the column-major [L_] x [L_] view of [v_], so that
    [v_reshape.col(c)(j)] is [v_(c * L_ + j)] and [v_reshape.row(c)(j)] is
    [v_(j * L_ + c)]. *)
Fixpoint line_swap_loop (cols : bool) (v : list double) (L r : Z)
    (js : list Z) (tochange : list Z) (newconf : list double)
  : outcome (list Z * list double) :=
  match js with
  | [] => Return (tochange, newconf)
  | j :: js =>
      let r' := Z.rem (r + 1) L in
      let site (c : Z) := if cols then c * L + j else j * L + c in
      let* a := at_ v (site r) in
      let* b := at_ v (site r') in
      if dgt (dsub a b) epsilon then
        line_swap_loop cols v L r js
          (tochange ++ [site r; site r']) (newconf ++ [b; a])
      else
        line_swap_loop cols v L r js tochange newconf
  end.

Definition set_moves (st : state) (moves : list double) : state :=
  mkState (nv_ st) (L_ st) (rgen_ st) (v_ st) (accept_ st) moves
          (clusters_ st) (lt_ st).

Definition set_rgen (st : state) (rgen : default_random_engine) : state :=
  mkState (nv_ st) (L_ st) rgen (v_ st) (accept_ st) (moves_ st)
          (clusters_ st) (lt_ st).

(** One iteration of the loop [for (int i = 0; i < nv_; i++)] of [Sweep];
    [distcl] and [distline] are the bounds of the two integer
    distributions. *)
Definition Sweep_body (distcl distline : Z * Z) (st : state) : outcome state :=
  let '(u, rgen) := uniform_real (rgen_ st) in
  let st := set_rgen st rgen in
  if dgt u (Fin (2 / 10)) then
    let '(rcl, rgen) := uniform_int distcl.1 distcl.2 (rgen_ st) in
    let st := set_rgen st rgen in
    let* cluster := at_ (clusters_ st) rcl in
    let* si := at_ cluster 0 in
    let* sj := at_ cluster 1 in
    let* vsi := at_ (v_ st) si in
    let* vsj := at_ (v_ st) sj in
    let* st :=
      if dgt (dabs (dsub vsi vsj)) epsilon then
        let tochange := cluster in
        let newconf := [vsj; vsi] in
        metropolis_test 0 tochange newconf st
      else Return st in
    let* moves := increment (moves_ st) 0 in
    Return (set_moves st moves)
  else
    let '(r, rgen) := uniform_int distline.1 distline.2 (rgen_ st) in
    let st := set_rgen st rgen in
    let '(u, rgen) := uniform_real (rgen_ st) in
    let st := set_rgen st rgen in
    let cols := dgt u (Fin (/ 2)) in
    let* changes :=
      line_swap_loop cols (v_ st) (L_ st) r (seqZ 0 (L_ st)) [] [] in
    let '(tochange, newconf) := changes in
    let* st :=
      if negb (Nat.eqb (length tochange) 0)
      then metropolis_test 1 tochange newconf st
      else Return st in
    let* moves := increment (moves_ st) 1 in
    Return (set_moves st moves).

Fixpoint Sweep_loop (n : nat) (distcl distline : Z * Z) (st : state)
  : outcome state :=
  match n with
  | O => Return st
  | S n =>
      let* st := Sweep_body distcl distline st in
      Sweep_loop n distcl distline st
  end.

(** [Sweep] *)
Definition Sweep (st : state) : outcome state :=
  let* distcl :=
    uniform_int_distribution 0 (Z.of_nat (length (clusters_ st)) - 1) in
  let* distline := uniform_int_distribution 0 (L_ st - 1) in
  Sweep_loop (Z.to_nat (nv_ st)) distcl distline st.

(** [hilbert_.RandomVals(v_, rgen_)]: the new configuration and the engine. *)
Variable RandomVals :
  list double -> default_random_engine -> list double * default_random_engine.

(** [Reset(initrandom)]; [Eigen::VectorXd::Zero(2)] is two zeros. *)
Definition Reset (initrandom : bool) (st : state) : state :=
  let '(v, rgen) :=
    if initrandom then RandomVals (v_ st) (rgen_ st)
    else (v_ st, rgen_ st) in
  let lt := InitLookup psi_ v (lt_ st) in
  mkState (nv_ st) (L_ st) rgen v [Fin 0; Fin 0] [Fin 0; Fin 0]
          (clusters_ st) lt.

(** [Acceptance()]: [acc(i) /= moves_(i)] for [i = 0, 1] on a copy of
    [accept_]. *)
Definition Acceptance (st : state) : outcome (list double) :=
  foldl (fun acc i =>
           let* acc := acc in
           let* a := at_ acc i in
           let* m := at_ (moves_ st) i in
           set_at acc i (ddiv a m))
        (Return (accept_ st)) [0; 1].

(** [Init(graph, dmax)], run by both constructors with [nv_ =
    hilbert_.Size()].  [v_.resize(nv_)], [accept_.resize(2)] and
    [moves_.resize(2)] leave entries of unspecified value, [storage k] here;
    [dist] is [graph.AllDistances()]; [seeded] is the engine as [Seed()]
    leaves it, and [lt] the look-up tables as they are constructed.  [L_] is
    computed from [nv_] and never compared with it: no statement of [Init],
    of the constructors or of the factory checks that [L_ * L_] is [nv_]. *)
Definition Init (dist : nat -> nat -> Z) (dmax : Z) (nv : Z)
    (storage : nat -> double) (seeded : default_random_engine)
    (lt : LookupType) : outcome state :=
  let v := map storage (seq 0 (Z.to_nat nv)) in
  match Init_L_ nv with
  | None => Undefined
  | Some L =>
      let accept := map storage (seq 0 2) in
      let moves := map storage (seq 0 2) in
      let clusters := GenerateClusters dist (Z.to_nat nv) dmax in
      Return (Reset true (mkState nv L seeded v accept moves clusters lt))
  end.

End Sweep.

End MetropolisGlobal.

(** *** [ExchangeKernel] *)

Module ExchangeKernel.

Section Kernel.

(** The random engine and the standard distributions are library code:
    [distu(rgen)] for a [std::uniform_real_distribution<double>] and
    [dist(rgen)] for a [std::uniform_int_distribution] on [a, b]. *)
Variable default_random_engine : Type.
Variable uniform_real : default_random_engine -> double * default_random_engine.
Variable uniform_int :
  Z -> Z -> default_random_engine -> Z * default_random_engine.

(** The members of the kernel; [distcl_] is kept as its two bounds. *)
Record state : Type := mkState {
  nv_ : Z;
  clusters_ : list (list Z);
  distcl_ : Z * Z
}.

(** [Init] *)
Definition Init (dist : nat -> nat -> Z) (nv : nat) (dmax : Z)
  : outcome state :=
  let clusters := GenerateClusters dist nv dmax in
  let* distcl :=
    uniform_int_distribution 0 (Z.of_nat (length clusters) - 1) in
  Return (mkState (Z.of_nat nv) clusters distcl).

(** [std::swap(vnew(i, si), vnew(i, sj))] on row [i]. *)
Definition swap (row : list double) (si sj : Z) : outcome (list double) :=
  let* a := at_ row si in
  let* b := at_ row sj in
  let* row := set_at row si b in
  set_at row sj a.

(** The loop over the rows of [vnew], which starts as a copy of [v];
    [GetRandomEngine()] is the global engine. *)
Fixpoint rows_loop (k : state) (vnew : list (list double))
    (rgen : default_random_engine)
  : outcome (list (list double) * default_random_engine) :=
  match vnew with
  | [] => Return ([], rgen)
  | row :: vnew =>
      let '(rcl, rgen) := uniform_int (distcl_ k).1 (distcl_ k).2 rgen in
      let* cluster := at_ (clusters_ k) rcl in
      let* si := at_ cluster 0 in
      let* sj := at_ cluster 1 in
      let* row := swap row si sj in
      let* rest := rows_loop k vnew rgen in
      Return (row :: rest.1, rest.2)
  end.

(** [operator()(v, vnew, log_acceptance_correction)]: the new [vnew], the
    new [log_acceptance_correction] (set to zero) and the engine. *)
Definition call (k : state) (v : list (list double))
    (log_acceptance_correction : list double) (rgen : default_random_engine)
  : outcome (list (list double) * list double * default_random_engine) :=
  let vnew := v in
  let* r := rows_loop k vnew rgen in
  Return (r.1, map (fun _ => Fin 0) log_acceptance_correction, r.2).

End Kernel.

End ExchangeKernel.

(** ** [Statistics] in binary64 arithmetic *)

(** Everywhere else a [double] is idealised.  The results proved there are
    those of the source wherever the source only computes; they can differ
    from it where the source turns a computed number into a decision: the
    [std::round] that ends [Statistics], and the sign of a difference of
    nearly equal numbers.  This module evaluates [StatisticsLocal] and
    [Statistics] in IEEE 754 binary64, round to nearest even, operation by
    operation as the source writes them, so that the two readings can be
    compared on a given input.  It covers one rank ([MPI_Allreduce] over a
    communicator of one process returns the contribution of that process),
    and reductions are taken in index order, which is Eigen's order for up
    to three entries. *)
Module Binary64.

Abbreviation float := PrimFloat.float.

#[global] Instance float_inhabited : Inhabited float := populate PrimFloat.zero.

(** [double(z)] for an integer below [2^53] in absolute value. *)
Definition of_int (z : Z) : float :=
  if z <? 0 then PrimFloat.opp (PrimFloat.of_uint63 (Uint63.of_Z (- z)))
  else PrimFloat.of_uint63 (Uint63.of_Z z).

(** [std::round]: the nearest integer, halves away from zero.  A finite
    binary64 number is [m * 2^e] for a positive integer [m]. *)
Definition round (x : float) : float :=
  match FloatOps.Prim2SF x with
  | SpecFloat.S754_finite s m e =>
      if 0 <=? e then x
      else
        let d := 2 ^ (- e) in
        let q := Z.pos m / d in
        let r := Z.pos m mod d in
        let k := if d <=? 2 * r then q + 1 else q in
        if s then PrimFloat.opp (of_int k) else of_int k
  | _ => x
  end.

Record complex : Type := mkComplex { real : float; imag : float }.

(** [.sum()] of an Eigen vector of doubles, and of complex numbers. *)
Definition sum (l : list float) : float :=
  match l with
  | [] => PrimFloat.zero
  | x :: l => foldl PrimFloat.add x l
  end.

Definition cadd (a b : complex) : complex :=
  mkComplex (PrimFloat.add (real a) (real b)) (PrimFloat.add (imag a) (imag b)).

Definition csum (l : list complex) : complex :=
  match l with
  | [] => mkComplex PrimFloat.zero PrimFloat.zero
  | x :: l => foldl cadd x l
  end.

(** The lambda [kernel] of the accumulator. *)
Definition kernel (n : Z) (mu M2 x : float) : float * float :=
  let delta := PrimFloat.sub x mu in
  let mu := PrimFloat.add mu (PrimFloat.div delta (of_int n)) in
  let M2 := PrimFloat.add M2 (PrimFloat.mul delta (PrimFloat.sub x mu)) in
  (mu, M2).

Fixpoint kernel_loop (n : Z) (mu M2 xs : list float)
  : list float * list float :=
  match mu, M2, xs with
  | m :: mu, q :: M2, x :: xs =>
      let '(m', q') := kernel n m q x in
      let '(mus, M2s) := kernel_loop n mu M2 xs in
      (m' :: mus, q' :: M2s)
  | _, _, _ => ([], [])
  end.

(** The accumulator: the two spans and the number of rows seen. *)
Definition accumulator : Type := list float * list float * Z.

Definition construct (size : nat) : accumulator :=
  (replicate size PrimFloat.zero, replicate size PrimFloat.zero, 0).

Definition call (acc : accumulator) (xs : list float) : accumulator :=
  let '(mu, M2, n) := acc in
  let n := n + 1 in
  let '(mu, M2) := kernel_loop n mu M2 xs in
  (mu, M2, n).

Definition destruct_ (acc : accumulator) : list float * list float :=
  let '(mu, M2, n) := acc in
  if n =? 0 then
    (replicate (length mu) PrimFloat.nan, replicate (length M2) PrimFloat.nan)
  else if n =? 1 then
    (mu, replicate (length M2) PrimFloat.nan)
  else
    let scale := PrimFloat.div PrimFloat.one (of_int n) in
    (mu, map (fun x => PrimFloat.mul x scale) M2).

Definition as_doubles (values : list complex) : list float :=
  flat_map (fun z => [real z; imag z]) values.

Fixpoint as_complex (p : list float) : list complex :=
  match p with
  | re :: im :: p => mkComplex re im :: as_complex p
  | _ => []
  end.

Fixpoint accumulate (acc : accumulator) (p : list float) (width : nat)
    (n : nat) : accumulator :=
  match n with
  | O => acc
  | S n => accumulate (call acc (take width p)) (drop width p) width n
  end.

Definition merge_variances (number_chains : nat) (var : list float)
  : list float :=
  foldl (fun var i =>
           <[ i := PrimFloat.add (var !!! (2 * i)%nat)
                                 (var !!! (2 * i + 1)%nat) ]> var)
        var (seq 0 number_chains).

(** [StatisticsLocal] *)
Definition StatisticsLocal (values : list complex) (number_chains : Z)
  : outcome (list complex * list float) :=
  let size := Z.of_nat (length values) in
  let* _ := NETKET_CHECK (0 <? number_chains) InvalidInputError in
  let* _ := NETKET_CHECK (Z.rem size number_chains =? 0) InvalidInputError in
  let chains := Z.to_nat number_chains in
  let acc := construct (2 * chains) in
  let p := as_doubles values in
  let n := Z.quot size number_chains in
  let acc := accumulate acc p (2 * chains) (Z.to_nat n) in
  let '(mean, var) := destruct_ acc in
  let var := merge_variances chains var in
  let var := take chains var in
  Return (as_complex mean, var).

Record Stats : Type := mkStats {
  mean : complex;
  error_of_mean : float;
  variance : float;
  correlation : float;
  R_ : float
}.

(** Eigen's [abs2] of [x - mean]. *)
Definition abs2_diff (x mean : complex) : float :=
  let re := PrimFloat.sub (real x) (real mean) in
  let im := PrimFloat.sub (imag x) (imag mean) in
  PrimFloat.add (PrimFloat.mul re re) (PrimFloat.mul im im).

(** [Statistics] on the only rank of [MPI_COMM_WORLD]. *)
Definition Statistics (values : list complex) (local_number_chains : Z)
  : outcome Stats :=
  let* _ := NETKET_CHECK (local_number_chains <=? Z.of_nat (length values))
                         InvalidInputError in
  let* stats_local := StatisticsLocal values local_number_chains in
  let n := Z.quot (Z.of_nat (length values)) local_number_chains in
  let m := local_number_chains in
  let mean :=
    let global_mean := csum (fst stats_local) in
    mkComplex (PrimFloat.div (real global_mean) (of_int m))
              (PrimFloat.div (imag global_mean) (of_int m)) in
  let var :=
    let global_var :=
      (sum (map (fun x => abs2_diff x mean) (fst stats_local)),
       sum (snd stats_local)) in
    if m =? 1 then (PrimFloat.nan, PrimFloat.nan)
    else (PrimFloat.div (fst global_var) (of_int m),
          PrimFloat.div (snd global_var) (of_int m)) in
  if negb (PrimFloat.is_nan (fst var)) && negb (PrimFloat.is_nan (snd var)) then
    let t := PrimFloat.div (fst var) (snd var) in
    let correlation :=
      PrimFloat.mul (PrimFloat.div PrimFloat.one PrimFloat.two)
        (PrimFloat.sub (PrimFloat.mul t (of_int n)) PrimFloat.one) in
    let correlation :=
      if PrimFloat.ltb correlation PrimFloat.zero then PrimFloat.zero
      else correlation in
    let R :=
      PrimFloat.sqrt
        (PrimFloat.add (PrimFloat.div (of_int (n - 1)) (of_int n))
                       (PrimFloat.div (fst var) (snd var))) in
    Return {| mean := mean;
              error_of_mean := PrimFloat.sqrt (PrimFloat.div (fst var) (of_int m));
              variance := snd var;
              correlation := round correlation;
              R_ := R |}
  else
    Return {| mean := mean; error_of_mean := PrimFloat.nan;
              variance := PrimFloat.nan; correlation := PrimFloat.nan;
              R_ := PrimFloat.nan |}.

(** Real samples, given as integers. *)
Definition samples (l : list Z) : list complex :=
  map (fun z => mkComplex (of_int z) PrimFloat.zero) l.

End Binary64.

(* ------------------------------------------------------------------ *)
(** ** Reference quantities *)
(* ------------------------------------------------------------------ *)

(** The quantities the statements of Part II compare the programs with,
    written over the reals. *)

Definition Rsum (l : list R) : R := foldr Rplus 0%R l.

(** Arithmetic mean. *)
Definition Rmean (l : list R) : R := (Rsum l / INR (length l))%R.

(** Two-pass population variance: [mean(x^2) - mean(x)^2]. *)
Definition Rvariance (l : list R) : R :=
  (Rmean (map (fun x => x * x) l) - Rmean l * Rmean l)%R.

(** Column [j] of a list of rows. *)
Definition column {A} `{Inhabited A} (j : nat) (rows : list (list A)) : list A :=
  map (fun row => row !!! j) rows.

(** A flat row-major buffer read as [n] rows of [width] entries. *)
Fixpoint reshape {A} (n width : nat) (l : list A) : list (list A) :=
  match n with
  | O => []
  | S n => take width l :: reshape n width (drop width l)
  end.

(** A finite complex number, as a pair of reals, seen as a [Complex]. *)
Definition Cfin (z : R * R) : Complex := mkComplex (Fin z.1) (Fin z.2).

(** The accumulator fed with a list of rows, then destroyed. *)
Definition welford (width : nat) (rows : list (list double))
  : list double * list double :=
  detail.destruct_ (foldl detail.call (detail.construct width) rows).

(** Real and imaginary parts of a row of finite complex numbers, interleaved. *)
Definition Rdoubles (row : list (R * R)) : list R :=
  flat_map (fun z => [z.1; z.2]) row.

(** Mean of a chain of complex samples. *)
Definition chain_mean (ch : list (R * R)) : R * R :=
  (Rmean (map fst ch), Rmean (map snd ch)).

(** Variance of a chain of complex samples: the variances of the real and of
    the imaginary parts, added. *)
Definition chain_variance (ch : list (R * R)) : R :=
  (Rvariance (map fst ch) + Rvariance (map snd ch))%R.

(** The chains held by one rank: the columns of its [n] x [M] row-major
    buffer of samples. *)
Definition chains (n M : nat) (values : list (R * R)) : list (list (R * R)) :=
  map (fun c => column c (reshape n M values)) (seq 0 M).

(** Componentwise sum of finite complex numbers. *)
Definition Csum (l : list (R * R)) : R * R :=
  (Rsum (map fst l), Rsum (map snd l)).

(** Squared modulus of the difference of two finite complex numbers. *)
Definition sqdist (a b : R * R) : R :=
  ((a.1 - b.1) * (a.1 - b.1) + (a.2 - b.2) * (a.2 - b.2))%R.

(** Mean over all chains of all ranks of the chain means. *)
Definition global_mean (chs : list (list (R * R))) : R * R :=
  let s := Csum (map chain_mean chs) in
  (s.1 / INR (length chs), s.2 / INR (length chs))%R.

(** [B]: mean squared deviation of the chain means from the global mean. *)
Definition between_chain_variance (chs : list (list (R * R))) : R :=
  (Rsum (map (fun ch => sqdist (chain_mean ch) (global_mean chs)) chs)
   / INR (length chs))%R.

(** [W]: mean of the chain variances. *)
Definition within_chain_variance (chs : list (list (R * R))) : R :=
  (Rsum (map chain_variance chs) / INR (length chs))%R.

(** All the chains of [MPI_COMM_WORLD], rank by rank. *)
Definition all_chains (n M : nat) (ranks : list (list (R * R)))
  : list (list (R * R)) :=
  concat (map (chains n M) ranks).

(** What [StatisticsLocal] returns on a rank holding [n >= 1] rows of finite
    samples. *)
Definition stats_local_of (n M : nat) (values : list (R * R))
  : list Complex * list double :=
  (map (fun ch => Cfin (chain_mean ch)) (chains n M values),
   map (fun ch => if decide (n = 1%nat) then NaN else Fin (chain_variance ch))
       (chains n M values)).

(** The S-norm [x^H S x] of a vector, as the code computes it with
    [x.dot(S * x)], for the (shifted) [S] of the direct path and for that of
    the iterative path. *)
Definition S_norm_direct (st : VariationalExact.state) (x : Vec) : C :=
  dot (VariationalExact.npar st) x
      (matvec (VariationalExact.npar st) (VariationalExact.S_direct st) x).

Definition S_norm_iterative (st : VariationalExact.state) (x : Vec) : C :=
  dot (VariationalExact.npar st) x
      (apply_replacement (VariationalExact.S_iterative st) x).

(** The matrix of a [MatrixReplacement]:
    [scale * O^H O + shift * I]. *)
Definition replacement_matrix (S : MatrixReplacement) : Mat :=
  fun i j =>
    Cplus (Cscale (scale_ S)
             (sigma (attached_rows S)
                    (fun k => Cmult (Cconj (attached S k i)) (attached S k j))))
          (scaled_identity (shift_ S) i j).

(** A state of [VariationalExact] on which the two solver paths are compared:
    two configurations with probabilities 1/5 and 4/5, one parameter with
    centred log-derivatives 4 and -1, centred local energies 4 and -1, the
    default diagonal shift 0.01, one process. *)
Definition two_sample_state (use_iterative rescale_shift : bool)
  : VariationalExact.state :=
  {| VariationalExact.Ok_ := fun k _ => if Nat.eqb k 0 then (4, 0)%R else (-1, 0)%R;
     VariationalExact.psi2_ := fun k => if Nat.eqb k 0 then (1 / 5, 0)%R else (4 / 5, 0)%R;
     VariationalExact.elocs_ := fun k => if Nat.eqb k 0 then (4, 0)%R else (-1, 0)%R;
     VariationalExact.grad_ := fun _ => C0;
     VariationalExact.sr_diag_shift_ := (1 / 100)%R;
     VariationalExact.sr_rescale_shift_ := rescale_shift;
     VariationalExact.use_iterative_ := use_iterative;
     VariationalExact.use_cholesky_ := true;
     VariationalExact.dosr_ := true;
     VariationalExact.totalnodes_ := 1;
     VariationalExact.nsamp := 2;
     VariationalExact.npar := 1 |}.

(** Quotient of integers rounded up. *)
Definition ceil_div (N P : Z) : Z := - ((- N) / P).

(** A sampler whose configuration holds the [L_] x [L_] view that [Sweep]
    lays over it: [v_] has [nv_] entries, the two counters have two entries
    each, the clusters come from [GenerateClusters] and there is at least
    one, and [1 <= L_] with [L_ * L_ <= nv_].  [MetropolisGlobal::Init]
    guarantees the sizes and the origin of the clusters, but neither
    [L_ * L_ <= nv_] nor a cluster: it leaves such a sampler when the number
    of sites is a square and some pair of distinct sites is within [dmax],
    and on three sites, for one, it leaves [L_ = 2]. *)
Definition wf_sampler {rng LookupType : Type}
    (st : MetropolisGlobal.state rng LookupType) : Prop :=
  0 <= MetropolisGlobal.nv_ st /\
  length (MetropolisGlobal.v_ st) = Z.to_nat (MetropolisGlobal.nv_ st) /\
  length (MetropolisGlobal.accept_ st) = 2%nat /\
  length (MetropolisGlobal.moves_ st) = 2%nat /\
  1 <= MetropolisGlobal.L_ st /\
  MetropolisGlobal.L_ st * MetropolisGlobal.L_ st <= MetropolisGlobal.nv_ st /\
  MetropolisGlobal.clusters_ st <> [] /\
  exists dist dmax,
    MetropolisGlobal.clusters_ st =
    GenerateClusters dist (Z.to_nat (MetropolisGlobal.nv_ st)) dmax.

(** What a sweep leaves untouched, and what it may only permute. *)
Definition same_frame {rng LookupType : Type}
    (st st' : MetropolisGlobal.state rng LookupType) : Prop :=
  MetropolisGlobal.nv_ st' = MetropolisGlobal.nv_ st /\
  MetropolisGlobal.L_ st' = MetropolisGlobal.L_ st /\
  MetropolisGlobal.clusters_ st' = MetropolisGlobal.clusters_ st /\
  length (MetropolisGlobal.accept_ st') = length (MetropolisGlobal.accept_ st) /\
  length (MetropolisGlobal.moves_ st') = length (MetropolisGlobal.moves_ st) /\
  MetropolisGlobal.v_ st' ≡ₚ MetropolisGlobal.v_ st.

(** What one iteration of [Sweep] does to the configuration, the look-up
    tables and the acceptance counters when it tests the proposal
    [(tochange, newconf)] against the draw [u]: the move is applied when
    [ratio > u], and nothing changes otherwise. *)
Definition move_tested {rng LookupType : Type} (std_exp : Complex -> Complex)
    (psi_ : MetropolisGlobal.WfType LookupType)
    (st st' : MetropolisGlobal.state rng LookupType) (which : Z)
    (tochange : list Z) (newconf : list double) (u : double) : Prop :=
  let ratio :=
    std_norm (std_exp (MetropolisGlobal.LogValDiff psi_ (MetropolisGlobal.v_ st)
                         tochange newconf (MetropolisGlobal.lt_ st))) in
  (dgt ratio u = true /\
   UpdateConf (MetropolisGlobal.v_ st) tochange newconf
     = Return (MetropolisGlobal.v_ st') /\
   MetropolisGlobal.lt_ st' =
     MetropolisGlobal.UpdateLookup psi_ (MetropolisGlobal.v_ st) tochange
       newconf (MetropolisGlobal.lt_ st) /\
   MetropolisGlobal.increment (MetropolisGlobal.accept_ st) which
     = Return (MetropolisGlobal.accept_ st')) \/
  (dgt ratio u = false /\
   MetropolisGlobal.v_ st' = MetropolisGlobal.v_ st /\
   MetropolisGlobal.lt_ st' = MetropolisGlobal.lt_ st /\
   MetropolisGlobal.accept_ st' = MetropolisGlobal.accept_ st).



(** [tracks k mu M2 S Q]: the spans hold finite values and, coordinate by
    coordinate, [k * mu = Ss] (the running sum) and [M2 = Qs - k * mu^2]
    ([Qs] the running sum of squares). *)
Inductive tracks (k : R) : list double -> list double -> list R -> list R -> Prop :=
| tracks_nil : tracks k [] [] [] []
| tracks_cons m q s ss mu M2 Ss Qs :
    (k * m = s)%R -> (q = ss - k * m * m)%R ->
    tracks k mu M2 Ss Qs ->
    tracks k (Fin m :: mu) (Fin q :: M2) (s :: Ss) (ss :: Qs).

(** Weighted samples: a finite complex value and its weight.  The buffers a
    rank passes to [WeightedStatistics], the weighted sum of the values and
    the weighted sum of their squared moduli. *)
Definition weighted_values (samples : list ((R * R) * R)) : list Complex :=
  map (fun s => Cfin s.1) samples.
Definition weighted_weights (samples : list ((R * R) * R)) : list double :=
  map (fun s => Fin s.2) samples.
Definition weighted_sum (samples : list ((R * R) * R)) : R * R :=
  (Rsum (map (fun s => s.2 * s.1.1) samples),
   Rsum (map (fun s => s.2 * s.1.2) samples))%R.
Definition weighted_second_moment (samples : list ((R * R) * R)) : R :=
  Rsum (map (fun s => s.2 * (s.1.1 * s.1.1 + s.1.2 * s.1.2)) samples)%R.

(** What the ranks of [MPI_COMM_WORLD] hold after they all call
    [SubtractMean], each on its own matrix. *)
Definition SubtractMean_on_all_ranks (cols : nat)
    (ranks : list (list (list Complex))) : list (list (list Complex)) :=
  imap (fun i v_values => SubtractMean (delete i ranks) cols v_values) ranks.

(** Sum and mean of column [j] of a matrix of [n] rows of finite complex
    numbers, and the mean over the ranks of these means. *)
Definition column_sum (j : nat) (V : list (list (R * R))) : C :=
  Csum (column j V).
Definition column_mean (j n : nat) (V : list (list (R * R))) : C :=
  Cdivr (column_sum j V) (INR n).
Definition global_column_mean (j n : nat) (ranks : list (list (list (R * R))))
  : C :=
  Cdivr (Csum (map (column_mean j n) ranks)) (INR (length ranks)).

(** A matrix of [n] rows and [cols] columns. *)
Definition shaped {A} (n cols : nat) (V : list (list A)) : Prop :=
  length V = n /\ Forall (fun row => length row = cols) V.

(** Whether a call returned normally. *)
Definition returned {A} (o : outcome A) : bool :=
  match o with Return _ => true | _ => false end.

(** The acceptance counters of a sampler hold the finite numbers [a0], [a1]
    (accepted moves of each kind) and [m0], [m1] (attempted moves). *)
Definition counters {rng LookupType : Type} (a0 a1 m0 m1 : R)
    (st : MetropolisGlobal.state rng LookupType) : Prop :=
  MetropolisGlobal.accept_ st = [Fin a0; Fin a1] /\
  MetropolisGlobal.moves_ st = [Fin m0; Fin m1].

(** How the counters move over [k] attempts: [k] more attempts in total and,
    for each kind of move, a number of newly accepted moves between zero and
    the number of new attempts of that kind. *)
Definition counters_advance (k a0 a1 m0 m1 a0' a1' m0' m1' : R) : Prop :=
  (m0' + m1' = m0 + m1 + k /\
   0 <= a0' - a0 <= m0' - m0 /\ 0 <= a1' - a1 <= m1' - m1)%R.

(** An acceptance rate computed from [a] accepted moves out of [m]:
    not-a-number when nothing was attempted, and the quotient, between zero
    and one, otherwise. *)
Definition acceptance_rate (a m : R) (x : double) : Prop :=
  (m = 0%R /\ x = NaN) \/
  ((0 < m)%R /\ x = Fin (a / m) /\ (0 <= a / m <= 1)%R).

(** The factorial, as an integer. *)
Fixpoint factorial (n : nat) : Z :=
  match n with
  | O => 1
  | S m => Z.of_nat n * factorial m
  end.

(* ================================================================== *)
(** * Part II: properties                                               *)
(* ================================================================== *)

(** ** Finite arithmetic *)

Lemma Rltb_true (x y : R) : (x < y)%R -> Rltb x y = true.
Proof. intros H. unfold Rltb. destruct (Rlt_dec x y); [done | contradiction]. Qed.

Lemma Rltb_false (x y : R) : (y <= x)%R -> Rltb x y = false.
Proof. intros H. unfold Rltb. destruct (Rlt_dec x y); [lra | done]. Qed.

Lemma Reqb_true (x y : R) : x = y -> Reqb x y = true.
Proof. intros H. unfold Reqb. destruct (Req_EM_T x y); [done | contradiction]. Qed.

Lemma Reqb_false (x y : R) : x <> y -> Reqb x y = false.
Proof. intros H. unfold Reqb. destruct (Req_EM_T x y); [contradiction | done]. Qed.

Lemma ddiv_fin (a b : R) : b <> 0%R -> ddiv (Fin a) (Fin b) = Fin (a / b).
Proof. intros H. simpl. by rewrite Reqb_false. Qed.

Lemma dadd_fin (a b : R) : dadd (Fin a) (Fin b) = Fin (a + b).
Proof. reflexivity. Qed.

Lemma dsub_fin (a b : R) : dsub (Fin a) (Fin b) = Fin (a - b).
Proof. reflexivity. Qed.

Lemma dmul_fin (a b : R) : dmul (Fin a) (Fin b) = Fin (a * b).
Proof. reflexivity. Qed.

Lemma dsqrt_fin (a : R) : (0 <= a)%R -> dsqrt (Fin a) = Fin (sqrt a).
Proof. intros H. simpl. by rewrite Rltb_false. Qed.

Lemma IZR_pos_neq0 (n : Z) : 0 < n -> IZR n <> 0%R.
Proof. intros H. apply not_0_IZR. lia. Qed.

(** ** The Welford accumulator *)

Lemma tracks_length k mu M2 Ss Qs :
  tracks k mu M2 Ss Qs ->
  length mu = length Ss /\ length M2 = length Ss /\ length Qs = length Ss.
Proof. induction 1; simpl; lia. Qed.

Lemma tracks_construct (w : nat) :
  tracks 0 (replicate w (Fin 0)) (replicate w (Fin 0))
           (replicate w 0%R) (replicate w 0%R).
Proof. induction w; simpl; constructor; auto; lra. Qed.

Lemma kernel_fin (n : Z) (m q x : R) :
  0 < n ->
  detail.kernel n (Fin m) (Fin q) (Fin x) =
  (Fin (m + (x - m) / IZR n),
   Fin (q + (x - m) * (x - (m + (x - m) / IZR n)))).
Proof.
  intros Hn. unfold detail.kernel, to_double. cbv zeta.
  rewrite dsub_fin, ddiv_fin by (by apply IZR_pos_neq0).
  by rewrite dadd_fin, dsub_fin, dmul_fin, dadd_fin.
Qed.

Lemma tracks_step (k : Z) mu M2 Ss Qs (xs : list R) :
  0 <= k -> tracks (IZR k) mu M2 Ss Qs -> length xs = length Ss ->
  exists mu' M2',
    detail.kernel_loop (k + 1) mu M2 (map Fin xs) = (mu', M2') /\
    tracks (IZR (k + 1)) mu' M2'
           (zip_with Rplus Ss xs) (zip_with (fun q x => q + x * x)%R Qs xs).
Proof.
  intros Hk Ht. revert xs. induction Ht; intros xs Hlen.
  - destruct xs; [|done]. exists [], []. split; [done | constructor].
  - destruct xs as [|x xs]; [done|]. simpl in Hlen.
    destruct (IHHt xs) as (mu' & M2' & Hloop & Ht'); [lia|].
    cbn [map detail.kernel_loop]. rewrite kernel_fin by lia. rewrite Hloop.
    eexists _, _. split; [reflexivity|]. simpl.
    assert (Hk1 : IZR (k + 1) = (IZR k + 1)%R) by (rewrite plus_IZR; done).
    assert (Hpos : (0 <= IZR k)%R) by (apply IZR_le; lia).
    constructor; [| | done].
    + rewrite Hk1. subst s. field. lra.
    + rewrite Hk1. subst s q. field. lra.
Qed.

Lemma tracks_rows (rows : list (list R)) :
  forall (k : Z) acc Ss Qs,
    0 <= k -> detail.n_ acc = k ->
    tracks (IZR k) (detail.mu_ acc) (detail.M2_ acc) Ss Qs ->
    Forall (fun row => length row = length Ss) rows ->
    let acc' := foldl detail.call acc (map (map Fin) rows) in
    detail.n_ acc' = k + Z.of_nat (length rows) /\
    tracks (IZR (k + Z.of_nat (length rows))) (detail.mu_ acc') (detail.M2_ acc')
           (foldl (zip_with Rplus) Ss rows)
           (foldl (zip_with (fun q x => q + x * x)%R) Qs rows).
Proof.
  induction rows as [|row rows IH]; intros k acc Ss Qs Hk Hn Ht Hlen.
  - simpl. rewrite Z.add_0_r. done.
  - apply Forall_cons in Hlen as [Hrow Hrows].
    destruct (tracks_step k _ _ _ _ row Hk Ht Hrow) as (mu' & M2' & Hloop & Ht').
    cbn [map foldl length].
    assert (Hcall : detail.call acc (map Fin row) =
                    detail.mkAcc mu' M2' (k + 1)).
    { unfold detail.call. by rewrite Hn, Hloop. }
    replace (k + Z.of_nat (S (length rows))) with (k + 1 + Z.of_nat (length rows)) by lia.
    apply IH; rewrite ?Hcall; simpl; [lia | done | done |].
    rewrite length_zip_with. eapply Forall_impl; [exact Hrows|].
    simpl. intros r Hr. lia.
Qed.

Lemma foldl_zip_with_columns (f : R -> R) (w : nat) (rows : list (list R)) :
  forall Ss : list R,
    length Ss = w -> Forall (fun row => length row = w) rows ->
    foldl (zip_with (fun s x => s + f x)%R) Ss rows =
    map (fun j => (Ss !!! j + Rsum (map f (column j rows)))%R) (seq 0 w).
Proof.
  induction rows as [|row rows IH]; intros Ss HS Hrows.
  - simpl. apply list_eq. intros i.
    rewrite list_lookup_fmap. destruct (decide (i < w)%nat) as [Hi|Hi].
    + rewrite lookup_seq_lt by done. simpl.
      destruct (lookup_lt_is_Some_2 Ss i) as [x Hx]; [lia|].
      rewrite (list_lookup_total_correct _ _ _ Hx), Hx. f_equal. lra.
    + rewrite lookup_seq_ge by lia. simpl. apply lookup_ge_None_2. lia.
  - apply Forall_cons in Hrows as [Hrow Hrows]. cbn [foldl].
    rewrite IH; [| rewrite length_zip_with; lia | done].
    apply map_ext_in. intros j Hj. apply in_seq in Hj.
    destruct (lookup_lt_is_Some_2 Ss j) as [s Hs]; [lia|].
    destruct (lookup_lt_is_Some_2 row j) as [x Hx]; [lia|].
    assert (Hz : zip_with (fun s x => s + f x)%R Ss row !! j = Some (s + f x)%R).
    { rewrite lookup_zip_with, Hs. simpl. by rewrite Hx. }
    rewrite (list_lookup_total_correct _ _ _ Hz).
    rewrite (list_lookup_total_correct _ _ _ Hs).
    unfold column, Rsum. cbn [map foldr].
    assert (row !!! j = x) as -> by (by apply list_lookup_total_correct).
    lra.
Qed.

Lemma lookup_total_replicate_0 (w j : nat) : (replicate w 0%R) !!! j = 0%R.
Proof.
  destruct (decide (j < w)%nat).
  - apply list_lookup_total_correct. by apply lookup_replicate_2.
  - rewrite list_lookup_total_alt.
    assert (replicate w 0%R !! j = None) as ->; [|done].
    apply lookup_replicate_None. lia.
Qed.

Lemma tracks_values (k : R) (f g : nat -> R) (js : list nat) mu M2 :
  k <> 0%R ->
  tracks k mu M2 (map f js) (map g js) ->
  mu = map (fun j => Fin (f j / k)) js /\
  M2 = map (fun j => Fin (g j - f j * f j / k)) js.
Proof.
  intros Hk. revert mu M2. induction js as [|j js IH]; intros mu M2 Ht.
  - inversion Ht. done.
  - inversion Ht as [|m q s ss mu' M2' Ss Qs Hs Hq Ht']; subst.
    destruct (IH _ _ Ht') as [-> ->]. simpl. split; do 2 f_equal.
    + rewrite <- Hs. field. done.
    + rewrite <- Hs. field. done.
Qed.

Lemma length_column {A} `{Inhabited A} (j : nat) (rows : list (list A)) :
  length (column j rows) = length rows.
Proof. unfold column. by rewrite length_map. Qed.

(** What the accumulator leaves in its two spans after a list of finite rows:
    not-a-number everywhere after no row, the column means and not-a-number
    variances after one row, the column means and two-pass variances
    otherwise. *)
Lemma welford_finite (w : nat) (rows : list (list R)) :
  Forall (fun row => length row = w) rows ->
  welford w (map (map Fin) rows) =
  match length rows with
  | O => (replicate w NaN, replicate w NaN)
  | S O => (map (fun j => Fin (Rmean (column j rows))) (seq 0 w),
            replicate w NaN)
  | _ => (map (fun j => Fin (Rmean (column j rows))) (seq 0 w),
          map (fun j => Fin (Rvariance (column j rows))) (seq 0 w))
  end.
Proof.
  intros Hrows.
  destruct (tracks_rows rows 0 (detail.construct w)
              (replicate w 0%R) (replicate w 0%R)) as [Hn Ht];
    [lia | done | apply tracks_construct
    | by rewrite length_replicate |].
  rewrite Z.add_0_l in Hn, Ht.
  change (zip_with Rplus) with (zip_with (fun s x => s + (fun y => y) x)%R) in Ht.
  change (zip_with (fun q x => q + x * x)%R)
    with (zip_with (fun s x => s + (fun y => y * y) x)%R) in Ht.
  rewrite !(foldl_zip_with_columns _ w) in Ht
    by (done || by rewrite length_replicate).
  unfold welford, detail.destruct_.
  set (acc := foldl detail.call (detail.construct w) (map (map Fin) rows)) in *.
  rewrite Hn.
  destruct rows as [|r0 rows'] eqn:Erows.
  { simpl. subst acc. simpl. by rewrite !length_replicate. }
  rewrite <- Erows in *.
  assert (Hlen : (1 <= length rows)%nat) by (rewrite Erows; simpl; lia).
  assert (Hk : IZR (Z.of_nat (length rows)) <> 0%R) by (apply IZR_pos_neq0; lia).
  apply tracks_values in Ht as [Hmu HM2]; [|done].
  replace (Z.of_nat (length rows) =? 0) with false by (symmetry; apply Z.eqb_neq; lia).
  assert (Hmean : map (fun j => Fin ((replicate w 0%R !!! j +
                     Rsum (map (fun y => y) (column j rows))) /
                       IZR (Z.of_nat (length rows)))) (seq 0 w) =
                  map (fun j => Fin (Rmean (column j rows))) (seq 0 w)).
  { apply map_ext. intros j. unfold Rmean.
    rewrite lookup_total_replicate_0, map_id, length_column, INR_IZR_INZ.
    f_equal. field. done. }
  rewrite Hmean in Hmu.
  destruct (decide (length rows = 1%nat)) as [H1|H1].
  - rewrite H1. simpl (_ =? _). cbv iota. rewrite Hmu. f_equal.
    rewrite HM2, length_map, length_seq. done.
  - replace (Z.of_nat (length rows) =? 1) with false by (symmetry; apply Z.eqb_neq; lia).
    destruct (length rows) as [|[|n]] eqn:En; [lia | lia |].
    rewrite Hmu. f_equal. rewrite HM2, map_map. apply map_ext. intros j.
    unfold to_double. rewrite ddiv_fin, dmul_fin by done. f_equal.
    unfold Rvariance, Rmean.
    rewrite lookup_total_replicate_0, map_id, length_map, length_column, En.
    rewrite INR_IZR_INZ. field. done.
Qed.

(** ** [StatisticsLocal] *)

(** The in-place loop reads entries [2 i] and [2 i + 1] before any write
    reaches them. *)
Lemma merge_variances_prefix (var : list double) (t : nat) :
  (2 * t <= length var)%nat ->
  merge_variances t var =
  map (fun c => dadd (var !!! (2 * c)%nat) (var !!! (2 * c + 1)%nat)) (seq 0 t)
  ++ drop t var.
Proof.
  unfold merge_variances. induction t as [|t IH]; intros Hlen.
  - simpl. by rewrite drop_0.
  - rewrite seq_S, foldl_snoc, IH by lia. change (0 + t)%nat with t.
    set (f := fun c => dadd (var !!! (2 * c)%nat) (var !!! (2 * c + 1)%nat)).
    assert (Hl : length (map f (seq 0 t)) = t) by (by rewrite length_map, length_seq).
    rewrite !lookup_total_app_r by (rewrite Hl; lia).
    rewrite !lookup_total_drop, Hl.
    replace (t + (2 * t - t))%nat with (2 * t)%nat by lia.
    replace (t + (2 * t + 1 - t))%nat with (2 * t + 1)%nat by lia.
    fold (f t).
    rewrite (insert_app_r_alt (map f (seq 0 t))) by (rewrite Hl; lia).
    rewrite Hl, Nat.sub_diag.
    destruct (lookup_lt_is_Some_2 var t) as [x Hx]; [lia|].
    rewrite (drop_S _ _ _ Hx). simpl.
    rewrite map_app. simpl. by rewrite <- app_assoc.
Qed.

Lemma take_merge_variances (var : list double) (chains : nat) :
  length var = (2 * chains)%nat ->
  take chains (merge_variances chains var) =
  map (fun c => dadd (var !!! (2 * c)%nat) (var !!! (2 * c + 1)%nat))
      (seq 0 chains).
Proof.
  intros Hlen. rewrite merge_variances_prefix by lia.
  apply take_app_length'. by rewrite length_map, length_seq.
Qed.

Lemma as_doubles_app (l k : list Complex) :
  as_doubles (l ++ k) = as_doubles l ++ as_doubles k.
Proof. unfold as_doubles. by rewrite !flat_map_app. Qed.

Lemma length_as_doubles (l : list Complex) :
  length (as_doubles l) = (2 * length l)%nat.
Proof. induction l; simpl in *; lia. Qed.

Lemma as_doubles_take (w : nat) (l : list Complex) :
  take (2 * w) (as_doubles l) = as_doubles (take w l).
Proof.
  revert l. induction w as [|w IH]; intros l; [done|].
  destruct l as [|z l]; [done|].
  replace (2 * S w)%nat with (S (S (2 * w))) by lia. simpl.
  do 2 f_equal. apply IH.
Qed.

Lemma as_doubles_drop (w : nat) (l : list Complex) :
  drop (2 * w) (as_doubles l) = as_doubles (drop w l).
Proof.
  revert l. induction w as [|w IH]; intros l; [done|].
  destruct l as [|z l]; [done|].
  replace (2 * S w)%nat with (S (S (2 * w))) by lia. simpl. apply IH.
Qed.

(** The pointer walk of [StatisticsLocal] visits the rows of the reshaped
    buffer. *)
Lemma accumulate_reshape (M n : nat) (values : list Complex) :
  forall acc,
    accumulate acc (as_doubles values) (2 * M) n =
    foldl detail.call acc (map as_doubles (reshape n M values)).
Proof.
  revert values. induction n as [|n IH]; intros values acc; [done|].
  cbn [accumulate reshape map foldl].
  by rewrite as_doubles_take, as_doubles_drop, IH.
Qed.

Lemma as_doubles_Cfin (row : list (R * R)) :
  as_doubles (map Cfin row) = map Fin (Rdoubles row).
Proof. induction row as [|z row IH]; [done|]. simpl. by rewrite IH. Qed.

Lemma length_Rdoubles (row : list (R * R)) :
  length (Rdoubles row) = (2 * length row)%nat.
Proof. induction row; simpl in *; lia. Qed.

Lemma reshape_map {A B} (f : A -> B) (n M : nat) (l : list A) :
  reshape n M (map f l) = map (map f) (reshape n M l).
Proof.
  revert l. induction n as [|n IH]; intros l; [done|].
  simpl. change (map f) with (fmap (M:=list) f).
  by rewrite <- fmap_take, <- fmap_drop, IH.
Qed.

Lemma length_reshape {A} (n M : nat) (l : list A) : length (reshape n M l) = n.
Proof. revert l. induction n; intros l; simpl; [done | by f_equal]. Qed.

Lemma reshape_rows {A} (n M : nat) (l : list A) :
  length l = (n * M)%nat ->
  Forall (fun row => length row = M) (reshape n M l).
Proof.
  revert l. induction n as [|n IH]; intros l Hl; simpl; constructor.
  - rewrite length_take. lia.
  - apply IH. rewrite length_drop. lia.
Qed.

Lemma lookup_total_Rdoubles (row : list (R * R)) (c : nat) :
  (c < length row)%nat ->
  Rdoubles row !!! (2 * c)%nat = (row !!! c).1 /\
  Rdoubles row !!! (2 * c + 1)%nat = (row !!! c).2.
Proof.
  revert c. induction row as [|z row IH]; intros c Hc; [simpl in Hc; lia|].
  destruct c as [|c]; [done|].
  replace (2 * S c)%nat with (S (S (2 * c))) by lia.
  simpl in Hc. destruct (IH c) as [H1 H2]; [lia|]. split; [exact H1 | exact H2].
Qed.

Lemma column_Rdoubles (rows : list (list (R * R))) (M c : nat) :
  Forall (fun row => length row = M) rows -> (c < M)%nat ->
  column (2 * c) (map Rdoubles rows) = map fst (column c rows) /\
  column (2 * c + 1) (map Rdoubles rows) = map snd (column c rows).
Proof.
  intros Hrows Hc. unfold column. rewrite !map_map.
  split; apply Forall_fmap_ext_1; (eapply Forall_impl; [exact Hrows|]);
    simpl; intros row Hrow; apply lookup_total_Rdoubles; lia.
Qed.

Lemma as_complex_pairs (p : list double) (M : nat) :
  length p = (2 * M)%nat ->
  as_complex p =
  map (fun c => mkComplex (p !!! (2 * c)%nat) (p !!! (2 * c + 1)%nat)) (seq 0 M).
Proof.
  revert p. induction M as [|M IH]; intros p Hp.
  - by destruct p.
  - destruct p as [|re [|im p]]; simpl in Hp; [lia | lia |].
    cbn [as_complex seq map]. f_equal.
    rewrite (IH p) by lia. rewrite <- seq_shift, map_map.
    apply map_ext. intros c.
    replace (2 * S c)%nat with (S (S (2 * c))) by lia. done.
Qed.

Lemma lookup_total_map_seq {A} `{Inhabited A} (F : nat -> A) (w j : nat) :
  (j < w)%nat -> map F (seq 0 w) !!! j = F j.
Proof.
  intros Hj. apply list_lookup_total_correct.
  change (map F) with (fmap (M:=list) F).
  rewrite list_lookup_fmap, lookup_seq_lt by done. done.
Qed.

Lemma lookup_total_replicate_NaN (w j : nat) : (replicate w NaN) !!! j = NaN.
Proof.
  destruct (decide (j < w)%nat).
  - apply list_lookup_total_correct. by apply lookup_replicate_2.
  - rewrite list_lookup_total_alt.
    assert (replicate w NaN !! j = None) as ->; [|done].
    apply lookup_replicate_None. lia.
Qed.

(** [StatisticsLocal] on [n >= 1] rows of [M > 0] finite samples: the mean of
    every chain, and the two-pass variance of every chain (not-a-number when
    the chains hold a single sample). *)
Lemma StatisticsLocal_finite (n M : nat) (values : list (R * R)) :
  (0 < M)%nat -> (1 <= n)%nat -> length values = (n * M)%nat ->
  StatisticsLocal (map Cfin values) (Z.of_nat M) =
  Return (map (fun ch => Cfin (chain_mean ch)) (chains n M values),
          map (fun ch => if decide (n = 1%nat) then NaN
                         else Fin (chain_variance ch)) (chains n M values)).
Proof.
  intros HM Hn Hlen. unfold StatisticsLocal.
  rewrite length_map, Hlen, Nat2Z.inj_mul.
  assert (HMz : Z.of_nat M <> 0) by lia.
  rewrite Z.rem_mul, Z.quot_mul by done.
  replace (0 <? Z.of_nat M) with true by (symmetry; apply Z.ltb_lt; lia).
  rewrite !Nat2Z.id. simpl NETKET_CHECK. cbn [bind].
  rewrite accumulate_reshape, reshape_map, map_map.
  rewrite (map_ext _ (fun row => map Fin (Rdoubles row)))
    by (intros row; apply as_doubles_Cfin).
  rewrite <- (map_map Rdoubles (map Fin)).
  change (detail.destruct_ (foldl detail.call (detail.construct (2 * M)) ?rows))
    with (welford (2 * M) rows).
  set (rows := reshape n M values).
  assert (Hrows : Forall (fun row => length row = M) rows)
    by (by apply reshape_rows).
  rewrite welford_finite; cycle 1.
  { apply Forall_fmap. eapply Forall_impl; [exact Hrows|].
    simpl. intros row Hrow. rewrite length_Rdoubles. lia. }
  rewrite length_map. unfold rows at 1 2. rewrite length_reshape.
  unfold chains. fold rows. rewrite !map_map.
  assert (Hmeans :
    as_complex (map (fun j => Fin (Rmean (column j (map Rdoubles rows))))
                    (seq 0 (2 * M))) =
    map (fun c => Cfin (chain_mean (column c rows))) (seq 0 M)).
  { rewrite (as_complex_pairs _ M) by (by rewrite length_map, length_seq).
    apply map_ext_in. intros c Hc. apply in_seq in Hc.
    rewrite !lookup_total_map_seq by lia.
    destruct (column_Rdoubles rows M c) as [-> ->]; [done | lia |]. done. }
  destruct n as [|[|n]]; [lia | |].
  - rewrite Hmeans. do 2 f_equal.
    rewrite take_merge_variances by (by rewrite length_replicate).
    apply map_ext. intros c. by rewrite !lookup_total_replicate_NaN.
  - rewrite Hmeans. do 2 f_equal.
    rewrite take_merge_variances by (by rewrite length_map, length_seq).
    apply map_ext_in. intros c Hc. apply in_seq in Hc.
    rewrite !lookup_total_map_seq by lia.
    destruct (column_Rdoubles rows M c) as [-> ->]; [done | lia |].
    destruct (decide _); [lia | done].
Qed.

(** ** [Statistics] *)

Lemma Rsum_app (l k : list R) : Rsum (l ++ k) = (Rsum l + Rsum k)%R.
Proof. induction l as [|x l IH]; simpl; [lra | rewrite IH; lra]. Qed.

Lemma Rsum_concat (ls : list (list R)) : Rsum (concat ls) = Rsum (map Rsum ls).
Proof. induction ls as [|l ls IH]; simpl; [done | by rewrite Rsum_app, IH]. Qed.

Lemma dsum_fin (l : list R) : dsum (map Fin l) = Fin (Rsum l).
Proof. induction l as [|x l IH]; [done|]. simpl. by rewrite IH. Qed.

Lemma csum_fin (l : list (R * R)) : csum (map Cfin l) = Cfin (Csum l).
Proof.
  induction l as [|z l IH]; [done|]. simpl. rewrite IH. done.
Qed.

Lemma abs2_csub_fin (a b : R * R) :
  abs2 (csub (Cfin a) (Cfin b)) = Fin (sqdist a b).
Proof. reflexivity. Qed.

Lemma cdivr_fin (a : R * R) (d : R) :
  d <> 0%R -> cdivr (Cfin a) (Fin d) = Cfin ((a.1 / d)%R, (a.2 / d)%R).
Proof. intros Hd. unfold cdivr, Cfin. simpl real. simpl imag. by rewrite !ddiv_fin. Qed.

Lemma length_chains (n M : nat) (values : list (R * R)) :
  length (chains n M values) = M.
Proof. unfold chains. by rewrite length_map, length_seq. Qed.

Lemma length_all_chains (n M : nat) (ranks : list (list (R * R))) :
  length (all_chains n M ranks) = (length ranks * M)%nat.
Proof.
  unfold all_chains. induction ranks as [|r ranks IH]; [done|].
  simpl. rewrite length_app, length_chains, IH. done.
Qed.

Lemma Statistics_local_part_finite (n M : nat) (values : list (R * R)) :
  (0 < M)%nat -> (1 <= n)%nat -> length values = (n * M)%nat ->
  Statistics_local_part (map Cfin values) (Z.of_nat M) =
  Return (stats_local_of n M values).
Proof.
  intros HM Hn Hlen. unfold Statistics_local_part.
  rewrite length_map, Hlen.
  replace (Z.of_nat M <=? Z.of_nat (n * M)) with true
    by (symmetry; apply Z.leb_le; nia).
  simpl. by apply StatisticsLocal_finite.
Qed.

Lemma peers_local_part_finite (n M : nat) (others : list (list (R * R))) :
  (0 < M)%nat -> (1 <= n)%nat ->
  Forall (fun values => length values = (n * M)%nat) others ->
  peers_local_part (map (map Cfin) others) (Z.of_nat M) =
  Some (map (stats_local_of n M) others).
Proof.
  intros HM Hn. induction 1 as [|values others Hlen _ IH]; [done|].
  cbn [map peers_local_part].
  by rewrite (Statistics_local_part_finite n), IH.
Qed.

Lemma Csum_concat_map {A} (F : A -> list (R * R)) (xs : list A) :
  Csum (concat (map F xs)) = Csum (map (fun x => Csum (F x)) xs).
Proof.
  induction xs as [|x xs IH]; [done|].
  unfold Csum in *. cbn [map concat fst snd Rsum foldr].
  rewrite !map_app, !Rsum_app.
  injection IH as IH1 IH2. unfold Rsum in *. by rewrite IH1, IH2.
Qed.

(** The first collective: the local sums of chain means add up to the sum over
    all chains. *)
Lemma allreduce_means (n M : nat) (values : list (R * R)) others :
  cadd (csum (stats_local_of n M values).1)
       (csum (map (fun s => csum s.1) (map (stats_local_of n M) others))) =
  Cfin (Csum (map chain_mean (all_chains n M (values :: others)))).
Proof.
  unfold all_chains. cbn [map concat].
  assert (Hrank : forall vs, csum (stats_local_of n M vs).1 =
                             Cfin (Csum (map chain_mean (chains n M vs)))).
  { intros vs. unfold stats_local_of. cbn [fst].
    rewrite <- csum_fin, map_map. done. }
  rewrite Hrank, map_map.
  rewrite (map_ext _ (fun vs => Cfin (Csum (map chain_mean (chains n M vs)))))
    by (intros vs; apply Hrank).
  rewrite <- (map_map (fun vs => Csum (map chain_mean (chains n M vs))) Cfin).
  rewrite csum_fin.
  rewrite map_app, concat_map, map_map.
  rewrite <- (Csum_concat_map (fun vs => map chain_mean (chains n M vs))).
  unfold cadd, Cfin, Csum. cbn [real imag fst snd].
  by rewrite !dadd_fin, !map_app, !Rsum_app.
Qed.

(** The second collective, for one of the two real sums: local sums of a
    finite per-chain quantity add up to the sum over all chains. *)
Lemma allreduce_fin (g : list (R * R) -> R) (n M : nat)
    (loc : list Complex * list double -> double) values others :
  (forall vs, loc (stats_local_of n M vs) = Fin (Rsum (map g (chains n M vs)))) ->
  dadd (loc (stats_local_of n M values))
       (dsum (map loc (map (stats_local_of n M) others))) =
  Fin (Rsum (map g (all_chains n M (values :: others)))).
Proof.
  intros Hloc. rewrite Hloc, map_map.
  rewrite (map_ext _ (fun vs => Fin (Rsum (map g (chains n M vs)))))
    by (intros vs; apply Hloc).
  rewrite <- (map_map (fun vs => Rsum (map g (chains n M vs))) Fin), dsum_fin.
  rewrite dadd_fin. f_equal. unfold all_chains. cbn [map concat].
  rewrite map_app, Rsum_app. f_equal.
  rewrite concat_map, Rsum_concat, !map_map. done.
Qed.

Lemma local_between (n M : nat) (mu : R * R) (vs : list (R * R)) :
  dsum (map (fun x => abs2 (csub x (Cfin mu))) (stats_local_of n M vs).1) =
  Fin (Rsum (map (fun ch => sqdist (chain_mean ch) mu) (chains n M vs))).
Proof.
  unfold stats_local_of. cbn [fst]. rewrite map_map.
  rewrite <- dsum_fin, map_map. done.
Qed.

Lemma local_within (n M : nat) (vs : list (R * R)) :
  (2 <= n)%nat ->
  dsum (stats_local_of n M vs).2 =
  Fin (Rsum (map chain_variance (chains n M vs))).
Proof.
  intros Hn. unfold stats_local_of. cbn [snd].
  destruct (decide (n = 1%nat)); [lia|].
  rewrite <- dsum_fin, map_map. done.
Qed.

Lemma Rsum_nonneg (l : list R) : Forall (fun x => 0 <= x)%R l -> (0 <= Rsum l)%R.
Proof. induction 1; simpl; lra. Qed.

Lemma sqdist_nonneg (a b : R * R) : (0 <= sqdist a b)%R.
Proof.
  unfold sqdist. generalize (a.1 - b.1)%R (a.2 - b.2)%R. intros u v. nra.
Qed.

Lemma between_chain_variance_nonneg (chs : list (list (R * R))) :
  (0 <= between_chain_variance chs)%R.
Proof.
  unfold between_chain_variance.
  destruct chs as [|c chs].
  { simpl. unfold Rdiv. rewrite Rinv_0. lra. }
  apply Rmult_le_pos.
  - apply Rsum_nonneg, Forall_fmap, Forall_forall. intros ch _. apply sqdist_nonneg.
  - left. apply Rinv_0_lt_compat, lt_0_INR. simpl. lia.
Qed.

(** Cauchy-Schwarz against the constant vector: [(sum x)^2 <= n * sum x^2]. *)
Lemma Rsum_cons (x : R) (l : list R) : Rsum (x :: l) = (x + Rsum l)%R.
Proof. reflexivity. Qed.

Lemma Rsum_cross (x : R) (l : list R) :
  (2 * x * Rsum l <= INR (length l) * (x * x) + Rsum (map (fun y => y * y) l))%R.
Proof.
  induction l as [|y l IH]; [simpl; lra|].
  rewrite length_cons, S_INR. cbn [map]. rewrite !Rsum_cons.
  pose proof (Rle_0_sqr (x - y)) as Hsq. unfold Rsqr in Hsq. lra.
Qed.

Lemma Rsum_square_le (l : list R) :
  (Rsum l * Rsum l <= INR (length l) * Rsum (map (fun y => y * y) l))%R.
Proof.
  induction l as [|x l IH]; [simpl; lra|].
  pose proof (Rsum_cross x l) as Hc.
  rewrite length_cons, S_INR. cbn [map]. rewrite !Rsum_cons. lra.
Qed.

Lemma Rvariance_nonneg (l : list R) : (0 <= Rvariance l)%R.
Proof.
  unfold Rvariance, Rmean. rewrite length_map.
  destruct l as [|x l].
  { simpl. unfold Rdiv. rewrite Rinv_0. lra. }
  pose proof (Rsum_square_le (x :: l)) as H.
  assert (Hn : (0 < INR (length (x :: l)))%R) by (apply lt_0_INR; simpl; lia).
  set (n := INR (length (x :: l))) in *.
  set (s := Rsum (x :: l)) in *. set (q := Rsum (map (fun y => (y * y)%R) (x :: l))) in *.
  assert (Heq : (q / n - s / n * (s / n) = (n * q - s * s) / (n * n))%R)
    by (field; lra).
  rewrite Heq. apply Rmult_le_pos; [lra|].
  left. apply Rinv_0_lt_compat. nra.
Qed.

Lemma within_chain_variance_nonneg (chs : list (list (R * R))) :
  (0 <= within_chain_variance chs)%R.
Proof.
  unfold within_chain_variance.
  destruct chs as [|c chs].
  { simpl. unfold Rdiv. rewrite Rinv_0. lra. }
  apply Rmult_le_pos.
  - apply Rsum_nonneg, Forall_fmap, Forall_forall. intros ch _.
    unfold chain_variance.
    pose proof (Rvariance_nonneg (map fst ch)).
    pose proof (Rvariance_nonneg (map snd ch)). simpl. lra.
  - left. apply Rinv_0_lt_compat, lt_0_INR. simpl. lia.
Qed.

Lemma Rfloor_spec (r : R) : (IZR (Rfloor r) <= r < IZR (Rfloor r) + 1)%R.
Proof.
  unfold Rfloor. rewrite minus_IZR. destruct (archimed r). lra.
Qed.

Lemma Rfloor_unique (z : Z) (r : R) :
  (IZR z <= r < IZR z + 1)%R -> Rfloor r = z.
Proof.
  intros [H1 H2]. destruct (Rfloor_spec r) as [H3 H4].
  assert (Rfloor r < z + 1) by (apply lt_IZR; rewrite plus_IZR; lra).
  assert (z < Rfloor r + 1) by (apply lt_IZR; rewrite plus_IZR; lra).
  lia.
Qed.

Lemma Rfloor_nonneg (r : R) : (0 <= r)%R -> 0 <= Rfloor r.
Proof.
  intros Hr. destruct (Rfloor_spec r) as [_ H].
  assert (-1 < Rfloor r) by (apply lt_IZR; lra). lia.
Qed.

(** Clamping at zero before rounding is the maximum of zero and the rounded
    value. *)
Lemma Rround_clamp (c : R) :
  IZR (Rround (if Rltb c 0 then 0 else c)) = Rmax 0 (IZR (Rround c)).
Proof.
  unfold Rltb at 1. destruct (Rlt_dec c 0) as [Hc|Hc].
  - unfold Rround. rewrite Rltb_false by lra. rewrite Rltb_true by done.
    rewrite (Rfloor_unique 0 (0 + / 2)) by lra.
    pose proof (Rfloor_nonneg (- c + / 2)) as H.
    rewrite Rmax_left; [done|].
    rewrite opp_IZR. apply IZR_le in H; lra.
  - unfold Rround. rewrite Rltb_false by lra.
    rewrite Rmax_right; [done|].
    apply IZR_le, Rfloor_nonneg. lra.
Qed.

(** [Statistics] on [m > 1] chains of [n >= 2] finite samples, with the last
    divisions and the clamp as the code evaluates them: [B / W] is infinite
    or not-a-number when [W] is zero. *)
Lemma Statistics_finite (n M : nat) (values : list (R * R))
    (others : list (list (R * R))) :
  let chs := all_chains n M (values :: others) in
  let m := INR (length chs) in
  let B := between_chain_variance chs in
  let W := within_chain_variance chs in
  (2 <= n)%nat -> (0 < M)%nat ->
  Forall (fun vs => length vs = (n * M)%nat) (values :: others) ->
  (1 < length chs)%nat ->
  Statistics (map (map Cfin) others) (map Cfin values) (Z.of_nat M) =
  let t := ddiv (Fin B) (Fin W) in
  let correlation := dmul (Fin (/ 2)) (dsub (dmul t (Fin (INR n))) (Fin 1)) in
  Return {| mean := Cfin (global_mean chs);
            error_of_mean := Fin (sqrt (B / m));
            variance := Fin W;
            correlation :=
              dround (if dlt correlation (Fin 0) then Fin 0 else correlation);
            R_ := dsqrt (dadd (Fin ((INR n - 1) / INR n)) t) |}.
Proof.
  intros chs m B W Hn HM Hlen Hm.
  apply Forall_cons in Hlen as [Hvalues Hothers].
  unfold Statistics.
  rewrite (Statistics_local_part_finite n), (peers_local_part_finite n)
    by (done || lia).
  cbn [bind].
  rewrite !length_map, Hvalues, (Nat2Z.inj_mul n M), Z.quot_mul by lia.
  assert (Hlenchs : length chs = (S (length others) * M)%nat)
    by (unfold chs; by rewrite length_all_chains).
  replace (Z.of_nat (S (length others)) * Z.of_nat M)
    with (Z.of_nat (length chs)) by (rewrite Hlenchs; lia).
  assert (Hm0 : m <> 0%R) by (apply not_0_INR; lia).
  rewrite allreduce_means. fold chs.
  unfold to_double. rewrite <- !INR_IZR_INZ. fold m.
  rewrite cdivr_fin by done. fold (global_mean chs).
  replace (Z.of_nat (length chs) =? 1) with false
    by (symmetry; apply Z.eqb_neq; lia).
  cbn [fst snd].
  rewrite (allreduce_fin (fun ch => sqdist (chain_mean ch) (global_mean chs)) n M
             (fun s => dsum (map (fun x => abs2 (csub x (Cfin (global_mean chs)))) s.1)))
    by (intros vs; apply local_between).
  rewrite (allreduce_fin chain_variance n M (fun s => dsum s.2))
    by (intros vs; by apply local_within).
  fold chs. rewrite !(ddiv_fin _ m) by done.
  change (Rsum (map (fun ch => sqdist (chain_mean ch) (global_mean chs)) chs) / m)%R
    with B.
  change (Rsum (map chain_variance chs) / m)%R with W.
  assert (HB : (0 <= B)%R) by apply between_chain_variance_nonneg.
  assert (Hnpos : (2 <= INR n)%R) by (apply (le_INR 2); lia).
  cbn [isnan negb andb].
  rewrite minus_IZR, <- INR_IZR_INZ, (ddiv_fin _ (INR n)) by lra.
  assert (Hm1 : (0 < m)%R) by (apply lt_0_INR; lia).
  assert (HBm : (0 <= B / m)%R).
  { apply Rmult_le_pos; [lra|]. left. by apply Rinv_0_lt_compat. }
  rewrite (dsqrt_fin (B / m)) by lra.
  reflexivity.
Qed.

(** C1 (amended).  In exact arithmetic, for [m > 1] chains of length
    [n >= 2] of finite samples whose mean within-chain variance [W] is not
    zero, [Statistics] returns the global mean, standard error
    [sqrt (B / m)], variance [W], autocorrelation time
    [max 0 (round (0.5 * (n * B / W - 1)))] and
    [R = sqrt ((n - 1) / n + B / W)].  In binary64 the four numbers carry the
    rounding of the operations that produce them, and the autocorrelation
    time, being rounded to an integer, can be the neighbouring integer when
    the exact value is within that rounding of a half
    ([Statistics_binary64_rounds_down]). *)
Theorem Statistics_several_chains (n M : nat) (values : list (R * R))
    (others : list (list (R * R))) :
  let chs := all_chains n M (values :: others) in
  let m := INR (length chs) in
  let B := between_chain_variance chs in
  let W := within_chain_variance chs in
  (2 <= n)%nat -> (0 < M)%nat ->
  Forall (fun vs => length vs = (n * M)%nat) (values :: others) ->
  (1 < length chs)%nat ->
  W <> 0%R ->
  Statistics (map (map Cfin) others) (map Cfin values) (Z.of_nat M) =
  Return {| mean := Cfin (global_mean chs);
            error_of_mean := Fin (sqrt (B / m));
            variance := Fin W;
            correlation :=
              Fin (Rmax 0 (IZR (Rround (/ 2 * (INR n * B / W - 1)))));
            R_ := Fin (sqrt ((INR n - 1) / INR n + B / W)) |}.
Proof.
  intros chs m B W Hn HM Hlen Hm HW.
  rewrite (Statistics_finite n M values others Hn HM Hlen Hm).
  fold chs B W. cbv zeta.
  assert (HB : (0 <= B)%R) by apply between_chain_variance_nonneg.
  assert (HWpos : (0 < W)%R).
  { pose proof (within_chain_variance_nonneg chs). fold W in H. lra. }
  assert (Hnpos : (2 <= INR n)%R) by (apply (le_INR 2); lia).
  rewrite ddiv_fin by done.
  rewrite !dmul_fin, !dsub_fin, !dmul_fin, dadd_fin. cbn [dlt].
  assert (Hfin : forall (b : bool) (x y : R),
             (if b then Fin x else Fin y) = Fin (if b then x else y))
    by (by intros []).
  rewrite Hfin. cbn [dround]. rewrite Rround_clamp.
  assert (HBW : (0 <= B / W)%R).
  { apply Rmult_le_pos; [lra|]. left. by apply Rinv_0_lt_compat. }
  assert (Hnn : (0 <= (INR n - 1) / INR n)%R).
  { apply Rmult_le_pos; [lra|]. left. apply Rinv_0_lt_compat. lra. }
  rewrite dsqrt_fin by lra.
  do 2 f_equal.
  replace (B / W * INR n)%R with (INR n * B / W)%R by (field; lra).
  done.
Qed.

(** When all samples are equal, [B = W = 0]: the standard error and the
    variance are zero, but [B / W] is not-a-number, and so are the
    autocorrelation time and [R]. *)
Lemma Statistics_constant_chains :
  let values := [(1, 0); (1, 0); (1, 0); (1, 0)]%R in
  exists mu,
    Statistics [] (map Cfin values) 2 =
    Return {| mean := mu; error_of_mean := Fin 0; variance := Fin 0;
              correlation := NaN; R_ := NaN |}.
Proof.
  intros values.
  pose proof (Statistics_finite 2 2 values []) as H. cbv zeta in H.
  assert (HB : between_chain_variance (all_chains 2 2 [values]) = 0%R).
  { unfold between_chain_variance, global_mean, all_chains, chains,
      chain_mean, sqdist, Csum, column, Rmean.
    cbn -[Rplus Rmult Rminus Rdiv INR].
    change (INR 2) with (1 + 1)%R. field. }
  assert (HW : within_chain_variance (all_chains 2 2 [values]) = 0%R).
  { unfold within_chain_variance, all_chains, chains, chain_variance,
      Rvariance, column, Rmean.
    cbn -[Rplus Rmult Rminus Rdiv INR].
    change (INR 2) with (1 + 1)%R. field. }
  rewrite HB, HW in H.
  change (Z.of_nat 2) with 2 in H.
  change (map (map Cfin) []) with (@nil (list Complex)) in H.
  rewrite H; [| lia | lia | by repeat constructor | simpl; lia].
  eexists. f_equal. f_equal.
  - f_equal. unfold Rdiv. rewrite Rmult_0_l. apply sqrt_0.
  - cbn [ddiv]. rewrite Reqb_true by done. reflexivity.
  - cbn [ddiv]. rewrite Reqb_true by done. reflexivity.
Qed.

Lemma StatisticsLocal_returns (values : list Complex) (number_chains : Z) :
  0 < number_chains ->
  Z.rem (Z.of_nat (length values)) number_chains = 0 ->
  exists r, StatisticsLocal values number_chains = Return r.
Proof.
  intros Hc Hrem. unfold StatisticsLocal.
  replace (0 <? number_chains) with true by (symmetry; by apply Z.ltb_lt).
  rewrite Hrem. simpl.
  destruct (detail.destruct_ _) as [mean var]. eauto.
Qed.

Lemma reshape_single_column {A} `{Inhabited A} (l : list A) :
  column 0 (reshape (length l) 1 l) = l.
Proof.
  induction l as [|x l IH]; [done|].
  cbn [length reshape column map]. unfold column in IH.
  change (drop 1 (x :: l)) with l. rewrite IH. done.
Qed.

(** C2.  With a single chain in total (one process, one chain per process)
    and at least one sample, [Statistics] returns a [Stats] whose standard
    error, variance, autocorrelation time and R are all not-a-number; for
    finite samples its mean is their average. *)
Theorem Statistics_single_chain (values : list Complex) :
  values <> [] ->
  exists mu,
    Statistics [] values 1 =
    Return {| mean := mu; error_of_mean := NaN; variance := NaN;
              correlation := NaN; R_ := NaN |} /\
    forall vs : list (R * R),
      values = map Cfin vs ->
      mu = Cfin (Rmean (map fst vs), Rmean (map snd vs)).
Proof.
  intros Hne.
  assert (Hlen : (1 <= length values)%nat) by (destruct values; [done | simpl; lia]).
  destruct (StatisticsLocal_returns values 1) as [r Hr];
    [lia | apply Z.rem_1_r |].
  exists (cdivr (cadd (csum r.1) (csum [])) (to_double 1)). split.
  - unfold Statistics, Statistics_local_part.
    replace (1 <=? Z.of_nat (length values)) with true
      by (symmetry; apply Z.leb_le; lia).
    simpl NETKET_CHECK. cbn [bind]. rewrite Hr. reflexivity.
  - intros vs ->. rewrite length_map in Hlen.
    pose proof (StatisticsLocal_finite (length vs) 1 vs
                  ltac:(lia) ltac:(lia) ltac:(lia)) as Hf.
    change (Z.of_nat 1) with 1 in Hf. rewrite Hf in Hr.
    injection Hr as <-. cbn [fst].
    rewrite reshape_single_column. unfold to_double. cbn [csum foldr].
    unfold cadd, czero, Cfin, chain_mean, cdivr. cbn [real imag fst snd].
    rewrite !dadd_fin, !ddiv_fin by lra. do 2 f_equal; field.
Qed.

Lemma Statistics_single_chain_witness :
  exists mu,
    Statistics [] [mkComplex (Fin 1) (Fin 0)] 1 =
    Return {| mean := mu; error_of_mean := NaN; variance := NaN;
              correlation := NaN; R_ := NaN |} /\
    forall vs : list (R * R),
      [mkComplex (Fin 1) (Fin 0)] = map Cfin vs ->
      mu = Cfin (Rmean (map fst vs), Rmean (map snd vs)).
Proof. apply (Statistics_single_chain [mkComplex (Fin 1) (Fin 0)]). discriminate. Defined.

(** C3.  For a positive chain count, [Statistics] throws [InvalidInputError]
    when the number of values is not a multiple of the chain count or is
    smaller than the chain count, and throws nothing otherwise. *)
Theorem Statistics_shape_errors (others : list (list Complex))
    (values : list Complex) (number_of_chains : Z) :
  0 < number_of_chains ->
  let size := Z.of_nat (length values) in
  (~ (number_of_chains | size) \/ size < number_of_chains ->
   Statistics others values number_of_chains = Throw InvalidInputError) /\
  ((number_of_chains | size) /\ number_of_chains <= size ->
   forall e, Statistics others values number_of_chains <> Throw e).
Proof.
  intros Hc size.
  assert (Hdiv : Z.rem size number_of_chains = 0 <-> (number_of_chains | size))
    by (apply Z.rem_divide; lia).
  split.
  - intros Hbad. unfold Statistics, Statistics_local_part. fold size.
    destruct (Z.leb_spec number_of_chains size) as [Hle|Hlt]; [|done].
    simpl NETKET_CHECK. cbn [bind]. unfold StatisticsLocal. fold size.
    replace (0 <? number_of_chains) with true by (symmetry; by apply Z.ltb_lt).
    simpl NETKET_CHECK. cbn [bind].
    destruct (Z.eqb_spec (Z.rem size number_of_chains) 0) as [Hrem|Hrem]; [|done].
    destruct Hbad as [Hbad|Hbad]; [|lia]. by apply Hdiv in Hrem.
  - intros [Hd Hle] e. unfold Statistics, Statistics_local_part. fold size.
    replace (number_of_chains <=? size) with true by (symmetry; by apply Z.leb_le).
    simpl NETKET_CHECK. cbn [bind].
    destruct (StatisticsLocal_returns values number_of_chains) as [r ->];
      [done | by apply Hdiv |].
    cbn [bind]. destruct (peers_local_part _ _); [|done].
    destruct (_ && _); done.
Qed.

Lemma Statistics_shape_errors_witness :
  (~ (2 | 3) \/ 3 < 2 ->
   Statistics [] (replicate 3 czero) 2 = Throw InvalidInputError) /\
  ((2 | 3) /\ 2 <= 3 ->
   forall e, Statistics [] (replicate 3 czero) 2 <> Throw e).
Proof. apply (Statistics_shape_errors [] (replicate 3 czero) 2). lia. Defined.

(** C4 (amended).  Fed with at least one row of finite samples, the
    accumulator leaves in its first span the arithmetic mean of every column;
    in its second span it leaves the two-pass population variance
    [mean(x^2) - mean(x)^2] of every column when it saw at least two rows, and
    not-a-number when it saw exactly one. *)
Theorem welford_two_pass (width : nat) (rows : list (list R)) :
  Forall (fun row => length row = width) rows ->
  (1 <= length rows)%nat ->
  (welford width (map (map Fin) rows)).1 =
    map (fun j => Fin (Rmean (column j rows))) (seq 0 width) /\
  (welford width (map (map Fin) rows)).2 =
    if decide (length rows = 1%nat) then replicate width NaN
    else map (fun j => Fin (Rvariance (column j rows))) (seq 0 width).
Proof.
  intros Hrows Hn. rewrite welford_finite by done.
  destruct (length rows) as [|[|n]]; [lia | done | done].
Qed.

Lemma welford_two_pass_witness :
  (welford 1 (map (map Fin) [[1%R]; [3%R]])).1 =
    map (fun j => Fin (Rmean (column j [[1%R]; [3%R]]))) (seq 0 1) /\
  (welford 1 (map (map Fin) [[1%R]; [3%R]])).2 =
    if decide (length [[1%R]; [3%R]] = 1%nat) then replicate 1 NaN
    else map (fun j => Fin (Rvariance (column j [[1%R]; [3%R]]))) (seq 0 1).
Proof.
  apply (welford_two_pass 1 [[1%R]; [3%R]]).
  - repeat constructor.
  - simpl. lia.
Defined.

(** C4, as stated, fails on a sequence of one sample: the accumulator reports
    a not-a-number variance where the two-pass formula gives zero. *)
Lemma welford_one_sample_counterexample :
  (welford 1 [[Fin 5]]).2 = [NaN] /\
  Rvariance [5%R] = 0%R /\
  (welford 1 [[Fin 5]]).2 <> [Fin (Rvariance [5%R])].
Proof.
  assert (H : (welford 1 [[Fin 5]]).2 = [NaN]).
  { change [[Fin 5]] with (map (map Fin) [[5%R]]).
    rewrite welford_finite by (repeat constructor). done. }
  split; [exact H|]. split.
  - unfold Rvariance, Rmean. simpl. field.
  - rewrite H. discriminate.
Qed.

Lemma dsum_all_NaN {A} (l : list A) :
  l <> [] -> dsum (map (fun _ => NaN) l) = NaN.
Proof. destruct l; [done | by intros _]. Qed.

(** With several chains of a single sample each, the in-chain variances are
    not-a-number, and so are all four diagnostics. *)
Lemma Statistics_one_sample_per_chain (M : nat) (values : list (R * R))
    (others : list (list (R * R))) :
  let chs := all_chains 1 M (values :: others) in
  (0 < M)%nat ->
  Forall (fun vs => length vs = (1 * M)%nat) (values :: others) ->
  (1 < length chs)%nat ->
  Statistics (map (map Cfin) others) (map Cfin values) (Z.of_nat M) =
  Return {| mean := Cfin (global_mean chs); error_of_mean := NaN;
            variance := NaN; correlation := NaN; R_ := NaN |}.
Proof.
  intros chs HM Hlen Hm.
  apply Forall_cons in Hlen as [Hvalues Hothers].
  unfold Statistics.
  rewrite (Statistics_local_part_finite 1), (peers_local_part_finite 1)
    by (done || lia).
  cbn [bind].
  rewrite !length_map.
  assert (Hlenchs : length chs = (S (length others) * M)%nat)
    by (unfold chs; by rewrite length_all_chains).
  replace (Z.of_nat (S (length others)) * Z.of_nat M)
    with (Z.of_nat (length chs)) by (rewrite Hlenchs; lia).
  assert (Hm0 : INR (length chs) <> 0%R) by (apply not_0_INR; lia).
  rewrite allreduce_means. fold chs.
  unfold to_double. rewrite <- !INR_IZR_INZ.
  rewrite cdivr_fin by done. fold (global_mean chs).
  replace (Z.of_nat (length chs) =? 1) with false
    by (symmetry; apply Z.eqb_neq; lia).
  cbn [fst snd].
  assert (Hnan : dsum (stats_local_of 1 M values).2 = NaN).
  { unfold stats_local_of. cbn [snd]. destruct (decide (1%nat = 1%nat)); [|done].
    apply dsum_all_NaN. intros Hnil. apply (f_equal length) in Hnil.
    rewrite length_chains in Hnil. simpl in Hnil. lia. }
  rewrite Hnan. cbn [dadd ddiv isnan negb]. by rewrite andb_false_r.
Qed.

(** C1, as stated, fails when every chain holds one sample: two chains with
    the samples 1 and 2 have [B = 1/4], so the claimed standard error is
    [sqrt (1/8)], but [Statistics] reports not-a-number. *)
Lemma Statistics_several_chains_counterexample :
  let values := [(1, 0); (2, 0)]%R in
  let chs := all_chains 1 2 [values] in
  between_chain_variance chs = (/ 4)%R /\
  exists st,
    Statistics [] (map Cfin values) 2 = Return st /\
    error_of_mean st = NaN /\
    error_of_mean st <> Fin (sqrt (between_chain_variance chs / INR (length chs))).
Proof.
  intros values chs. split.
  - unfold between_chain_variance, global_mean, chs, all_chains, chains,
      chain_mean, sqdist, Csum, column, Rmean.
    cbn -[Rplus Rmult Rminus Rdiv INR].
    change (INR 1) with 1%R. change (INR 2) with (1 + 1)%R. field.
  - eexists. split; [|split].
    + apply (Statistics_one_sample_per_chain 2 values []).
      * lia.
      * by repeat constructor.
      * simpl. lia.
    + reflexivity.
    + discriminate.
Qed.

Lemma Statistics_several_chains_witness :
  let values := [(1, 0); (2, 0); (3, 0); (5, 0)]%R in
  exists st,
    Statistics [] (map Cfin values) 2 = Return st /\
    variance st = Fin (within_chain_variance (all_chains 2 2 [values])).
Proof.
  intros values. eexists. split.
  - apply (Statistics_several_chains 2 2 values []).
    + lia.
    + lia.
    + by repeat constructor.
    + simpl. lia.
    + unfold within_chain_variance, all_chains, chains, chain_variance,
        Rvariance, column, Rmean.
      cbn -[Rplus Rmult Rminus Rdiv INR].
      change (INR 2) with (1 + 1)%R. lra.
  - reflexivity.
Defined.

(** The formula of C1 is one of exact arithmetic.  In binary64 the argument
    of [std::round] can fall on the other side of a half: three chains with
    the samples (2, 3), (5, 2) and (-4, -2) have [B = 49/6] and [W = 7/6], so
    that [0.5 * (n * B / W - 1)] is exactly 6.5 and rounds to 7, while the
    doubles closest to [49/6] and [7/6] have a quotient just below 7, and
    [Statistics] reports 6. *)
Lemma Statistics_binary64_rounds_down :
  let values := [(2, 0); (5, 0); (-4, 0); (3, 0); (2, 0); (-2, 0)]%R in
  let chs := all_chains 2 3 [values] in
  between_chain_variance chs = (49 / 6)%R /\
  within_chain_variance chs = (7 / 6)%R /\
  (exists st,
     Statistics [] (map Cfin values) 3 = Return st /\
     correlation st = Fin 7) /\
  (exists st,
     Binary64.Statistics (Binary64.samples [2; 5; -4; 3; 2; -2]) 3 = Return st /\
     Binary64.correlation st = Binary64.of_int 6).
Proof.
  intros values chs.
  assert (HB : between_chain_variance chs = (49 / 6)%R).
  { unfold between_chain_variance, global_mean, chs, all_chains, chains,
      chain_mean, sqdist, Csum, column, Rmean.
    cbn -[Rplus Rmult Rminus Rdiv INR].
    change (INR 3) with (1 + 1 + 1)%R. change (INR 2) with (1 + 1)%R. field. }
  assert (HW : within_chain_variance chs = (7 / 6)%R).
  { unfold within_chain_variance, chs, all_chains, chains, chain_variance,
      Rvariance, column, Rmean.
    cbn -[Rplus Rmult Rminus Rdiv INR].
    change (INR 3) with (1 + 1 + 1)%R. change (INR 2) with (1 + 1)%R. field. }
  split; [exact HB|]. split; [exact HW|]. split.
  - pose proof (Statistics_finite 2 3 values []) as H. cbv zeta in H.
    fold chs in H. rewrite HB, HW in H.
    change (Z.of_nat 3) with 3 in H.
    change (map (map Cfin) []) with (@nil (list Complex)) in H.
    rewrite H; [| lia | lia | by repeat constructor | simpl; lia].
    eexists. split; [reflexivity|]. cbn [correlation].
    rewrite ddiv_fin by lra.
    change (INR 2) with (1 + 1)%R.
    rewrite !dmul_fin, !dsub_fin, !dmul_fin. cbn [dlt].
    rewrite Rltb_false by lra. cbn [dround]. f_equal.
    unfold Rround. rewrite Rltb_false by lra.
    rewrite (Rfloor_unique 7) by lra. reflexivity.
  - eexists. split; [vm_compute; reflexivity|]. vm_compute. reflexivity.
Qed.

(* ------------------------------------------------------------------ *)
(** ** Further properties of [StatisticsLocal] and [Statistics] *)
(* ------------------------------------------------------------------ *)

(** X1.  A chain count that is zero or negative is always rejected:
    [Statistics] passes its own size check and [StatisticsLocal] throws
    [InvalidInputError] before it divides by the count, whatever the values
    and whatever the other ranks hold. *)
Theorem Statistics_rejects_nonpositive_chains (others : list (list Complex))
    (values : list Complex) (number_of_chains : Z) :
  number_of_chains <= 0 ->
  Statistics others values number_of_chains = Throw InvalidInputError /\
  StatisticsLocal values number_of_chains = Throw InvalidInputError.
Proof.
  intros Hc.
  assert (Hlocal : StatisticsLocal values number_of_chains
                   = Throw InvalidInputError).
  { unfold StatisticsLocal.
    replace (0 <? number_of_chains) with false
      by (symmetry; apply Z.ltb_ge; lia).
    reflexivity. }
  split; [|exact Hlocal].
  unfold Statistics, Statistics_local_part.
  replace (number_of_chains <=? Z.of_nat (length values)) with true
    by (symmetry; apply Z.leb_le; lia).
  cbn [NETKET_CHECK bind]. rewrite Hlocal. reflexivity.
Qed.

Lemma Statistics_rejects_nonpositive_chains_witness :
  Statistics [[czero]] [czero; czero] 0 = Throw InvalidInputError /\
  StatisticsLocal [czero; czero] 0 = Throw InvalidInputError.
Proof.
  apply (Statistics_rejects_nonpositive_chains [[czero]] [czero; czero] 0). lia.
Defined.

Lemma length_kernel_loop (n : Z) (mu M2 xs : list double) :
  length mu = length xs -> length M2 = length xs ->
  length (detail.kernel_loop n mu M2 xs).1 = length xs /\
  length (detail.kernel_loop n mu M2 xs).2 = length xs.
Proof.
  revert M2 xs. induction mu as [|m mu IH]; intros [|q M2] [|x xs]; try done.
  intros [= Hmu] [= HM2]. cbn [detail.kernel_loop].
  destruct (detail.kernel n m q x) as [m' q'].
  destruct (IH M2 xs Hmu HM2) as [H1 H2].
  destruct (detail.kernel_loop n mu M2 xs) as [mus M2s].
  cbn [fst snd length] in *. lia.
Qed.

Lemma length_accumulate (w n : nat) :
  forall (acc : detail.MeanAndVarianceAccumulator) (p : list double),
    length (detail.mu_ acc) = w -> length (detail.M2_ acc) = w ->
    (n * w <= length p)%nat ->
    let acc' := accumulate acc p w n in
    length (detail.mu_ acc') = w /\ length (detail.M2_ acc') = w /\
    detail.n_ acc' = detail.n_ acc + Z.of_nat n.
Proof.
  induction n as [|n IH]; intros acc p Hmu HM2 Hp; cbn [accumulate].
  - cbv zeta. repeat split; try done. lia.
  - assert (Htake : length (take w p) = w) by (rewrite length_take; lia).
    destruct (length_kernel_loop (detail.n_ acc + 1) (detail.mu_ acc)
                (detail.M2_ acc) (take w p)) as [H1 H2]; [lia..|].
    specialize (IH (detail.call acc (take w p)) (drop w p)).
    unfold detail.call in *.
    destruct (detail.kernel_loop _ _ _ _) as [mu' M2'].
    cbn [fst snd detail.mu_ detail.M2_ detail.n_] in *.
    destruct IH as (? & ? & ?); [lia | lia | rewrite length_drop; lia |].
    repeat split; try done. lia.
Qed.

Lemma length_merge_variances (chains : nat) (var : list double) :
  length (merge_variances chains var) = length var.
Proof.
  unfold merge_variances. generalize (seq 0 chains). intros js.
  revert var. induction js as [|j js IH]; intros var; [done|].
  cbn [foldl]. rewrite IH. apply length_insert.
Qed.

Lemma length_as_complex (p : list double) (M : nat) :
  length p = (2 * M)%nat -> length (as_complex p) = M.
Proof.
  intros Hp. rewrite (as_complex_pairs p M Hp). by rewrite length_map, length_seq.
Qed.

Lemma length_destruct_ (acc : detail.MeanAndVarianceAccumulator) :
  length (detail.destruct_ acc).1 = length (detail.mu_ acc) /\
  length (detail.destruct_ acc).2 = length (detail.M2_ acc).
Proof.
  unfold detail.destruct_.
  destruct (_ =? 0); [|destruct (_ =? 1)]; cbn [fst snd];
    by rewrite ?length_replicate, ?length_map.
Qed.

(** X2.  Whatever the samples are (finite or not), once the two shape checks
    pass [StatisticsLocal] returns one mean and one variance per chain. *)
Theorem StatisticsLocal_one_entry_per_chain (values : list Complex)
    (number_chains : Z) :
  0 < number_chains ->
  Z.rem (Z.of_nat (length values)) number_chains = 0 ->
  exists mean var,
    StatisticsLocal values number_chains = Return (mean, var) /\
    Z.of_nat (length mean) = number_chains /\
    Z.of_nat (length var) = number_chains.
Proof.
  intros Hc Hrem. unfold StatisticsLocal.
  replace (0 <? number_chains) with true by (symmetry; by apply Z.ltb_lt).
  rewrite Hrem. cbn [Z.eqb NETKET_CHECK bind].
  set (chains := Z.to_nat number_chains).
  set (n := Z.to_nat (Z.quot (Z.of_nat (length values)) number_chains)).
  assert (Hsize : (n * (2 * chains) <= length (as_doubles values))%nat).
  { rewrite length_as_doubles. subst n chains.
    pose proof (Z.quot_rem' (Z.of_nat (length values)) number_chains) as Hq.
    rewrite Hrem in Hq.
    assert (0 <= Z.of_nat (length values) ÷ number_chains)
      by (apply Z.quot_pos; lia).
    nia. }
  destruct (length_accumulate (2 * chains) n (detail.construct (2 * chains))
              (as_doubles values)) as (Hmu & HM2 & _);
    [by cbn; rewrite length_replicate..|done|].
  destruct (length_destruct_
              (accumulate (detail.construct (2 * chains)) (as_doubles values)
                          (2 * chains) n)) as [H1 H2].
  destruct (detail.destruct_ _) as [mean var]. cbn [fst snd] in *.
  eexists _, _. split; [reflexivity|]. split.
  - rewrite (length_as_complex mean chains) by lia. subst chains. lia.
  - rewrite length_take, length_merge_variances. subst chains. lia.
Qed.

Lemma StatisticsLocal_one_entry_per_chain_witness :
  exists mean var,
    StatisticsLocal [mkComplex NaN PInf; czero; czero; czero] 2
      = Return (mean, var) /\
    Z.of_nat (length mean) = 2 /\ Z.of_nat (length var) = 2.
Proof.
  apply (StatisticsLocal_one_entry_per_chain
           [mkComplex NaN PInf; czero; czero; czero] 2); [lia | reflexivity].
Defined.

Lemma as_complex_replicate (x : double) (M : nat) :
  as_complex (replicate (2 * M) x) = replicate M (mkComplex x x).
Proof.
  induction M as [|M IH]; [done|].
  replace (2 * S M)%nat with (S (S (2 * M))) by lia.
  cbn [replicate as_complex]. by rewrite IH.
Qed.

(** X3.  With no sample at all the accumulator is destroyed before it has
    seen a row: every chain's mean and variance is not-a-number. *)
Theorem StatisticsLocal_no_samples (number_chains : Z) :
  0 < number_chains ->
  StatisticsLocal [] number_chains =
  Return (replicate (Z.to_nat number_chains) (mkComplex NaN NaN),
          replicate (Z.to_nat number_chains) NaN).
Proof.
  intros Hc. unfold StatisticsLocal.
  replace (0 <? number_chains) with true by (symmetry; by apply Z.ltb_lt).
  cbn [length Z.of_nat]. rewrite Z.rem_0_l, Z.quot_0_l by lia.
  change (Z.to_nat 0) with 0%nat.
  cbn [Z.eqb NETKET_CHECK bind accumulate].
  set (chains := Z.to_nat number_chains).
  unfold detail.destruct_, detail.construct.
  cbn [detail.n_ detail.mu_ detail.M2_ Z.eqb]. rewrite !length_replicate.
  rewrite take_merge_variances by apply length_replicate.
  rewrite as_complex_replicate. do 2 f_equal.
  apply list_eq. intros i. rewrite list_lookup_fmap.
  destruct (decide (i < chains)%nat) as [Hi|Hi].
  - rewrite lookup_seq_lt by done. rewrite lookup_replicate_2 by done.
    cbn. by rewrite !lookup_total_replicate_NaN.
  - rewrite lookup_seq_ge by lia. symmetry. apply lookup_replicate_None. lia.
Qed.

Lemma StatisticsLocal_no_samples_witness :
  StatisticsLocal [] 3 =
  Return (replicate (Z.to_nat 3) (mkComplex NaN NaN),
          replicate (Z.to_nat 3) NaN).
Proof. apply (StatisticsLocal_no_samples 3). lia. Defined.
Lemma Rsum_Permutation (l k : list R) : l ≡ₚ k -> Rsum l = Rsum k.
Proof.
  unfold Rsum.
  induction 1 as [|x l k _ IH|x y l|l k j _ IH1 _ IH2]; cbn [foldr] in *;
    [done | by rewrite IH | lra | congruence].
Qed.

Lemma all_chains_Permutation (n M : nat) (ranks ranks' : list (list (R * R))) :
  ranks' ≡ₚ ranks -> all_chains n M ranks' ≡ₚ all_chains n M ranks.
Proof. intros Hp. unfold all_chains. by rewrite Hp. Qed.

Lemma chain_summaries_Permutation (chs chs' : list (list (R * R))) :
  chs' ≡ₚ chs ->
  length chs' = length chs /\
  global_mean chs' = global_mean chs /\
  between_chain_variance chs' = between_chain_variance chs /\
  within_chain_variance chs' = within_chain_variance chs.
Proof.
  intros Hp.
  assert (Hlen : length chs' = length chs) by (by rewrite Hp).
  assert (Hmean : global_mean chs' = global_mean chs).
  { unfold global_mean, Csum. cbn [fst snd]. rewrite Hlen.
    rewrite (Rsum_Permutation (map fst (map chain_mean chs'))
                              (map fst (map chain_mean chs)))
      by (by rewrite Hp).
    rewrite (Rsum_Permutation (map snd (map chain_mean chs'))
                              (map snd (map chain_mean chs)))
      by (by rewrite Hp).
    done. }
  repeat split; try done.
  - unfold between_chain_variance. rewrite Hlen, Hmean.
    f_equal. apply Rsum_Permutation. by rewrite Hp.
  - unfold within_chain_variance. rewrite Hlen.
    f_equal. apply Rsum_Permutation. by rewrite Hp.
Qed.

(** X4.  The result of the reduction does not depend on which rank computes
    it: on chains of [n >= 2] finite samples, any assignment of the same
    buffers to the ranks of [MPI_COMM_WORLD] makes [Statistics] return the
    same [Stats]. *)
Theorem Statistics_same_on_every_rank (n M : nat) (values values' : list (R * R))
    (others others' : list (list (R * R))) :
  (2 <= n)%nat -> (0 < M)%nat ->
  Forall (fun vs => length vs = (n * M)%nat) (values :: others) ->
  (1 < length (all_chains n M (values :: others)))%nat ->
  values' :: others' ≡ₚ values :: others ->
  Statistics (map (map Cfin) others') (map Cfin values') (Z.of_nat M) =
  Statistics (map (map Cfin) others) (map Cfin values) (Z.of_nat M).
Proof.
  intros Hn HM Hlen Hm Hp.
  destruct (chain_summaries_Permutation _ _ (all_chains_Permutation n M _ _ Hp))
    as (Hl & Hmean & HB & HW).
  rewrite (Statistics_finite n M values others Hn HM Hlen Hm).
  rewrite (Statistics_finite n M values' others' Hn HM).
  - cbv zeta. by rewrite Hl, Hmean, HB, HW.
  - by rewrite Hp.
  - by rewrite Hl.
Qed.

Lemma Statistics_same_on_every_rank_witness :
  Statistics (map (map Cfin) [[(1, 0); (2, 0)]%R]) (map Cfin [(3, 0); (5, 0)]%R)
             (Z.of_nat 1) =
  Statistics (map (map Cfin) [[(3, 0); (5, 0)]%R]) (map Cfin [(1, 0); (2, 0)]%R)
             (Z.of_nat 1).
Proof.
  apply (Statistics_same_on_every_rank 2 1 [(1, 0); (2, 0)]%R [(3, 0); (5, 0)]%R
           [[(3, 0); (5, 0)]%R] [[(1, 0); (2, 0)]%R]).
  - lia.
  - lia.
  - repeat constructor.
  - cbn. lia.
  - apply Permutation_swap.
Defined.

(** X5.  On [m > 1] chains of [n >= 2] finite samples the diagnostics are
    never negative: the standard error and the variance are finite numbers
    that are at least zero, and neither the autocorrelation time nor [R]
    compares below zero (they are not-a-number or infinite when the
    within-chain variance vanishes). *)
Theorem Statistics_diagnostics_not_negative (n M : nat) (values : list (R * R))
    (others : list (list (R * R))) :
  (2 <= n)%nat -> (0 < M)%nat ->
  Forall (fun vs => length vs = (n * M)%nat) (values :: others) ->
  (1 < length (all_chains n M (values :: others)))%nat ->
  exists (st : Stats) (e w : R),
    Statistics (map (map Cfin) others) (map Cfin values) (Z.of_nat M)
      = Return st /\
    error_of_mean st = Fin e /\ (0 <= e)%R /\
    variance st = Fin w /\ (0 <= w)%R /\
    dlt (correlation st) (Fin 0) = false /\
    dlt (R_ st) (Fin 0) = false.
Proof.
  intros Hn HM Hlen Hm.
  rewrite (Statistics_finite n M values others Hn HM Hlen Hm). cbv zeta.
  set (chs := all_chains n M (values :: others)).
  pose proof (between_chain_variance_nonneg chs) as HB.
  pose proof (within_chain_variance_nonneg chs) as HW.
  set (B := between_chain_variance chs) in *.
  set (W := within_chain_variance chs) in *.
  assert (Hnpos : (2 <= INR n)%R) by (apply (le_INR 2); lia).
  assert (Hnn : (0 <= (INR n - 1) / INR n)%R).
  { apply Rmult_le_pos; [lra|]. left. apply Rinv_0_lt_compat. lra. }
  eexists _, _, _. split; [reflexivity|]. cbn [error_of_mean variance
    correlation R_].
  split; [reflexivity|]. split; [apply sqrt_pos|].
  split; [reflexivity|]. split; [done|].
  destruct (Req_EM_T W 0) as [HW0|HW0].
  - (* [W = 0]: [B / W] is not-a-number or plus infinity *)
    unfold ddiv. rewrite (Reqb_true W 0) by done.
    destruct (Req_EM_T B 0) as [HB0|HB0].
    + rewrite (Reqb_true B 0) by done. done.
    + rewrite (Reqb_false B 0), (Rltb_false B 0) by (done || lra).
      cbn [dmul]. unfold inf_times.
      rewrite (Reqb_false (INR n) 0), (Rltb_false (INR n) 0) by lra.
      cbn [dsub dneg dadd dmul]. unfold inf_times.
      rewrite (Reqb_false (/ 2) 0), (Rltb_false (/ 2) 0) by lra.
      done.
  - assert (HWpos : (0 < W)%R) by lra.
    assert (HBW : (0 <= B / W)%R).
    { apply Rmult_le_pos; [lra|]. left. by apply Rinv_0_lt_compat. }
    rewrite ddiv_fin by done.
    rewrite !dmul_fin, !dsub_fin, !dmul_fin, dadd_fin. cbn [dlt].
    rewrite dsqrt_fin by lra. split.
    + set (c := (/ 2 * (B / W * INR n - 1))%R).
      assert (Hfin : forall (b : bool) (x y : R),
                 (if b then Fin x else Fin y) = Fin (if b then x else y))
        by (by intros []).
      rewrite Hfin. cbn [dround dlt]. rewrite Rround_clamp.
      apply Rltb_false, Rmax_l.
    + cbn [dlt]. apply Rltb_false, sqrt_pos.
Qed.

Lemma Statistics_diagnostics_not_negative_witness :
  exists (st : Stats) (e w : R),
    Statistics (map (map Cfin) []) (map Cfin [(1, 0); (2, 0); (3, 0); (5, 0)]%R)
               (Z.of_nat 2) = Return st /\
    error_of_mean st = Fin e /\ (0 <= e)%R /\
    variance st = Fin w /\ (0 <= w)%R /\
    dlt (correlation st) (Fin 0) = false /\
    dlt (R_ st) (Fin 0) = false.
Proof.
  apply (Statistics_diagnostics_not_negative 2 2
           [(1, 0); (2, 0); (3, 0); (5, 0)]%R []).
  - lia.
  - lia.
  - repeat constructor.
  - cbn. lia.
Defined.
(* ------------------------------------------------------------------ *)
(** ** [WeightedStatistics], [L1Norm] and [L2Norm] *)
(* ------------------------------------------------------------------ *)

Lemma zip_with_map_same {A B C D} (f : B -> C -> D) (g : A -> B) (h : A -> C)
    (l : list A) :
  zip_with f (map g l) (map h l) = map (fun x => f (g x) (h x)) l.
Proof. induction l as [|x l IH]; [done|]. cbn. by rewrite IH. Qed.

Lemma csum_cons (z : Complex) (l : list Complex) :
  csum (z :: l) = cadd z (csum l).
Proof. reflexivity. Qed.

Lemma cadd_fin (a b : R * R) :
  cadd (Cfin a) (Cfin b) = Cfin ((a.1 + b.1)%R, (a.2 + b.2)%R).
Proof. reflexivity. Qed.

Lemma WeightedStatistics_local_part_finite (samples : list ((R * R) * R)) :
  WeightedStatistics_local_part (weighted_values samples)
                                (weighted_weights samples) =
  Return (Cfin ((weighted_sum samples).1, (- (weighted_sum samples).2)%R),
          Fin (weighted_second_moment samples)).
Proof.
  unfold WeightedStatistics_local_part, dot_real, dot_complex,
    weighted_values, weighted_weights.
  rewrite !zip_with_map_same, !length_map, !Nat.eqb_refl. cbn [bind].
  rewrite ?zip_with_map_same. do 2 f_equal.
  - unfold weighted_sum, Rsum. cbn [fst snd].
    induction samples as [|[[a b] w] l IH]; [unfold Cfin; cbn; f_equal; f_equal; lra|].
    cbn [map foldr fst snd]. rewrite csum_cons, IH.
    unfold cscale, cconj, Cfin, cadd. cbn [real imag fst snd dneg].
    rewrite !dmul_fin, !dadd_fin. f_equal; f_equal; lra.
  - unfold weighted_second_moment, Rsum.
    induction samples as [|[[a b] w] l IH]; [done|].
    cbn [map foldr fst snd]. rewrite csum_cons. cbn [cadd real]. rewrite IH.
    unfold conj_mul, cscale, Cfin. cbn [real imag fst snd].
    rewrite !dmul_fin, !dadd_fin. f_equal. lra.
Qed.

Lemma peers_weighted_part_finite (others : list (list ((R * R) * R))) :
  peers_weighted_part
    (map (fun l => (weighted_values l, weighted_weights l)) others) =
  Return (map (fun l =>
                 (Cfin ((weighted_sum l).1, (- (weighted_sum l).2)%R),
                  Fin (weighted_second_moment l))) others).
Proof.
  induction others as [|l others IH]; [done|].
  cbn [map peers_weighted_part].
  rewrite WeightedStatistics_local_part_finite, IH. reflexivity.
Qed.

Lemma Rsum_map_concat {A} (f : A -> R) (ls : list (list A)) :
  Rsum (map f (concat ls)) = Rsum (map (fun l => Rsum (map f l)) ls).
Proof.
  induction ls as [|l ls IH]; [done|].
  cbn [concat map]. rewrite map_app, Rsum_app, IH. reflexivity.
Qed.

Lemma cabs_squared_fin (a b : R) :
  dmul (cabs (Cfin (a, b))) (cabs (Cfin (a, b))) = Fin (a * a + b * b).
Proof.
  unfold cabs, Cfin, abs2. cbn [real imag fst snd].
  rewrite !dmul_fin, dadd_fin, dsqrt_fin by nra.
  rewrite dmul_fin, sqrt_sqrt by nra. reflexivity.
Qed.

(** [WeightedStatistics] on finite samples. *)
Lemma WeightedStatistics_value (samples : list ((R * R) * R))
    (others : list (list ((R * R) * R))) :
  let all := concat (samples :: others) in
  let s := weighted_sum all in
  WeightedStatistics
    (map (fun l => (weighted_values l, weighted_weights l)) others)
    (weighted_values samples) (weighted_weights samples) =
  Return {| mean := Cfin (s.1, (- s.2)%R);
            error_of_mean := NaN;
            variance :=
              Fin (weighted_second_moment all - (s.1 * s.1 + s.2 * s.2));
            correlation := NaN;
            R_ := NaN |}.
Proof.
  intros all s. unfold WeightedStatistics.
  rewrite WeightedStatistics_local_part_finite, peers_weighted_part_finite.
  cbn [bind fst snd]. rewrite !map_map. cbn [fst snd].
  assert (Hmean : SumOnNodes_complex
            (map (fun l => Cfin ((weighted_sum l).1, (- (weighted_sum l).2)%R))
                 others)
            (Cfin ((weighted_sum samples).1, (- (weighted_sum samples).2)%R))
          = Cfin (s.1, (- s.2)%R)).
  { unfold SumOnNodes_complex.
    assert (Hs : csum (map (fun l => Cfin ((weighted_sum l).1,
                                           (- (weighted_sum l).2)%R)) others)
                 = Cfin ((weighted_sum (concat others)).1,
                         (- (weighted_sum (concat others)).2)%R)).
    { induction others as [|l others IH].
      - unfold weighted_sum, Cfin. cbn. do 2 f_equal. lra.
      - cbn [map concat]. rewrite csum_cons, IH, cadd_fin. cbn [fst snd].
        unfold weighted_sum. cbn [fst snd]. rewrite !map_app, !Rsum_app.
        unfold Cfin. cbn [fst snd]. f_equal; f_equal; lra. }
    rewrite Hs, cadd_fin. cbn [fst snd]. subst s all.
    unfold weighted_sum. cbn [concat fst snd]. rewrite !map_app, !Rsum_app.
    unfold Cfin. cbn [fst snd]. f_equal; f_equal; lra. }
  rewrite Hmean. unfold SumOnNodes.
  rewrite <- (map_map weighted_second_moment Fin), dsum_fin, dadd_fin.
  rewrite cabs_squared_fin, dsub_fin.
  do 3 f_equal. subst all. unfold weighted_second_moment.
  cbn [concat]. rewrite map_app, Rsum_app, Rsum_map_concat. lra.
Qed.

(** X6.  On finite samples [WeightedStatistics] returns, as its mean, the
    complex conjugate of the weighted sum of the values of all ranks (Eigen's
    [dot] conjugates [values]), as its variance the weighted sum of the
    squared moduli minus the squared modulus of that mean, and not-a-number
    in the three other fields. *)
Theorem WeightedStatistics_finite (samples : list ((R * R) * R))
    (others : list (list ((R * R) * R))) :
  let all := concat (samples :: others) in
  let s := weighted_sum all in
  WeightedStatistics
    (map (fun l => (weighted_values l, weighted_weights l)) others)
    (weighted_values samples) (weighted_weights samples) =
  Return {| mean := Cfin (s.1, (- s.2)%R);
            error_of_mean := NaN;
            variance :=
              Fin (weighted_second_moment all - (s.1 * s.1 + s.2 * s.2));
            correlation := NaN;
            R_ := NaN |}.
Proof. apply WeightedStatistics_value. Qed.

Lemma Rsum_abs_square (l : list R) :
  (0 <= Rsum (map Rabs l))%R /\
  (Rsum (map (fun x => x * x) l) <= Rsum (map Rabs l) * Rsum (map Rabs l))%R.
Proof.
  induction l as [|x l [IH0 IH]]; cbn [map]; rewrite ?Rsum_cons.
  - unfold Rsum. cbn. lra.
  - pose proof (Rabs_pos x) as Hx.
    assert (x * x = Rabs x * Rabs x)%R
      by (unfold Rabs; destruct (Rcase_abs x); lra).
    split; [lra | nra].
Qed.

Lemma dsum_abs_fin (l : list R) :
  dsum (map dabs (map Fin l)) = Fin (Rsum (map Rabs l)).
Proof. by rewrite map_map, <- (map_map Rabs Fin), dsum_fin. Qed.

Lemma squaredNorm_fin (l : list R) :
  squaredNorm (map Fin l) = Fin (Rsum (map (fun x => x * x)%R l)).
Proof.
  unfold squaredNorm.
  by rewrite map_map, <- (map_map (fun x => x * x)%R Fin), dsum_fin.
Qed.

Lemma SumOnNodes_fin (F : list double -> double) (G : list R -> R)
    (others : list (list R)) (weights : list R) :
  (forall l, F (map Fin l) = Fin (G l)) ->
  SumOnNodes (map F (map (map Fin) others)) (F (map Fin weights)) =
  Fin (Rsum (map G (weights :: others))).
Proof.
  intros HF. unfold SumOnNodes. rewrite HF, map_map.
  rewrite (map_ext _ (fun l => Fin (G l))) by (intros l; apply HF).
  by rewrite <- (map_map G Fin), dsum_fin, dadd_fin.
Qed.

(** X8.  On finite weights the two norms are finite, the Euclidean norm is
    not negative and it never exceeds the sum of the absolute values:
    [0 <= L2Norm <= L1Norm], the sums running over all ranks. *)
Theorem L2Norm_le_L1Norm (others : list (list R)) (weights : list R) :
  exists l1 l2 : R,
    L1Norm (map (map Fin) others) (map Fin weights) = Fin l1 /\
    L2Norm (map (map Fin) others) (map Fin weights) = Fin l2 /\
    (0 <= l2 <= l1)%R.
Proof.
  set (all := concat (weights :: others)).
  assert (H1 : L1Norm (map (map Fin) others) (map Fin weights)
               = Fin (Rsum (map Rabs all))).
  { unfold L1Norm.
    rewrite (SumOnNodes_fin (fun w => dsum (map dabs w))
               (fun l => Rsum (map Rabs l))) by apply dsum_abs_fin.
    by rewrite <- Rsum_map_concat. }
  assert (H2 : L2Norm (map (map Fin) others) (map Fin weights)
               = dsqrt (Fin (Rsum (map (fun x => x * x)%R all)))).
  { unfold L2Norm.
    rewrite (SumOnNodes_fin squaredNorm
               (fun l => Rsum (map (fun x => x * x)%R l)))
      by apply squaredNorm_fin.
    by rewrite <- Rsum_map_concat. }
  destruct (Rsum_abs_square all) as [H0 Hle].
  assert (Hsq : (0 <= Rsum (map (fun x => x * x) all))%R).
  { apply Rsum_nonneg, Forall_map, Forall_forall. intros x _. cbn beta. nra. }
  rewrite dsqrt_fin in H2 by done.
  eexists _, _. split; [exact H1|]. split; [exact H2|]. split.
  - apply sqrt_pos.
  - rewrite <- (sqrt_square (Rsum (map Rabs all))) by done.
    by apply sqrt_le_1_alt.
Qed.
(* ------------------------------------------------------------------ *)
(** ** The Python binding [statistics] *)
(* ------------------------------------------------------------------ *)

(** X9.  A rank-2 array of shape [(N, M)] is read as [M] chains of [N]
    samples; [statistics] throws [InvalidInputError] when [N] or [M] is zero
    and raises no exception otherwise. *)
Theorem py_statistics_rank2 (others : list (list Complex)) (N M : Z)
    (buffer : list Complex) :
  0 <= N -> 0 <= M -> Z.of_nat (length buffer) = N * M ->
  let local_values := {| shape := [N; M]; data := buffer |} in
  (N = 0 \/ M = 0 ->
   py_statistics others local_values = Throw InvalidInputError) /\
  (0 < N /\ 0 < M -> forall e, py_statistics others local_values <> Throw e).
Proof.
  intros HN HM Hsize local_values. unfold py_statistics, local_values.
  cbn [shape data length]. change ([N; M] !!! 1%nat) with M. split.
  - intros H0.
    unfold Statistics, Statistics_local_part.
    destruct (decide (M = 0)) as [->|HM0].
    + replace (0 <=? Z.of_nat (length buffer)) with true
        by (symmetry; apply Z.leb_le; lia).
      reflexivity.
    + destruct H0 as [->|]; [|done].
      replace (M <=? Z.of_nat (length buffer)) with false
        by (symmetry; apply Z.leb_gt; lia).
      reflexivity.
  - intros [HN0 HM0] e.
    unfold Statistics, Statistics_local_part.
    replace (M <=? Z.of_nat (length buffer)) with true
      by (symmetry; apply Z.leb_le; nia).
    cbn [NETKET_CHECK bind].
    destruct (StatisticsLocal_returns buffer M) as [r ->];
      [done | rewrite Hsize; apply Z.rem_mul; lia |].
    cbn [bind]. destruct (peers_local_part _ _); [|done].
    destruct (_ && _); done.
Qed.

Lemma py_statistics_rank2_witness :
  let local_values := {| shape := [2; 0]; data := [] |} in
  (2 = 0 \/ 0 = 0 ->
   py_statistics [] local_values = Throw InvalidInputError) /\
  (0 < 2 /\ 0 < 0 -> forall e, py_statistics [] local_values <> Throw e).
Proof. apply (py_statistics_rank2 [] 2 0 []); [lia | lia | reflexivity]. Defined.

(** X10.  An array that is neither rank 1 nor rank 2 is rejected with
    [InvalidInputError], and so is an empty rank-1 array. *)
Theorem py_statistics_wrong_rank (others : list (list Complex))
    (local_values : array_t) :
  (length (shape local_values) <> 1%nat /\
   length (shape local_values) <> 2%nat) \/
  (length (shape local_values) = 1%nat /\ data local_values = []) ->
  py_statistics others local_values = Throw InvalidInputError.
Proof.
  unfold py_statistics. intros [[H1 H2]|[H1 Hdata]].
  - destruct (length (shape local_values)) as [|[|[|k]]]; done.
  - rewrite H1, Hdata. reflexivity.
Qed.

Lemma py_statistics_wrong_rank_witness :
  py_statistics [] {| shape := [1; 1; 1]; data := [czero] |}
  = Throw InvalidInputError.
Proof.
  apply (py_statistics_wrong_rank [] {| shape := [1; 1; 1]; data := [czero] |}).
  left. cbn. lia.
Defined.

(** X11.  On a single process a rank-1 array that is not empty is one Markov
    chain: [statistics] returns a mean and not-a-number in every
    diagnostic. *)
Theorem py_statistics_rank1 (N : Z) (buffer : list Complex) :
  buffer <> [] ->
  exists mu,
    py_statistics [] {| shape := [N]; data := buffer |} =
    Return {| mean := mu; error_of_mean := NaN; variance := NaN;
              correlation := NaN; R_ := NaN |}.
Proof.
  intros Hne. unfold py_statistics. cbn [shape data length].
  assert (Hlen : (1 <= length buffer)%nat)
    by (destruct buffer; [done | cbn; lia]).
  destruct (StatisticsLocal_returns buffer 1) as [r Hr];
    [lia | apply Z.rem_1_r |].
  eexists. unfold Statistics, Statistics_local_part.
  replace (1 <=? Z.of_nat (length buffer)) with true
    by (symmetry; apply Z.leb_le; lia).
  cbn [NETKET_CHECK bind]. rewrite Hr. reflexivity.
Qed.

Lemma py_statistics_rank1_witness :
  exists mu,
    py_statistics [] {| shape := [1]; data := [czero] |} =
    Return {| mean := mu; error_of_mean := NaN; variance := NaN;
              correlation := NaN; R_ := NaN |}.
Proof. apply (py_statistics_rank1 1 [czero]). done. Defined.

(** ** Complex sums *)

Ltac lca :=
  unfold Cplus, Cmult, Cconj, Cdivr, Cscale, RtoC, C0, C1 in *;
  repeat match goal with z : C |- _ => destruct z end;
  cbn [fst snd] in *;
  try (f_equal; (ring || (unfold Rdiv; ring))).

Ltac cfield :=
  unfold Cplus, Cmult, Cconj, Cdivr, Cscale, Cminus, RtoC, C0, C1;
  cbn [fst snd]; f_equal; field.

Lemma Cplus_0_l (a : C) : Cplus C0 a = a.
Proof. lca. Qed.

Lemma Cplus_assoc4 (a b c d : C) :
  Cplus (Cplus a b) (Cplus c d) = Cplus (Cplus a c) (Cplus b d).
Proof. lca. Qed.

Lemma sigma_ext (n : nat) (f g : nat -> C) :
  (forall i, (i < n)%nat -> f i = g i) -> sigma n f = sigma n g.
Proof.
  induction n as [|n IH]; intros H; [done|].
  simpl. rewrite IH by (intros i Hi; apply H; lia). rewrite H by lia. done.
Qed.

Lemma sigma_plus (n : nat) (f g : nat -> C) :
  sigma n (fun i => Cplus (f i) (g i)) = Cplus (sigma n f) (sigma n g).
Proof.
  induction n as [|n IH]; simpl; [lca|]. rewrite IH. apply Cplus_assoc4.
Qed.

Lemma sigma_mult_l (n : nat) (c : C) (f : nat -> C) :
  sigma n (fun i => Cmult c (f i)) = Cmult c (sigma n f).
Proof.
  induction n as [|n IH]; simpl; [lca|]. rewrite IH. clear IH.
  generalize (sigma n f) (f n). intros a b. lca.
Qed.

Lemma sigma_mult_r (n : nat) (c : C) (f : nat -> C) :
  sigma n (fun i => Cmult (f i) c) = Cmult (sigma n f) c.
Proof.
  induction n as [|n IH]; simpl; [lca|]. rewrite IH. clear IH.
  generalize (sigma n f) (f n). intros a b. lca.
Qed.

Lemma sigma_scale (n : nat) (r : R) (f : nat -> C) :
  sigma n (fun i => Cscale r (f i)) = Cscale r (sigma n f).
Proof.
  induction n as [|n IH]; simpl; [lca|]. rewrite IH. clear IH.
  generalize (sigma n f) (f n). intros a b. lca.
Qed.

Lemma sigma_divr (n : nat) (r : R) (f : nat -> C) :
  sigma n (fun i => Cdivr (f i) r) = Cdivr (sigma n f) r.
Proof.
  induction n as [|n IH]; simpl; [lca|]. rewrite IH. clear IH.
  generalize (sigma n f) (f n). intros a b. lca.
Qed.

Lemma sigma_conj (n : nat) (f : nat -> C) :
  Cconj (sigma n f) = sigma n (fun i => Cconj (f i)).
Proof.
  induction n as [|n IH]; simpl; [lca|]. rewrite <- IH. clear IH.
  generalize (sigma n f) (f n). intros a b. lca.
Qed.

Lemma sigma_swap (n m : nat) (f : nat -> nat -> C) :
  sigma n (fun i => sigma m (fun j => f i j)) =
  sigma m (fun j => sigma n (fun i => f i j)).
Proof.
  induction n as [|n IH]; simpl.
  - induction m as [|m IHm]; simpl; [done|]. rewrite <- IHm. lca.
  - rewrite IH. by rewrite <- sigma_plus.
Qed.

(** ** Quadratic forms *)

Lemma matvec_divr (n : nat) (A : Mat) (x : Vec) (r : R) (i : nat) :
  matvec n A (fun j => Cdivr (x j) r) i = Cdivr (matvec n A x i) r.
Proof.
  unfold matvec. rewrite <- sigma_divr. apply sigma_ext. intros j _.
  generalize (A i j) (x j). intros a b. lca.
Qed.

(** Dividing [x] by a real [r] divides [x^H (A x)] by [r] twice. *)
Lemma quad_form_divr (n : nat) (A : Vec -> Vec) (x : Vec) (r : R) :
  (forall i, A (fun j => Cdivr (x j) r) i = Cdivr (A x i) r) ->
  dot n (fun j => Cdivr (x j) r) (A (fun j => Cdivr (x j) r)) =
  Cdivr (Cdivr (dot n x (A x)) r) r.
Proof.
  intros HA. unfold dot. rewrite <- !sigma_divr. apply sigma_ext. intros i _.
  rewrite HA. generalize (A x i) (x i). intros a b. lca.
Qed.

(** The quadratic form of a Hermitian matrix is real. *)
Lemma quad_form_real (n : nat) (S : Mat) (x : Vec) :
  (forall i j, (i < n)%nat -> (j < n)%nat -> S j i = Cconj (S i j)) ->
  (dot n x (matvec n S x)).2 = 0%R.
Proof.
  intros Hherm.
  assert (Hconj : Cconj (dot n x (matvec n S x)) = dot n x (matvec n S x)).
  { unfold dot, matvec. rewrite sigma_conj.
    rewrite (sigma_ext n _
      (fun i => sigma n (fun j => Cmult (Cmult (x i) (S j i)) (Cconj (x j))))).
    2:{ intros i Hi.
        transitivity (Cmult (x i) (Cconj (sigma n (fun j => Cmult (S i j) (x j))))).
        { generalize (sigma n (fun j => Cmult (S i j) (x j))) (x i). intros a b. lca. }
        rewrite sigma_conj, <- sigma_mult_l. apply sigma_ext. intros j Hj.
        rewrite (Hherm i j) by done.
        generalize (S i j) (x i) (x j). intros a b c. lca. }
    rewrite sigma_swap. apply sigma_ext. intros i _.
    rewrite <- sigma_mult_l. apply sigma_ext. intros j _.
    generalize (S i j) (x i) (x j). intros a b c. lca. }
  destruct (dot n x (matvec n S x)) as [a b].
  unfold Cconj in Hconj. cbn [fst snd] in *.
  injection Hconj as Hb. lra.
Qed.

Lemma sigma_delta (n i : nat) (r : R) (x : Vec) :
  (i < n)%nat ->
  sigma n (fun j => Cmult (scaled_identity r i j) (x j)) = Cscale r (x i).
Proof.
  unfold scaled_identity. induction n as [|n IH]; intros Hi; [lia|].
  simpl. destruct (decide (i = n)) as [->|Hne].
  - rewrite Nat.eqb_refl.
    rewrite (sigma_ext n _ (fun _ => C0)).
    2:{ intros j Hj. replace (n =? j)%nat with false
          by (symmetry; apply Nat.eqb_neq; lia).
        generalize (x j). intros a. lca. }
    assert (H0 : sigma n (fun _ => C0) = C0).
    { clear. induction n; simpl; [done|]. rewrite IHn. lca. }
    rewrite H0. generalize (x n). intros a. lca.
  - replace (i =? n)%nat with false by (symmetry; apply Nat.eqb_neq; lia).
    rewrite IH by lia. generalize (x i) (x n). intros a b. lca.
Qed.

(** The matrix-free product is the product with [scale * O^H O + shift * I]. *)
Lemma apply_replacement_matrix (S : MatrixReplacement) (x : Vec) (i : nat) :
  (i < attached_cols S)%nat ->
  apply_replacement S x i =
  matvec (attached_cols S) (replacement_matrix S) x i.
Proof.
  intros Hi. unfold apply_replacement, replacement_matrix, matvec, adjoint.
  set (O := attached S). set (rows := attached_rows S). set (cols := attached_cols S).
  rewrite (sigma_ext cols _
    (fun j => Cplus
       (Cscale (scale_ S)
          (sigma rows (fun k => Cmult (Cmult (Cconj (O k i)) (O k j)) (x j))))
       (Cmult (scaled_identity (shift_ S) i j) (x j)))).
  2:{ intros j _. rewrite sigma_mult_r.
      generalize (sigma rows (fun k => Cmult (Cconj (O k i)) (O k j)))
                 (scaled_identity (shift_ S) i j) (x j).
      intros a b c. lca. }
  rewrite sigma_plus, sigma_scale, sigma_delta by done. f_equal. f_equal.
  rewrite sigma_swap. apply sigma_ext. intros k _.
  rewrite <- sigma_mult_l. apply sigma_ext. intros j _.
  generalize (O k i) (O k j) (x j). intros a b c. lca.
Qed.

Lemma replacement_matrix_hermitian (S : MatrixReplacement) (i j : nat) :
  replacement_matrix S j i = Cconj (replacement_matrix S i j).
Proof.
  unfold replacement_matrix, scaled_identity.
  rewrite (Nat.eqb_sym j i).
  transitivity (Cplus (Cscale (scale_ S)
      (Cconj (sigma (attached_rows S)
         (fun k => Cmult (Cconj (attached S k i)) (attached S k j)))))
      (Cconj (if (i =? j)%nat then RtoC (shift_ S) else C0))).
  - f_equal.
    + f_equal. rewrite sigma_conj. apply sigma_ext. intros k _.
      generalize (attached S k i) (attached S k j). intros a b. lca.
    + destruct (i =? j)%nat; lca.
  - generalize (sigma (attached_rows S)
         (fun k => Cmult (Cconj (attached S k i)) (attached S k j))).
    intros a. destruct (i =? j)%nat; lca.
Qed.

Lemma S_direct_hermitian (st : VariationalExact.state) (i j : nat) :
  (forall k, (VariationalExact.psi2_ st k).2 = 0%R) ->
  VariationalExact.S_direct st j i = Cconj (VariationalExact.S_direct st i j).
Proof.
  intros Hreal. unfold VariationalExact.S_direct, matadd, matmul, mul_diag,
    adjoint, scaled_identity.
  rewrite (Nat.eqb_sym j i).
  set (O := VariationalExact.Ok_ st). set (p := VariationalExact.psi2_ st).
  transitivity (Cplus
      (Cconj (sigma (VariationalExact.nsamp st)
         (fun k => Cmult (Cmult (Cconj (O k i)) (p k)) (O k j))))
      (Cconj (if (i =? j)%nat then RtoC (VariationalExact.sr_diag_shift_ st) else C0))).
  - f_equal.
    + rewrite sigma_conj. apply sigma_ext. intros k _.
      pose proof (Hreal k) as Hk. fold p in Hk.
      generalize dependent (p k). generalize (O k i) (O k j).
      intros a b c Hc. destruct a, b, c. cbn [snd] in Hc. subst.
      unfold Cmult, Cconj. cbn [fst snd]. f_equal; ring.
    + destruct (i =? j)%nat; lca.
  - generalize (sigma (VariationalExact.nsamp st)
         (fun k => Cmult (Cmult (Cconj (O k i)) (p k)) (O k j))).
    intros a. destruct (i =? j)%nat; lca.
Qed.

(** ** [VariationalExact::UpdateParameters] *)

Lemma unit_after_rescale (nor : C) :
  nor.2 = 0%R -> (0 < nor.1)%R ->
  Cdivr (Cdivr nor (sqrt nor.1)) (sqrt nor.1) = C1.
Proof.
  destruct nor as [a b]. cbn [fst snd]. intros -> Ha.
  unfold Cdivr, C1. cbn [fst snd].
  assert (Hs : (0 < sqrt a)%R) by (by apply sqrt_lt_R0).
  assert (Hsq : (sqrt a * sqrt a = a)%R) by (apply sqrt_sqrt; lra).
  f_equal.
  - rewrite <- Hsq at 1. field. lra.
  - unfold Rdiv. ring.
Qed.

(** Within one path the rescale step does what it says: whenever
    [Re (Delta^H S Delta)] is positive, so that the division of the source is
    one by a positive number, [UpdateParameters] hands over the solved update
    divided by [sqrt (Re (Delta^H S Delta))], and the S-norm of the result is
    1.  [S] is the regularised operator of the path taken, a different one
    for each path; [psi2_] holds real numbers, as [Gradient] fills it with
    squared moduli. *)
Lemma rescale_within_path
    (QR LLT : nat -> Mat -> Vec -> Vec)
    (CG : nat -> MatrixReplacement -> Vec -> Vec)
    (st : VariationalExact.state) :
  VariationalExact.dosr_ st = true ->
  VariationalExact.sr_rescale_shift_ st = true ->
  (forall k, (VariationalExact.psi2_ st k).2 = 0%R) ->
  let grad := VariationalExact.grad_ (VariationalExact.UpdateParameters QR LLT CG st) in
  let b := VariationalExact.rhs st in
  let n := VariationalExact.npar st in
  let deltaP :=
    if VariationalExact.use_iterative_ st
    then CG n (VariationalExact.S_iterative st) b
    else if VariationalExact.use_cholesky_ st
         then LLT n (VariationalExact.S_direct st) b
         else QR n (VariationalExact.S_direct st) b in
  let S_norm :=
    if VariationalExact.use_iterative_ st
    then S_norm_iterative st else S_norm_direct st in
  (0 < (S_norm deltaP).1)%R ->
  (forall i, grad i = Cdivr (deltaP i) (sqrt (S_norm deltaP).1)) /\
  S_norm grad = C1.
Proof.
  intros Hsr Hrescale Hreal grad b n deltaP S_norm Hpos.
  assert (Hgrad : forall i, grad i = Cdivr (deltaP i) (sqrt (S_norm deltaP).1)).
  { intros i. unfold grad, deltaP, S_norm, VariationalExact.UpdateParameters.
    rewrite Hsr, Hrescale.
    destruct (VariationalExact.use_iterative_ st); cbn [negb].
    - reflexivity.
    - destruct (VariationalExact.use_cholesky_ st); reflexivity. }
  split; [exact Hgrad|].
  set (r := sqrt (S_norm deltaP).1) in *.
  assert (Hfun : S_norm grad = S_norm (fun i => Cdivr (deltaP i) r)).
  { unfold S_norm. destruct (VariationalExact.use_iterative_ st).
    - unfold S_norm_iterative, dot. apply sigma_ext. intros i Hi.
      rewrite Hgrad. f_equal.
      rewrite !apply_replacement_matrix by done.
      unfold matvec. apply sigma_ext. intros j _. by rewrite Hgrad.
    - unfold S_norm_direct, dot. apply sigma_ext. intros i Hi.
      rewrite Hgrad. f_equal.
      unfold matvec. apply sigma_ext. intros j _. by rewrite Hgrad. }
  rewrite Hfun. unfold r. clear Hfun Hgrad r. unfold S_norm in *.
  destruct (VariationalExact.use_iterative_ st).
  - unfold S_norm_iterative in *.
    assert (Heq : forall x,
      dot (VariationalExact.npar st) x
          (apply_replacement (VariationalExact.S_iterative st) x) =
      dot (VariationalExact.npar st) x
          (matvec (VariationalExact.npar st)
             (replacement_matrix (VariationalExact.S_iterative st)) x)).
    { intros x. unfold dot. apply sigma_ext. intros i Hi.
      by rewrite apply_replacement_matrix. }
    rewrite !Heq in *.
    rewrite (quad_form_divr _ (matvec _ _)) by (intros i; apply matvec_divr).
    apply unit_after_rescale; [|done].
    apply quad_form_real. intros i j _ _. apply replacement_matrix_hermitian.
  - unfold S_norm_direct in *.
    rewrite (quad_form_divr _ (matvec _ _)) by (intros i; apply matvec_divr).
    apply unit_after_rescale; [|done].
    apply quad_form_real. intros i j _ _. by apply S_direct_hermitian.
Qed.

(** The two operators on [two_sample_state]:
    [O^H diag(psi2) O + shift = 16/5 + 4/5 + 1/100] for the direct path and
    [O^H O / (nsamp * totalnodes) + shift = 17/2 + 1/100] for the iterative
    one. *)
Lemma two_sample_S_direct (it rs : bool) :
  VariationalExact.S_direct (two_sample_state it rs) 0%nat 0%nat
  = (401 / 100, 0)%R.
Proof.
  unfold VariationalExact.S_direct, matadd, matmul, mul_diag, adjoint,
    scaled_identity, sigma. simpl. cfield.
Qed.

Lemma two_sample_S_iterative (it rs : bool) :
  replacement_matrix (VariationalExact.S_iterative (two_sample_state it rs))
    0%nat 0%nat = (851 / 100, 0)%R.
Proof.
  unfold replacement_matrix, scaled_identity, sigma. simpl.
  change (Z.of_nat 2 * 1) with 2. cfield.
Qed.

Lemma two_sample_S_norm_direct (it rs : bool) (x : Vec) :
  S_norm_direct (two_sample_state it rs) x
  = (401 / 100 * Cnorm (x 0%nat), 0)%R.
Proof.
  unfold S_norm_direct, dot, matvec.
  change (VariationalExact.npar (two_sample_state it rs)) with 1%nat.
  cbn [sigma]. rewrite two_sample_S_direct.
  destruct (x 0%nat) as [a b]. unfold Cnorm, Cplus, Cmult, Cconj, C0.
  cbn [fst snd]. f_equal; ring.
Qed.

Lemma two_sample_S_norm_iterative (it rs : bool) (x : Vec) :
  S_norm_iterative (two_sample_state it rs) x
  = (851 / 100 * Cnorm (x 0%nat), 0)%R.
Proof.
  unfold S_norm_iterative, dot.
  change (VariationalExact.npar (two_sample_state it rs)) with 1%nat.
  cbn [sigma]. rewrite apply_replacement_matrix by (simpl; lia).
  change (attached_cols (VariationalExact.S_iterative (two_sample_state it rs)))
    with 1%nat.
  unfold matvec. cbn [sigma]. rewrite two_sample_S_iterative.
  destruct (x 0%nat) as [a b]. unfold Cnorm, Cplus, Cmult, Cconj, C0.
  cbn [fst snd]. f_equal; ring.
Qed.

Lemma Cnorm_pos (z : C) : z <> C0 -> (0 < Cnorm z)%R.
Proof.
  destruct z as [a b]. intros Hz. unfold Cnorm. cbn [fst snd].
  destruct (Req_dec a 0) as [->|Ha].
  - destruct (Req_dec b 0) as [->|Hb]; [by destruct Hz|]. nra.
  - nra.
Qed.

(** C6 fails on the code.  The rescale step is not the same postprocessing on
    both paths: each path divides by [sqrt (Re (Delta^H S Delta))] with its
    own operator [S], and the two operators differ for the same [Ok_],
    [psi2_] and shift.  On [two_sample_state] with the rescale-shift option,
    for any solvers whose updates are not zero (so that both divisions are by
    positive numbers): the direct path hands over an update of S-norm 1; the
    iterative path hands over an update whose norm is 1 under the operator of
    the iterative path, and 401/851 under [S_direct], the matrix [S] that
    the direct path builds from the same state. *)
Theorem rescale_norm_depends_on_path
    (QR LLT : nat -> Mat -> Vec -> Vec)
    (CG : nat -> MatrixReplacement -> Vec -> Vec) :
  let direct := two_sample_state false true in
  let iterative := two_sample_state true true in
  let delta_direct :=
    LLT 1%nat (VariationalExact.S_direct direct) (VariationalExact.rhs direct) in
  let delta_iterative :=
    CG 1%nat (VariationalExact.S_iterative iterative)
       (VariationalExact.rhs iterative) in
  let grad_direct :=
    VariationalExact.grad_ (VariationalExact.UpdateParameters QR LLT CG direct) in
  let grad_iterative :=
    VariationalExact.grad_ (VariationalExact.UpdateParameters QR LLT CG iterative) in
  delta_direct 0%nat <> C0 ->
  delta_iterative 0%nat <> C0 ->
  VariationalExact.S_direct iterative = VariationalExact.S_direct direct /\
  VariationalExact.rhs iterative = VariationalExact.rhs direct /\
  (0 < (S_norm_direct direct delta_direct).1)%R /\
  (0 < (S_norm_iterative iterative delta_iterative).1)%R /\
  (forall i, grad_direct i =
     Cdivr (delta_direct i) (sqrt (S_norm_direct direct delta_direct).1)) /\
  (forall i, grad_iterative i =
     Cdivr (delta_iterative i)
           (sqrt (S_norm_iterative iterative delta_iterative).1)) /\
  S_norm_direct direct grad_direct = C1 /\
  S_norm_iterative iterative grad_iterative = C1 /\
  S_norm_direct direct grad_iterative = (401 / 851, 0)%R.
Proof.
  intros direct iterative delta_direct delta_iterative grad_direct
    grad_iterative Hd Hi.
  assert (Hpd : (0 < (S_norm_direct direct delta_direct).1)%R).
  { unfold direct. rewrite two_sample_S_norm_direct. cbn [fst].
    pose proof (Cnorm_pos _ Hd). lra. }
  assert (Hpi : (0 < (S_norm_iterative iterative delta_iterative).1)%R).
  { unfold iterative. rewrite two_sample_S_norm_iterative. cbn [fst].
    pose proof (Cnorm_pos _ Hi). lra. }
  assert (Hreal : forall it rs k,
            (VariationalExact.psi2_ (two_sample_state it rs) k).2 = 0%R).
  { intros it rs k. simpl. destruct (k =? 0)%nat; reflexivity. }
  assert (Hown_d :
    (forall i, grad_direct i =
       Cdivr (delta_direct i) (sqrt (S_norm_direct direct delta_direct).1)) /\
    S_norm_direct direct grad_direct = C1)
    by exact (rescale_within_path QR LLT CG direct eq_refl eq_refl
                (Hreal _ _) Hpd).
  assert (Hown_i :
    (forall i, grad_iterative i =
       Cdivr (delta_iterative i)
             (sqrt (S_norm_iterative iterative delta_iterative).1)) /\
    S_norm_iterative iterative grad_iterative = C1)
    by exact (rescale_within_path QR LLT CG iterative eq_refl eq_refl
                (Hreal _ _) Hpi).
  destruct Hown_d as [Hgd Hnd]. destruct Hown_i as [Hgi Hni].
  repeat (split; [done|]).
  unfold direct. rewrite two_sample_S_norm_direct.
  rewrite (Hgi 0%nat).
  unfold iterative at 1. rewrite two_sample_S_norm_iterative.
  cbn [fst].
  pose proof (Cnorm_pos _ Hi) as Hn.
  clear Hgd Hnd Hgi Hni Hpd Hpi Hi.
  destruct (delta_iterative 0%nat) as [a b].
  unfold Cnorm, Cdivr in *. cbn [fst snd] in *.
  set (N := (a * a + b * b)%R) in *.
  assert (Hs : (0 < sqrt (851 / 100 * N))%R) by (apply sqrt_lt_R0; lra).
  assert (Hsq : (sqrt (851 / 100 * N) * sqrt (851 / 100 * N)
                 = 851 / 100 * N)%R) by (apply sqrt_sqrt; lra).
  set (r := sqrt (851 / 100 * N)) in *.
  f_equal.
  replace (a / r * (a / r) + b / r * (b / r))%R with (N / (r * r))%R
    by (unfold N; field; lra).
  rewrite Hsq. field. lra.
Qed.

Lemma rescale_norm_depends_on_path_witness :
  let QR := fun (_ : nat) (_ : Mat) (_ : Vec) (_ : nat) => C0 in
  let LLT := fun (_ : nat) (_ : Mat) (_ : Vec) (_ : nat) => (400 / 401, 0)%R in
  let CG := fun (_ : nat) (_ : MatrixReplacement) (_ : Vec) (_ : nat) =>
              (400 / 851, 0)%R in
  S_norm_direct (two_sample_state false true)
    (VariationalExact.grad_
       (VariationalExact.UpdateParameters QR LLT CG (two_sample_state false true)))
  = C1 /\
  S_norm_direct (two_sample_state false true)
    (VariationalExact.grad_
       (VariationalExact.UpdateParameters QR LLT CG (two_sample_state true true)))
  = (401 / 851, 0)%R.
Proof.
  intros QR LLT CG.
  destruct (rescale_norm_depends_on_path QR LLT CG)
    as (_ & _ & _ & _ & _ & _ & H1 & _ & H2).
  - subst LLT. cbv beta. unfold C0. intros [= H]. lra.
  - subst CG. cbv beta. unfold C0. intros [= H]. lra.
  - split; [exact H1 | exact H2].
Defined.

Lemma Cabs_ge_re (z : C) : (Rabs z.1 <= Cabs z)%R.
Proof.
  unfold Cabs. destruct z as [a b]. cbn [fst snd].
  rewrite <- sqrt_Rsqr_abs. apply sqrt_le_1_alt. unfold Rsqr. nra.
Qed.

Lemma Cabs_real (a : R) : Cabs (a, 0%R) = Rabs a.
Proof.
  unfold Cabs. cbn [fst snd]. rewrite <- sqrt_Rsqr_abs. f_equal. unfold Rsqr. ring.
Qed.

(** C5 fails on the code.  On [two_sample_state] the direct path solves with
    [S = O^H diag(psi2) O + shift = 4.01] and the iterative path with
    [S = O^H O / (nsamp * totalnodes) + shift = 8.51], for the same right-hand
    side [4].  So when the direct solver solves its system exactly and the
    conjugate gradient reaches its tolerance [1e-3], the two updates differ by
    more than half of the direct one. *)
Theorem UpdateParameters_paths_disagree
    (QR LLT : nat -> Mat -> Vec -> Vec)
    (CG : nat -> MatrixReplacement -> Vec -> Vec) :
  let direct := two_sample_state false false in
  let iterative := two_sample_state true false in
  let b := VariationalExact.rhs direct in
  let delta_direct :=
    VariationalExact.grad_ (VariationalExact.UpdateParameters QR LLT CG direct) in
  let delta_iterative :=
    VariationalExact.grad_ (VariationalExact.UpdateParameters QR LLT CG iterative) in
  matvec 1 (VariationalExact.S_direct direct) delta_direct 0%nat = b 0%nat ->
  (Cabs (Cminus (apply_replacement (VariationalExact.S_iterative iterative)
                                   delta_iterative 0%nat)
                (VariationalExact.rhs iterative 0%nat))
   <= 1 / 1000 * Cabs (VariationalExact.rhs iterative 0%nat))%R ->
  VariationalExact.S_direct direct 0%nat 0%nat = (401 / 100, 0)%R /\
  replacement_matrix (VariationalExact.S_iterative iterative) 0%nat 0%nat
    = (851 / 100, 0)%R /\
  b 0%nat = (4, 0)%R /\
  VariationalExact.rhs iterative 0%nat = (4, 0)%R /\
  (Cabs (Cminus (delta_iterative 0%nat) (delta_direct 0%nat))
   > 1 / 2 * Cabs (delta_direct 0%nat))%R.
Proof.
  intros direct iterative b delta_direct delta_iterative Hdirect Hcg.
  assert (HSd : VariationalExact.S_direct direct 0%nat 0%nat = (401 / 100, 0)%R).
  { unfold VariationalExact.S_direct, matadd, matmul, mul_diag, adjoint,
      scaled_identity, sigma. simpl. cfield. }
  assert (HSi : replacement_matrix (VariationalExact.S_iterative iterative)
                  0%nat 0%nat = (851 / 100, 0)%R).
  { unfold replacement_matrix, scaled_identity, sigma. simpl.
    change (Z.of_nat 2 * 1) with 2. cfield. }
  assert (Hb : b 0%nat = (4, 0)%R).
  { unfold b, VariationalExact.rhs, matvec, mul_diag, adjoint, sigma. simpl.
    cfield. }
  assert (Hb' : VariationalExact.rhs iterative 0%nat = (4, 0)%R) by exact Hb.
  repeat split; try done.
  rewrite Hb in Hdirect. rewrite Hb' in Hcg.
  rewrite apply_replacement_matrix in Hcg by (simpl; lia).
  change (attached_cols (VariationalExact.S_iterative iterative)) with 1%nat in Hcg.
  unfold matvec in Hdirect, Hcg. cbn [sigma] in Hdirect, Hcg.
  rewrite HSd in Hdirect. rewrite HSi in Hcg.
  destruct (delta_direct 0%nat) as [dr di].
  destruct (delta_iterative 0%nat) as [ir ii].
  unfold Cplus, Cmult, C0 in Hdirect. cbn [fst snd] in Hdirect.
  injection Hdirect as Hdr Hdi.
  assert (Edr : dr = (400 / 401)%R) by lra.
  assert (Edi : di = 0%R) by lra.
  subst dr di. rewrite Cabs_real in *.
  pose proof (Cabs_ge_re (Cminus (Cplus C0 (Cmult (851 / 100, 0)%R (ir, ii))) (4, 0)%R)) as Hre.
  unfold Cminus, Cplus, Cmult, C0 in Hre. cbn [fst snd] in Hre.
  rewrite (Rabs_right 4) in Hcg by lra.
  assert (Hir : (ir < 48 / 100)%R).
  { apply Rle_trans with (r3 := (1 / 1000 * 4)%R) in Hre; [|exact Hcg].
    revert Hre. unfold Rabs. destruct (Rcase_abs _); intros; lra. }
  pose proof (Cabs_ge_re (Cminus (ir, ii) (400 / 401, 0)%R)) as Hdiff.
  unfold Cminus in Hdiff at 1. cbn [fst snd] in Hdiff.
  rewrite (Rabs_right (400 / 401)) by lra.
  apply Rlt_gt. eapply Rlt_le_trans; [|exact Hdiff].
  rewrite Rabs_left by lra. lra.
Qed.

Lemma UpdateParameters_paths_disagree_witness :
  let QR := fun (_ : nat) (_ : Mat) (_ : Vec) (_ : nat) => C0 in
  let LLT := fun (_ : nat) (_ : Mat) (_ : Vec) (_ : nat) => (400 / 401, 0)%R in
  let CG := fun (_ : nat) (_ : MatrixReplacement) (_ : Vec) (_ : nat) =>
              (400 / 851, 0)%R in
  (Cabs (Cminus
     (VariationalExact.grad_
        (VariationalExact.UpdateParameters QR LLT CG (two_sample_state true false)) 0%nat)
     (VariationalExact.grad_
        (VariationalExact.UpdateParameters QR LLT CG (two_sample_state false false)) 0%nat))
   > 1 / 2 *
     Cabs (VariationalExact.grad_
        (VariationalExact.UpdateParameters QR LLT CG (two_sample_state false false)) 0%nat))%R.
Proof.
  intros QR LLT CG.
  apply (UpdateParameters_paths_disagree QR LLT CG); subst QR LLT CG.
  - unfold VariationalExact.S_direct, VariationalExact.rhs.
    unfold matvec, matadd, matmul, mul_diag, adjoint, scaled_identity, sigma.
    simpl. cfield.
  - match goal with
    | |- (Cabs ?z <= _)%R => assert (H0 : z = (0, 0)%R)
    end.
    { unfold apply_replacement, VariationalExact.rhs.
      unfold matvec, mul_diag, adjoint, sigma, Cminus. simpl.
      change (Z.of_nat 2 * 1) with 2. cfield. }
    rewrite H0, Cabs_real, Rabs_R0.
    apply Rmult_le_pos; [lra|]. unfold Cabs. apply sqrt_pos.
Defined.

(* ------------------------------------------------------------------ *)
(** ** [VariationalExact]: the dimension [dim_] *)
(* ------------------------------------------------------------------ *)

(** X12.  For [0 <= nv_ <= 17] the constructor computes the central binomial
    coefficient: [dim_] is the number of ways to choose [nv_ / 2] sites among
    [nv_], that is [dim_ * (nv_/2)! * (nv_ - nv_/2)! = nv_!]. *)
Theorem construct_dim_is_binomial (nv : nat) :
  (nv <= 17)%nat ->
  exists dim,
    VariationalExact.construct_dim_ (Z.of_nat nv) = Return dim /\
    dim * (factorial (nv / 2) * factorial (nv - nv / 2)) = factorial nv.
Proof.
  intros Hnv.
  do 18 (destruct nv as [|nv]; [eexists; split; vm_compute; reflexivity|]).
  lia.
Qed.

Lemma construct_dim_is_binomial_witness :
  exists dim,
    VariationalExact.construct_dim_ (Z.of_nat 4) = Return dim /\
    dim * (factorial (4 / 2) * factorial (4 - 4 / 2)) = factorial 4.
Proof. apply (construct_dim_is_binomial 4). lia. Defined.

Lemma foldl_int_mul_Undefined (nv : Z) (l : list Z) :
  foldl (fun dim i => let* d := dim in VariationalExact.int_mul d (nv - i))
        Undefined l = Undefined.
Proof. induction l as [|i l IH]; [done|]. cbn [foldl bind]. exact IH. Qed.

(** A product is undefined, or it is in range and at least the product of
    lower bounds of its factors. *)
Lemma int_mul_cases (a b ca cb : Z) :
  0 <= ca <= a -> 0 <= cb <= b ->
  VariationalExact.int_mul a b = Undefined \/
  exists d, VariationalExact.int_mul a b = Return d /\ ca * cb <= d <= INT_MAX.
Proof.
  intros [Hca Ha] [Hcb Hb]. unfold VariationalExact.int_mul.
  destruct (_ && _) eqn:Hr; [right|by left].
  apply andb_true_iff in Hr as [_ Hr%Z.leb_le].
  eexists. split; [reflexivity|]. split; [|done].
  by apply Z.mul_le_mono_nonneg.
Qed.

Ltac int_mul_step ca cb :=
  match goal with
  | |- context [VariationalExact.int_mul ?a ?b] =>
      let d := fresh "d" in
      let H := fresh "H" in
      destruct (int_mul_cases a b ca cb) as [->|(d & -> & H)];
      [lia | lia | reflexivity | cbn [bind]]
  end.

(** X13.  From [nv_ = 18] on the product [nv_ * (nv_ - 1) * ...] of the first
    loop leaves the range of [int] before any division is made: [dim_] is
    not defined, although the binomial coefficient itself fits in an [int]
    up to [nv_ = 33]. *)
Theorem construct_dim_overflows (nv : Z) :
  18 <= nv -> VariationalExact.construct_dim_ nv = Undefined.
Proof.
  intros Hnv. unfold VariationalExact.construct_dim_.
  assert (Hhalf : 9 <= Z.quot nv 2) by (apply Z.quot_le_lower_bound; lia).
  replace (Z.quot nv 2) with (9 + (Z.quot nv 2 - 9)) by lia.
  rewrite seqZ_app by lia. rewrite foldl_app.
  assert (Hfirst :
    foldl (fun dim i => let* d := dim in VariationalExact.int_mul d (nv - i))
          (Return 1) (seqZ 0 9) = Undefined).
  { change (seqZ 0 9) with [0; 1; 2; 3; 4; 5; 6; 7; 8]. cbn [foldl bind].
    int_mul_step 1 18. int_mul_step 18 17. int_mul_step 306 16.
    int_mul_step 4896 15. int_mul_step 73440 14. int_mul_step 1028160 13.
    int_mul_step 13366080 12. int_mul_step 160392960 11.
    int_mul_step 1764322560 10.
    unfold INT_MAX in *. lia. }
  rewrite Hfirst. rewrite foldl_int_mul_Undefined. reflexivity.
Qed.

Lemma construct_dim_overflows_witness :
  VariationalExact.construct_dim_ 18 = Undefined.
Proof. apply (construct_dim_overflows 18). lia. Defined.

(** Sums of real and complex numbers. *)

Lemma Cnorm_Cexp (z : C) : Cnorm (Cexp z) = (exp z.1 * exp z.1)%R.
Proof.
  unfold Cnorm, Cexp. cbn [fst snd].
  pose proof (sin2_cos2 z.2) as H. unfold Rsqr in H. nra.
Qed.

Lemma Cnorm_Cexp_pos (z : C) : (0 < Cnorm (Cexp z))%R.
Proof. rewrite Cnorm_Cexp. pose proof (exp_pos z.1). nra. Qed.

Lemma rsigma_pos (n : nat) (f : nat -> R) :
  (1 <= n)%nat -> (forall i, 0 < f i)%R -> (0 < rsigma n f)%R.
Proof.
  intros Hn Hf. destruct n as [|n]; [lia|]. clear Hn.
  induction n as [|n IH]; cbn [rsigma] in *.
  - specialize (Hf 0%nat). lra.
  - specialize (Hf (S n)). lra.
Qed.

Lemma rsigma_nonneg (n : nat) (f : nat -> R) :
  (forall i, (i < n)%nat -> 0 <= f i)%R -> (0 <= rsigma n f)%R.
Proof.
  induction n as [|n IH]; intros Hf; cbn [rsigma]; [lra|].
  specialize (IH ltac:(intros i Hi; apply Hf; lia)).
  specialize (Hf n ltac:(lia)). lra.
Qed.

Lemma sigma_RtoC (n : nat) (f : nat -> R) :
  sigma n (fun i => RtoC (f i)) = RtoC (rsigma n f).
Proof.
  induction n as [|n IH]; [done|]. cbn [sigma rsigma]. rewrite IH.
  unfold RtoC, Cplus. cbn [fst snd]. f_equal. lra.
Qed.

Lemma sigma_minus (n : nat) (f g : nat -> C) :
  sigma n (fun i => Cminus (f i) (g i)) = Cminus (sigma n f) (sigma n g).
Proof.
  induction n as [|n IH]; [unfold Cminus, C0; cbn; f_equal; lra|].
  cbn [sigma]. rewrite IH. unfold Cminus, Cplus. cbn [fst snd]. f_equal; lra.
Qed.

(* ------------------------------------------------------------------ *)
(** ** The matrix [S] of the direct path is positive definite *)
(* ------------------------------------------------------------------ *)

Lemma Cmult_conj_norm (p y : C) :
  p.2 = 0%R -> Cmult (Cmult p y) (Cconj y) = RtoC (p.1 * Cnorm y).
Proof.
  destruct p as [a b], y as [c d]. cbn [snd]. intros ->.
  unfold Cmult, Cconj, RtoC, Cnorm. cbn [fst snd]. f_equal; ring.
Qed.

Lemma Cmult_plus_distr_l (c a b : C) :
  Cmult c (Cplus a b) = Cplus (Cmult c a) (Cmult c b).
Proof. unfold Cmult, Cplus. cbn [fst snd]. f_equal; ring. Qed.

(** The quadratic form of the shifted matrix [S] of the direct path. *)
Lemma S_norm_direct_value (st : VariationalExact.state) (x : Vec) :
  (forall k, (VariationalExact.psi2_ st k).2 = 0%R) ->
  S_norm_direct st x =
  RtoC (rsigma (VariationalExact.nsamp st)
          (fun k => (VariationalExact.psi2_ st k).1
                    * Cnorm (matvec (VariationalExact.npar st)
                               (VariationalExact.Ok_ st) x k))
        + VariationalExact.sr_diag_shift_ st
          * rsigma (VariationalExact.npar st) (fun i => Cnorm (x i)))%R.
Proof.
  intros Hreal. unfold S_norm_direct, VariationalExact.S_direct.
  set (n := VariationalExact.npar st). set (m := VariationalExact.nsamp st).
  set (O := VariationalExact.Ok_ st). set (p := VariationalExact.psi2_ st).
  set (shift := VariationalExact.sr_diag_shift_ st).
  set (y := matvec n O x).
  (* [S x] *)
  assert (HSx : forall i, (i < n)%nat ->
            matvec n (matadd (matmul m (mul_diag (adjoint O) p) O)
                             (scaled_identity shift)) x i =
            Cplus (sigma m (fun k => Cmult (Cmult (Cconj (O k i)) (p k)) (y k)))
                  (Cscale shift (x i))).
  { intros i Hi. unfold matvec at 1, matadd.
    rewrite (sigma_ext n _
               (fun j => Cplus (Cmult (matmul m (mul_diag (adjoint O) p) O i j) (x j))
                               (Cmult (scaled_identity shift i j) (x j))))
      by (intros j _; unfold Cplus, Cmult; cbn [fst snd]; f_equal; ring).
    rewrite sigma_plus, sigma_delta by done. f_equal.
    unfold matmul, mul_diag, adjoint.
    rewrite (sigma_ext n _
               (fun j => sigma m (fun k =>
                  Cmult (Cmult (Cmult (Cconj (O k i)) (p k)) (O k j)) (x j))))
      by (intros j _; by rewrite sigma_mult_r).
    rewrite sigma_swap. apply sigma_ext. intros k _.
    unfold y, matvec. rewrite <- sigma_mult_l. apply sigma_ext. intros j _.
    unfold Cmult. cbn [fst snd]. f_equal; ring. }
  unfold dot.
  rewrite (sigma_ext n _
             (fun i => Cplus
                (sigma m (fun k =>
                   Cmult (Cmult (p k) (y k)) (Cconj (Cmult (O k i) (x i)))))
                (RtoC (shift * Cnorm (x i)))))%R.
  2:{ intros i Hi. rewrite HSx by done.
      rewrite Cmult_plus_distr_l, <- sigma_mult_l. f_equal.
      - apply sigma_ext. intros k _.
        unfold Cmult, Cconj. cbn [fst snd]. f_equal; ring.
      - destruct (x i) as [c d].
        unfold Cmult, Cconj, Cscale, RtoC, Cnorm. cbn [fst snd].
        f_equal; ring. }
  rewrite sigma_plus, sigma_swap, sigma_RtoC.
  rewrite (sigma_ext m _ (fun k => RtoC ((p k).1 * Cnorm (y k)))%R).
  2:{ intros k _. rewrite sigma_mult_l, <- sigma_conj.
      fold (matvec n O x k). fold y. by apply Cmult_conj_norm. }
  rewrite sigma_RtoC. unfold Cplus, RtoC. cbn [fst snd]. f_equal; [|lra].
  f_equal. clear. induction n as [|n IH]; cbn [rsigma]; [lra|].
  rewrite IH. lra.
Qed.

(** X14.  With weights [psi2_] that are real and not negative, the matrix
    [S] that the direct path hands to the solver is positive definite as soon
    as the diagonal shift is positive: the quadratic form [x^H S x] is real
    and at least [sr_diag_shift_ * |x|^2]. *)
Theorem S_direct_positive_definite (st : VariationalExact.state) (x : Vec) :
  (forall k, (VariationalExact.psi2_ st k).2 = 0%R /\
             (0 <= (VariationalExact.psi2_ st k).1)%R) ->
  (S_norm_direct st x).2 = 0%R /\
  (VariationalExact.sr_diag_shift_ st
   * rsigma (VariationalExact.npar st) (fun i => Cnorm (x i))
   <= (S_norm_direct st x).1)%R.
Proof.
  intros Hp. rewrite S_norm_direct_value by (intros k; apply Hp).
  unfold RtoC. cbn [fst snd]. split; [reflexivity|].
  assert (0 <= rsigma (VariationalExact.nsamp st)
                 (fun k => (VariationalExact.psi2_ st k).1
                           * Cnorm (matvec (VariationalExact.npar st)
                                      (VariationalExact.Ok_ st) x k)))%R.
  { apply rsigma_nonneg. intros k _. apply Rmult_le_pos; [apply Hp|].
    unfold Cnorm. nra. }
  lra.
Qed.

Lemma S_direct_positive_definite_witness :
  let st := two_sample_state false false in
  let x : Vec := fun _ => C1 in
  (S_norm_direct st x).2 = 0%R /\
  (VariationalExact.sr_diag_shift_ st
   * rsigma (VariationalExact.npar st) (fun i => Cnorm (x i))
   <= (S_norm_direct st x).1)%R.
Proof.
  apply (S_direct_positive_definite (two_sample_state false false)
           (fun _ => C1)).
  intros k. cbn. destruct (Nat.eqb k 0); cbn; split; lra.
Defined.

Lemma rsigma_pos_at (n i : nat) (f : nat -> R) :
  (forall j, 0 <= f j)%R -> (i < n)%nat -> (0 < f i)%R -> (0 < rsigma n f)%R.
Proof.
  intros Hf Hi Hfi. induction n as [|n IH]; [lia|]. cbn [rsigma].
  destruct (decide (i = n)) as [->|Hne].
  - pose proof (rsigma_nonneg n f ltac:(intros j _; apply Hf)). lra.
  - specialize (IH ltac:(lia)). specialize (Hf n). lra.
Qed.

(* ------------------------------------------------------------------ *)
(** ** [VariationalExact::Gradient] *)
(* ------------------------------------------------------------------ *)

Lemma Cscale_1_l (z : C) : Cscale 1 z = z.
Proof. destruct z as [a b]. unfold Cscale. cbn [fst snd]. f_equal; ring. Qed.

Section GradientFacts.

Variable Eloc : nat -> C.
Variable DerLog : nat -> Vec.
Variable LogVal : nat -> C.

Let Gradient := VariationalExact.Gradient Eloc DerLog LogVal.

(** The weights [psi2_] that [Gradient] leaves sum to one. *)
Lemma Gradient_psi2_sum (others_grad : list Vec) (st : VariationalExact.state) :
  (1 <= VariationalExact.nsamp st)%nat ->
  sigma (VariationalExact.nsamp st)
        (VariationalExact.psi2_ (Gradient others_grad st).1.1) = C1.
Proof.
  intros Hn. unfold Gradient, VariationalExact.Gradient.
  cbn [fst snd VariationalExact.psi2_].
  rewrite sigma_divr, sigma_RtoC.
  pose proof (rsigma_pos (VariationalExact.nsamp st)
                (fun i => Cnorm (Cexp (LogVal i))) Hn
                (fun i => Cnorm_Cexp_pos (LogVal i))) as Hpos.
  unfold Cdivr, RtoC, C1. cbn [fst snd]. f_equal; field; lra.
Qed.

(** They are real and positive. *)
Lemma Gradient_psi2_positive (others_grad : list Vec)
    (st : VariationalExact.state) (k : nat) :
  (1 <= VariationalExact.nsamp st)%nat ->
  let st' := (Gradient others_grad st).1.1 in
  (VariationalExact.psi2_ st' k).2 = 0%R /\
  (0 < (VariationalExact.psi2_ st' k).1)%R.
Proof.
  intros Hn st'. subst st'.
  pose proof (rsigma_pos (VariationalExact.nsamp st)
                (fun i => Cnorm (Cexp (LogVal i))) Hn
                (fun i => Cnorm_Cexp_pos (LogVal i))) as Hpos.
  unfold Gradient, VariationalExact.Gradient.
  cbn [fst snd VariationalExact.psi2_]. unfold Cdivr, RtoC. cbn [fst snd].
  split; [field; lra|].
  apply Rdiv_lt_0_compat; [apply Cnorm_Cexp_pos | exact Hpos].
Qed.

(** X15.  After [Gradient] the weights [psi2_] are a probability
    distribution over the configurations (real, positive, of sum one) and
    both the log-derivatives [Ok_] and the local energies [elocs_] are
    centred with respect to it: their weighted means vanish. *)
Theorem Gradient_centres (others_grad : list Vec)
    (st : VariationalExact.state) :
  (1 <= VariationalExact.nsamp st)%nat ->
  let st' := (Gradient others_grad st).1.1 in
  let n := VariationalExact.nsamp st in
  let p := VariationalExact.psi2_ st' in
  (forall k, (p k).2 = 0%R /\ (0 < (p k).1)%R) /\
  sigma n p = C1 /\
  (forall i, sigma n (fun k => Cmult (VariationalExact.Ok_ st' k i) (p k)) = C0) /\
  sigma n (fun k => Cmult (VariationalExact.elocs_ st' k) (p k)) = C0.
Proof.
  intros Hn st' n p.
  pose proof (Gradient_psi2_sum others_grad st Hn) as Hsum.
  fold st' n p in Hsum.
  assert (Hcentre : forall (f : nat -> C),
            sigma n (fun k =>
              Cmult (Cminus (f k) (sigma n (fun j => Cmult (f j) (p j)))) (p k))
            = C0).
  { intros f.
    rewrite (sigma_ext n _
               (fun k => Cminus (Cmult (f k) (p k))
                           (Cmult (sigma n (fun j => Cmult (f j) (p j))) (p k))))
      by (intros k _; unfold Cminus, Cmult; cbn [fst snd]; f_equal; ring).
    rewrite sigma_minus, sigma_mult_l, Hsum.
    destruct (sigma n (fun j => Cmult (f j) (p j))) as [a b].
    unfold Cminus, Cmult, C1, C0. cbn [fst snd]. f_equal; ring. }
  split; [|split; [exact Hsum|split]].
  - intros k. by apply Gradient_psi2_positive.
  - intros i. apply (Hcentre (fun k => DerLog k i)).
  - rewrite <- (Hcentre Eloc). apply sigma_ext. intros k _. f_equal.
    change (VariationalExact.elocs_ st' k)
      with (Cminus (Eloc k)
              (Cscale 1 (sigma n (fun j => Cmult (Eloc j) (p j))))).
    f_equal. apply Cscale_1_l.
Qed.

(** X16.  The value [Gradient] reports as the energy variance is the
    weighted mean of the squared moduli of the centred local energies, and
    it is never negative. *)
Theorem Gradient_energy_variance (others_grad : list Vec)
    (st : VariationalExact.state) :
  (1 <= VariationalExact.nsamp st)%nat ->
  let st' := (Gradient others_grad st).1.1 in
  let x := (Gradient others_grad st).2 in
  x = rsigma (VariationalExact.nsamp st)
        (fun k => (VariationalExact.psi2_ st' k).1
                  * Cnorm (VariationalExact.elocs_ st' k))%R /\
  (0 <= x)%R.
Proof.
  intros Hn st' x.
  pose proof (fun k => Gradient_psi2_positive others_grad st k Hn) as Hp.
  cbv zeta in Hp. fold st' in Hp.
  set (n := VariationalExact.nsamp st).
  set (p := VariationalExact.psi2_ st') in *.
  set (e := VariationalExact.elocs_ st').
  assert (Hx : x = Cabs (dot n (fun k => Cmult (p k) (e k)) e)) by reflexivity.
  assert (Hdot : dot n (fun k => Cmult (p k) (e k)) e
                 = RtoC (rsigma n (fun k => (p k).1 * Cnorm (e k))%R)).
  { unfold dot. rewrite <- sigma_RtoC. apply sigma_ext. intros k _.
    destruct (Hp k) as [Him _]. destruct (p k) as [a b], (e k) as [c d].
    cbn [fst snd] in *. subst b.
    unfold Cmult, Cconj, RtoC, Cnorm. cbn [fst snd]. f_equal; ring. }
  assert (Hpos : (0 <= rsigma n (fun k => (p k).1 * Cnorm (e k)))%R).
  { apply rsigma_nonneg. intros k _. destruct (Hp k) as [_ Hk].
    apply Rmult_le_pos; [lra|]. unfold Cnorm. nra. }
  rewrite Hx, Hdot. unfold RtoC. rewrite Cabs_real, Rabs_pos_eq by done.
  split; [reflexivity | exact Hpos].
Qed.


(* ------------------------------------------------------------------ *)
(** ** [Gradient] followed by the direct path *)
(* ------------------------------------------------------------------ *)

(** X17.  The two compose: on the driver that [Gradient] leaves, with a
    positive diagonal shift, the quadratic form of the matrix [S] of the
    direct path is real and positive on every vector that is not zero, which
    is what the Cholesky factorisation requires. *)
Theorem Gradient_then_S_direct (others_grad : list Vec)
    (st : VariationalExact.state) (x : Vec) (i : nat) :
  (1 <= VariationalExact.nsamp st)%nat ->
  (0 < VariationalExact.sr_diag_shift_ st)%R ->
  (i < VariationalExact.npar st)%nat -> x i <> C0 ->
  let st' := (Gradient others_grad st).1.1 in
  (S_norm_direct st' x).2 = 0%R /\ (0 < (S_norm_direct st' x).1)%R.
Proof.
  intros Hn Hshift Hi Hx st'.
  pose proof (fun k => Gradient_psi2_positive others_grad st k Hn) as Hp.
  cbv zeta in Hp. fold st' in Hp.
  rewrite S_norm_direct_value by (intros k; apply Hp).
  unfold RtoC. cbn [fst snd]. split; [reflexivity|].
  assert (H1 : (0 <= rsigma (VariationalExact.nsamp st')
                 (fun k => (VariationalExact.psi2_ st' k).1
                           * Cnorm (matvec (VariationalExact.npar st')
                                      (VariationalExact.Ok_ st') x k)))%R).
  { apply rsigma_nonneg. intros k _. destruct (Hp k) as [_ Hk].
    apply Rmult_le_pos; [lra|]. unfold Cnorm. nra. }
  assert (H2 : (0 < rsigma (VariationalExact.npar st') (fun j => Cnorm (x j)))%R).
  { apply (rsigma_pos_at _ i); [intros j; unfold Cnorm; nra | exact Hi |].
    destruct (x i) as [a b]. unfold Cnorm, C0 in *. cbn [fst snd].
    destruct (Req_EM_T a 0) as [->|Ha]; [|nra].
    destruct (Req_EM_T b 0) as [->|Hb]; [done|nra]. }
  change (VariationalExact.sr_diag_shift_ st')
    with (VariationalExact.sr_diag_shift_ st).
  nra.
Qed.

End GradientFacts.

Lemma Gradient_centres_witness :
  let st := two_sample_state false false in
  let st' := (VariationalExact.Gradient (fun _ => C1) (fun _ _ => C1)
                (fun _ => C0) [] st).1.1 in
  let p := VariationalExact.psi2_ st' in
  (forall k, (p k).2 = 0%R /\ (0 < (p k).1)%R) /\
  sigma 2 p = C1 /\
  (forall i, sigma 2 (fun k => Cmult (VariationalExact.Ok_ st' k i) (p k)) = C0) /\
  sigma 2 (fun k => Cmult (VariationalExact.elocs_ st' k) (p k)) = C0.
Proof.
  apply (Gradient_centres (fun _ => C1) (fun _ _ => C1) (fun _ => C0) []
           (two_sample_state false false)).
  cbn. lia.
Defined.

Lemma Gradient_energy_variance_witness :
  let st := two_sample_state false false in
  let r := VariationalExact.Gradient (fun _ => C1) (fun _ _ => C1)
             (fun _ => C0) [] st in
  r.2 = rsigma 2 (fun k => (VariationalExact.psi2_ r.1.1 k).1
                           * Cnorm (VariationalExact.elocs_ r.1.1 k))%R /\
  (0 <= r.2)%R.
Proof.
  apply (Gradient_energy_variance (fun _ => C1) (fun _ _ => C1) (fun _ => C0)
           [] (two_sample_state false false)).
  cbn. lia.
Defined.

Lemma Gradient_then_S_direct_witness :
  let st := two_sample_state false false in
  let st' := (VariationalExact.Gradient (fun _ => C1) (fun _ _ => C1)
                (fun _ => C0) [] st).1.1 in
  (S_norm_direct st' (fun _ => C1)).2 = 0%R /\
  (0 < (S_norm_direct st' (fun _ => C1)).1)%R.
Proof.
  apply (Gradient_then_S_direct (fun _ => C1) (fun _ _ => C1) (fun _ => C0) []
           (two_sample_state false false) (fun _ => C1) 0%nat).
  - cbn. lia.
  - cbn. lra.
  - cbn. lia.
  - unfold C1, C0. intros [= H]. lra.
Defined.

(** ** Sample quota per process *)

Lemma Rfloor_IZR (z : Z) : Rfloor (IZR z) = z.
Proof. apply Rfloor_unique. lra. Qed.

Lemma Rceil_IZR (z : Z) : Rceil (IZR z) = z.
Proof. unfold Rceil. rewrite <- opp_IZR, Rfloor_IZR. lia. Qed.

Lemma Rfloor_div (a b : Z) : 0 < b -> Rfloor (IZR a / IZR b) = a / b.
Proof.
  intros Hb. apply Rfloor_unique.
  assert (Hbr : (0 < IZR b)%R) by (by apply IZR_lt).
  pose proof (Z.div_mod a b ltac:(lia)) as Hdm.
  pose proof (Z.mod_pos_bound a b Hb) as Hmod.
  assert (Ha : IZR a = (IZR b * IZR (a / b) + IZR (a mod b))%R).
  { rewrite <- mult_IZR, <- plus_IZR. by f_equal. }
  assert (H0 : (0 <= IZR (a mod b))%R) by (apply IZR_le; lia).
  assert (H1 : (IZR (a mod b) < IZR b)%R) by (apply IZR_lt; lia).
  split.
  - apply Rmult_le_reg_l with (r := IZR b); [done|].
    replace (IZR b * (IZR a / IZR b))%R with (IZR a) by (field; lra). lra.
  - apply Rmult_lt_reg_l with (r := IZR b); [done|].
    replace (IZR b * (IZR a / IZR b))%R with (IZR a) by (field; lra). lra.
Qed.

Lemma Rceil_div (a b : Z) : 0 < b -> Rceil (IZR a / IZR b) = ceil_div a b.
Proof.
  intros Hb. unfold Rceil, ceil_div. f_equal.
  replace (- (IZR a / IZR b))%R with (IZR (- a) / IZR b)%R
    by (rewrite opp_IZR; field; apply IZR_pos_neq0; lia).
  by apply Rfloor_div.
Qed.

Lemma ceil_div_spec (N P : Z) :
  0 < P -> P * (ceil_div N P - 1) < N <= P * ceil_div N P.
Proof.
  intros HP. unfold ceil_div.
  pose proof (Z.div_mod (- N) P ltac:(lia)) as Hdm.
  pose proof (Z.mod_pos_bound (- N) P HP) as Hmod. nia.
Qed.

Lemma to_int_IZR (z : Z) :
  INT_MIN <= z <= INT_MAX -> to_int (Fin (IZR z)) = Some z.
Proof.
  intros Hz. unfold to_int. rewrite Rceil_IZR, Rfloor_IZR.
  destruct (Rltb (IZR z) 0);
    (replace ((INT_MIN <=? z) && (z <=? INT_MAX)) with true; [done|];
     symmetry; apply andb_true_iff; split; apply Z.leb_le; lia).
Qed.

(** The expression [int(std::ceil(double(N) / double(P)))]. *)
Lemma quota_expression (N P : Z) :
  INT_MIN <= N <= INT_MAX -> 0 < P ->
  to_int (dceil (ddiv (to_double N) (to_double P))) = Some (ceil_div N P).
Proof.
  intros HN HP. unfold to_double.
  rewrite ddiv_fin by (by apply IZR_pos_neq0).
  cbn [dceil]. rewrite Rceil_div by done.
  apply to_int_IZR.
  pose proof (ceil_div_spec N P HP) as Hq.
  unfold INT_MIN, INT_MAX in *. nia.
Qed.

(** The expression [0.1 * nsamples_node_] converted to [int]. *)
Lemma tenth_expression (q : Z) :
  INT_MIN <= q <= INT_MAX ->
  to_int (dmul (Fin (/ 10)) (to_double q)) = Some (Z.quot q 10).
Proof.
  intros Hq. unfold to_double. rewrite dmul_fin.
  replace (/ 10 * IZR q)%R with (IZR q / IZR 10)%R by (field; lra).
  unfold to_int.
  assert (Hrange : forall t, INT_MIN <= t <= INT_MAX ->
            (INT_MIN <=? t) && (t <=? INT_MAX) = true)
    by (intros t Ht; apply andb_true_iff; split; apply Z.leb_le; lia).
  destruct (Z_lt_le_dec q 0) as [Hneg|Hpos].
  - rewrite Rltb_true.
    2:{ assert (IZR q < 0)%R by (by apply IZR_lt). lra. }
    rewrite Rceil_div by lia. unfold ceil_div.
    assert (Hquot : - (- q / 10) = Z.quot q 10).
    { rewrite <- (Z.opp_involutive q) at 2.
      rewrite Z.quot_opp_l by lia. rewrite Z.quot_div_nonneg by lia. done. }
    rewrite Hquot, Hrange; [done|].
    pose proof (Z.quot_le_upper_bound q 10 0) as Hu.
    assert (Z.quot q 10 <= 0) by (apply Z.quot_le_upper_bound; lia).
    assert (q <= Z.quot q 10).
    { rewrite <- Hquot.
      pose proof (Z.div_le_upper_bound (- q) 10 (- q) ltac:(lia) ltac:(lia)).
      lia. }
    unfold INT_MIN, INT_MAX in *. lia.
  - rewrite Rltb_false.
    2:{ assert (0 <= IZR q)%R by (by apply IZR_le). 
        apply Rmult_le_pos; [done|]. lra. }
    rewrite Rfloor_div by lia. rewrite Z.quot_div_nonneg by lia.
    rewrite Hrange; [done|].
    pose proof (Z.div_le_upper_bound q 10 q ltac:(lia) ltac:(lia)).
    pose proof (Z.div_pos q 10 ltac:(lia) ltac:(lia)).
    unfold INT_MIN, INT_MAX in *. lia.
Qed.

Lemma ceil_div_range (N P : Z) :
  INT_MIN <= N <= INT_MAX -> 0 < P -> INT_MIN <= ceil_div N P <= INT_MAX.
Proof.
  intros HN HP. pose proof (ceil_div_spec N P HP).
  unfold INT_MIN, INT_MAX in *. nia.
Qed.

(** ** [VariationalMonteCarlo] *)

Section DriverFacts.

Variable World MCResult Solver Gradient_t : Type.
Variable MPI_Comm_size MPI_Comm_rank Npar : World -> Z.
Variable IsHolomorphic : World -> bool.
Variable opt_Init : World -> Z -> bool -> World.
Variable SolverFromString : string -> option Solver.
Variable ComputeSamples : World -> Z -> Z -> MCResult * World.
Variable n_chains : MCResult -> Z.
Variable LocalValues : World -> MCResult -> list Complex.
Variable others_local_values : World -> list (list Complex).
Variable Gradient GradientOfVariance :
  World -> list Complex -> MCResult -> Gradient_t.
Variable UpdateParameters :
  World -> option (VariationalMonteCarlo.SR Solver) -> Gradient_t -> World.

Let Init :=
  VariationalMonteCarlo.Init World MCResult Solver MPI_Comm_size MPI_Comm_rank
    Npar IsHolomorphic opt_Init SolverFromString.

Let Advance :=
  VariationalMonteCarlo.Advance World MCResult Solver Gradient_t ComputeSamples
    n_chains LocalValues others_local_values Gradient GradientOfVariance
    UpdateParameters.

(** C9.  For a total sample count [N] and [P >= 1] processes, the quota of a
    process fixed by [Init], in [VariationalExact] and in
    [VariationalMonteCarlo], is [N / P] rounded up: the integer [q] with
    [P * (q - 1) < N <= P * q].  In [VariationalMonteCarlo] the driver that
    [Init] returns holds this quota, and [Init] does return one whenever its
    two checks pass ([use_cholesky] not set to true with a solver other than
    ["LLT"]; the method ["Gd"] or a solver name [SolverFromString] knows),
    whatever the target, the discarded samples and the other arguments. *)
Theorem sample_quota_is_ceiling (N P : Z) :
  INT_MIN <= N <= INT_MAX -> 0 < P ->
  P * (ceil_div N P - 1) < N <= P * ceil_div N P /\
  VariationalExact.Init_nsamples_node_ N P = Some (ceil_div N P) /\
  forall (w : World) (target : string)
         (discarded_samples discarded_samples_on_init : Z) (method : string)
         (diag_shift : double) (use_iterative : bool)
         (use_cholesky : option bool) (sr_lsq_solver : string),
    MPI_Comm_size (opt_Init w (Npar w) (IsHolomorphic w)) = P ->
    (forall st,
      (Init w target N discarded_samples discarded_samples_on_init method
            diag_shift use_iterative use_cholesky sr_lsq_solver).2 = Return st ->
      VariationalMonteCarlo.nsamples_node_ st = ceil_div N P) /\
    ((use_cholesky = Some true -> sr_lsq_solver = "LLT"%string) ->
     (method = "Gd"%string \/ SolverFromString sr_lsq_solver <> None) ->
     exists st,
      (Init w target N discarded_samples discarded_samples_on_init method
            diag_shift use_iterative use_cholesky sr_lsq_solver).2 = Return st /\
      VariationalMonteCarlo.nsamples_node_ st = ceil_div N P /\
      VariationalMonteCarlo.nsamples_ st = N /\
      VariationalMonteCarlo.totalnodes_ st = P).
Proof.
  intros HN HP. split; [by apply ceil_div_spec|]. split.
  - unfold VariationalExact.Init_nsamples_node_. by apply quota_expression.
  - intros w target ds dsi method diag_shift use_iterative use_cholesky
      sr_lsq_solver Hsize. split.
    + intros st.
      unfold Init, VariationalMonteCarlo.Init. rewrite Hsize.
      rewrite quota_expression by done.
      destruct (if ds =? -1 then _ else _) as [ndiscard|]; [|done].
      cbn [snd].
      destruct use_cholesky as [[|]|]; cbn [andb negb bind];
        repeat match goal with
        | |- context [if ?b then _ else _] => destruct b; cbn [bind]
        | |- context [match SolverFromString ?s with _ => _ end] =>
            destruct (SolverFromString s); cbn [bind]
        end;
        try done; intros [= <-]; done.
    + intros Hchol Hsolver.
      unfold Init, VariationalMonteCarlo.Init. rewrite Hsize.
      rewrite quota_expression by done.
      assert (Hdiscard : exists ndiscard,
                (if ds =? -1
                 then to_int (dmul (Fin (/ 10)) (to_double (ceil_div N P)))
                 else Some ds) = Some ndiscard).
      { destruct (ds =? -1); [|by eexists].
        rewrite tenth_expression by (by apply ceil_div_range). by eexists. }
      destruct Hdiscard as [ndiscard ->]. cbn [snd].
      assert (Hc : match use_cholesky with
                   | Some value =>
                       value && negb (String.eqb sr_lsq_solver "LLT") = false
                   | None => True
                   end).
      { destruct use_cholesky as [[|]|]; [|done|done].
        rewrite (Hchol eq_refl). done. }
      assert (Hs : String.eqb method "Gd" = true \/
                   exists solver, String.eqb method "Gd" = false /\
                     SolverFromString sr_lsq_solver = Some solver).
      { destruct (String.eqb method "Gd") eqn:Hm; [by left|right].
        destruct Hsolver as [->|Hsome]; [by rewrite String.eqb_refl in Hm|].
        destruct (SolverFromString sr_lsq_solver) as [solver|]; [|done].
        by exists solver. }
      destruct use_cholesky as [value|]; [rewrite Hc|]; cbn [bind];
        (destruct Hs as [->|(solver & -> & ->)]; cbn [bind];
         eexists; (split; [reflexivity|]); cbn; rewrite ?Hsize; done).
Qed.

(** C7 fails on the code.  [Init] builds an [InvalidInputError] for an
    unknown target and drops it without throwing: with the target ["foo"]
    (gradient-descent method, no discarded samples) the driver is
    initialised normally.  The first [Advance] then runs the sampler
    ([ComputeSamples]) and only afterwards, once [Statistics] has returned,
    throws a [std::runtime_error]. *)
Theorem Init_accepts_unknown_target (w : World) (N P : Z) (diag_shift : double)
    (steps : nat) :
  INT_MIN <= N <= INT_MAX -> 0 < P ->
  let w0 := opt_Init w (Npar w) (IsHolomorphic w) in
  MPI_Comm_size w0 = P ->
  exists st,
    Init w "foo" N 0 0 "Gd" diag_shift false None "LLT" = (w0, Return st) /\
    VariationalMonteCarlo.target_ st = "foo"%string /\
    let '(mc, w1) := ComputeSamples w0 (ceil_div N P) 0 in
    Advance (Z.of_nat (S steps)) w0 st =
    (w1,
     match Statistics (others_local_values w1) (LocalValues w1 mc) (n_chains mc)
     with
     | Return _ => Throw RuntimeError
     | Throw e => Throw e
     | Deadlock => Deadlock
     | Undefined => Undefined
     end).
Proof.
  intros HN HP w0 Hsize. eexists. split; [|split].
  - unfold Init, VariationalMonteCarlo.Init. fold w0. rewrite Hsize.
    rewrite quota_expression by done. reflexivity.
  - reflexivity.
  - unfold Advance, VariationalMonteCarlo.Advance.
    rewrite Nat2Z.id. cbn [VariationalMonteCarlo.Advance_loop].
    cbn [VariationalMonteCarlo.nsamples_node_ VariationalMonteCarlo.ndiscard_].
    destruct (ComputeSamples w0 (ceil_div N P) 0) as [mc w1].
    destruct (Statistics _ _ _); reflexivity.
Qed.

End DriverFacts.

Lemma sample_quota_is_ceiling_witness :
  4 * (ceil_div 10 4 - 1) < 10 <= 4 * ceil_div 10 4 /\
  VariationalExact.Init_nsamples_node_ 10 4 = Some (ceil_div 10 4) /\
  exists st : VariationalMonteCarlo.state unit unit,
    (VariationalMonteCarlo.Init unit unit unit (fun _ => 4) (fun _ => 0)
       (fun _ => 0) (fun _ => true) (fun w _ _ => w) (fun _ => Some tt)
       tt "energy" 10 (-1) 0 "Sr" (Fin (/ 100)) false None "LLT").2
    = Return st /\
    VariationalMonteCarlo.nsamples_node_ st = 3 /\
    VariationalMonteCarlo.nsamples_ st = 10 /\
    VariationalMonteCarlo.totalnodes_ st = 4.
Proof.
  pose proof (sample_quota_is_ceiling unit unit unit (fun _ => 4) (fun _ => 0)
                (fun _ => 0) (fun _ => true) (fun w _ _ => w)
                (fun _ => Some tt) 10 4) as H.
  destruct H as (H1 & H2 & H3).
  - unfold INT_MIN, INT_MAX. lia.
  - lia.
  - split; [exact H1|]. split; [exact H2|].
    destruct (H3 tt "energy"%string (-1) 0 "Sr"%string (Fin (/ 100)) false None
                 "LLT"%string eq_refl) as [_ H4].
    apply H4; [done|]. right. done.
Defined.

Lemma Init_accepts_unknown_target_witness :
  exists st : VariationalMonteCarlo.state unit unit,
    VariationalMonteCarlo.Init unit unit unit (fun _ => 1) (fun _ => 0)
      (fun _ => 2) (fun _ => true) (fun w _ _ => w) (fun _ => None)
      tt "foo" 1000 0 0 "Gd" (Fin (/ 100)) false None "LLT" = (tt, Return st) /\
    VariationalMonteCarlo.target_ st = "foo"%string.
Proof.
  destruct (Init_accepts_unknown_target unit unit unit unit
              (fun _ => 1) (fun _ => 0) (fun _ => 2) (fun _ => true)
              (fun w _ _ => w) (fun _ => None)
              (fun w _ _ => (tt, w)) (fun _ => 1) (fun _ _ => [czero])
              (fun _ => []) (fun _ _ _ => tt) (fun _ _ _ => tt)
              (fun w _ _ => w)
              tt 1000 1 (Fin (/ 100)) 0%nat)
    as (st & H1 & H2 & _).
  - unfold INT_MIN, INT_MAX. lia.
  - lia.
  - reflexivity.
  - exists st. split; [exact H1 | exact H2].
Defined.


(* ------------------------------------------------------------------ *)
(** ** Further properties of [VariationalMonteCarlo] *)
(* ------------------------------------------------------------------ *)

Section MoreDriverFacts.

Variable World MCResult Solver Gradient_t : Type.
Variable MPI_Comm_size MPI_Comm_rank Npar : World -> Z.
Variable IsHolomorphic : World -> bool.
Variable opt_Init : World -> Z -> bool -> World.
Variable SolverFromString : string -> option Solver.
Variable ComputeSamples : World -> Z -> Z -> MCResult * World.
Variable n_chains : MCResult -> Z.
Variable LocalValues : World -> MCResult -> list Complex.
Variable others_local_values : World -> list (list Complex).
Variable Gradient GradientOfVariance :
  World -> list Complex -> MCResult -> Gradient_t.
Variable UpdateParameters :
  World -> option (VariationalMonteCarlo.SR Solver) -> Gradient_t -> World.

Let Init :=
  VariationalMonteCarlo.Init World MCResult Solver MPI_Comm_size MPI_Comm_rank
    Npar IsHolomorphic opt_Init SolverFromString.

Let Advance :=
  VariationalMonteCarlo.Advance World MCResult Solver Gradient_t ComputeSamples
    n_chains LocalValues others_local_values Gradient GradientOfVariance
    UpdateParameters.

(** X18.  [Init] throws [InvalidInputError] in two cases only: when
    [use_cholesky] is set to true together with a solver other than ["LLT"],
    and when the method is not ["Gd"] and [SR::SolverFromString] does not know
    the solver.  With the method ["Gd"] the solver name is not looked at. *)
Theorem Init_throws_iff (w : World) (target : string)
    (N P discarded_samples discarded_samples_on_init : Z) (method : string)
    (diag_shift : double) (use_iterative : bool) (use_cholesky : option bool)
    (sr_lsq_solver : string) :
  INT_MIN <= N <= INT_MAX -> 0 < P ->
  MPI_Comm_size (opt_Init w (Npar w) (IsHolomorphic w)) = P ->
  let result :=
    (Init w target N discarded_samples discarded_samples_on_init method
          diag_shift use_iterative use_cholesky sr_lsq_solver).2 in
  let inconsistent :=
    use_cholesky = Some true /\ sr_lsq_solver <> "LLT"%string in
  let unknown_solver :=
    method <> "Gd"%string /\ SolverFromString sr_lsq_solver = None in
  (inconsistent \/ unknown_solver -> result = Throw InvalidInputError) /\
  (~ (inconsistent \/ unknown_solver) -> exists st, result = Return st).
Proof.
  intros HN HP Hsize result inconsistent unknown_solver.
  subst result inconsistent unknown_solver.
  unfold Init, VariationalMonteCarlo.Init. rewrite Hsize.
  rewrite quota_expression by done.
  assert (Hnd : exists nd,
            (if discarded_samples =? -1
             then to_int (dmul (Fin (/ 10)) (to_double (ceil_div N P)))
             else Some discarded_samples) = Some nd).
  { destruct (discarded_samples =? -1); [|by eexists].
    rewrite tenth_expression by (by apply ceil_div_range). by eexists. }
  destruct Hnd as [nd ->]. cbn [snd].
  destruct (String.eqb_spec sr_lsq_solver "LLT") as [HLLT|HLLT];
    destruct (String.eqb_spec method "Gd") as [HGd|HGd];
    destruct (SolverFromString sr_lsq_solver) as [solver|];
    destruct use_cholesky as [[|]|]; cbn [negb andb bind];
    (split; [intros [[? ?]|[? ?]]; (done || congruence)
            | intros Hn; try (by eexists);
              exfalso; apply Hn; (by left) || (by right)]).
Qed.

(** X19.  The solver is always the one named by [sr_lsq_solver]: unless
    [use_cholesky] makes [Init] throw, it has no effect at all, and in
    particular [use_cholesky = false] does not select the
    ["ColPivHouseholder"] solver that [Init] stores in [solver_str]. *)
Theorem Init_ignores_use_cholesky (w : World) (target : string)
    (N discarded_samples discarded_samples_on_init : Z) (method : string)
    (diag_shift : double) (use_iterative : bool) (use_cholesky : option bool)
    (sr_lsq_solver : string) :
  ~ (use_cholesky = Some true /\ sr_lsq_solver <> "LLT"%string) ->
  Init w target N discarded_samples discarded_samples_on_init method
       diag_shift use_iterative use_cholesky sr_lsq_solver =
  Init w target N discarded_samples discarded_samples_on_init method
       diag_shift use_iterative None sr_lsq_solver.
Proof.
  intros Hok. unfold Init, VariationalMonteCarlo.Init.
  destruct (to_int _) as [q|]; [|done].
  destruct (if discarded_samples =? -1 then _ else _) as [nd|]; [|done].
  f_equal.
  destruct use_cholesky as [[|]|]; [|done..].
  destruct (String.eqb_spec sr_lsq_solver "LLT") as [HLLT|HLLT]; [done|].
  exfalso. by apply Hok.
Qed.

(** X20.  When [discarded_samples] is left at [-1], the number of sweeps
    discarded before each sampling is a tenth of the quota of the process,
    rounded toward zero. *)
Theorem Init_default_discard (w : World) (target : string)
    (N P discarded_samples_on_init : Z) (method : string)
    (diag_shift : double) (use_iterative : bool) (use_cholesky : option bool)
    (sr_lsq_solver : string) (st : VariationalMonteCarlo.state MCResult Solver) :
  INT_MIN <= N <= INT_MAX -> 0 < P ->
  MPI_Comm_size (opt_Init w (Npar w) (IsHolomorphic w)) = P ->
  (Init w target N (-1) discarded_samples_on_init method diag_shift
        use_iterative use_cholesky sr_lsq_solver).2 = Return st ->
  VariationalMonteCarlo.ndiscard_ st = Z.quot (ceil_div N P) 10 /\
  VariationalMonteCarlo.ninitsamples_ st = discarded_samples_on_init.
Proof.
  intros HN HP Hsize. unfold Init, VariationalMonteCarlo.Init. rewrite Hsize.
  rewrite quota_expression by done. cbn [Z.eqb Pos.eqb].
  rewrite tenth_expression by (by apply ceil_div_range). cbn [snd].
  destruct use_cholesky as [[|]|]; cbn [andb negb bind];
    repeat match goal with
    | |- context [if ?b then _ else _] => destruct b; cbn [bind]
    | |- context [match SolverFromString ?s with _ => _ end] =>
        destruct (SolverFromString s); cbn [bind]
    end;
    try done; intros [= <-]; done.
Qed.

(** X21.  A driver whose target is neither ["energy"] nor ["variance"]
    never completes an [Advance] of one step or more. *)
Theorem Advance_unknown_target_never_returns (steps : Z) (w : World)
    (st : VariationalMonteCarlo.state MCResult Solver) :
  0 < steps ->
  VariationalMonteCarlo.target_ st <> "energy"%string ->
  VariationalMonteCarlo.target_ st <> "variance"%string ->
  returned (Advance steps w st).2 = false.
Proof.
  intros Hsteps He Hv.
  unfold Advance, VariationalMonteCarlo.Advance.
  destruct (Z.to_nat steps) as [|n] eqn:Hn; [lia|].
  cbn [VariationalMonteCarlo.Advance_loop].
  destruct (ComputeSamples _ _ _) as [mc w1].
  destruct (Statistics _ _ _); try done.
  cbn [VariationalMonteCarlo.target_ VariationalMonteCarlo.set_mc_data_
       VariationalMonteCarlo.set_observable_stats_].
  destruct (String.eqb_spec (VariationalMonteCarlo.target_ st) "energy");
    [done|].
  destruct (String.eqb_spec (VariationalMonteCarlo.target_ st) "variance");
    done.
Qed.

(** What [Advance] never changes. *)
Lemma Advance_loop_invariant (steps : nat) :
  forall (w w' : World) (st st' : VariationalMonteCarlo.state MCResult Solver),
    VariationalMonteCarlo.Advance_loop World MCResult Solver Gradient_t
      ComputeSamples n_chains LocalValues others_local_values Gradient
      GradientOfVariance UpdateParameters steps w st = (w', Return st') ->
    VariationalMonteCarlo.totalnodes_ st' = VariationalMonteCarlo.totalnodes_ st /\
    VariationalMonteCarlo.mynode_ st' = VariationalMonteCarlo.mynode_ st /\
    VariationalMonteCarlo.sr_ st' = VariationalMonteCarlo.sr_ st /\
    VariationalMonteCarlo.nsamples_ st' = VariationalMonteCarlo.nsamples_ st /\
    VariationalMonteCarlo.nsamples_node_ st' =
      VariationalMonteCarlo.nsamples_node_ st /\
    VariationalMonteCarlo.ninitsamples_ st' =
      VariationalMonteCarlo.ninitsamples_ st /\
    VariationalMonteCarlo.ndiscard_ st' = VariationalMonteCarlo.ndiscard_ st /\
    VariationalMonteCarlo.npar_ st' = VariationalMonteCarlo.npar_ st /\
    VariationalMonteCarlo.target_ st' = VariationalMonteCarlo.target_ st /\
    ((0 < steps)%nat ->
     is_Some (VariationalMonteCarlo.observable_stats_ st' !! "Energy"%string) /\
     is_Some (VariationalMonteCarlo.mc_data_ st')).
Proof.
  induction steps as [|steps IH]; intros w w' st st'.
  - cbn [VariationalMonteCarlo.Advance_loop]. intros [= <- <-].
    repeat split; try done; lia.
  - cbn [VariationalMonteCarlo.Advance_loop].
    destruct (ComputeSamples _ _ _) as [mc w1].
    destruct (Statistics _ _ _) as [stats| | |]; try done.
    set (st1 := VariationalMonteCarlo.set_observable_stats_ _ _ _ _).
    assert (Hkeep : forall w2,
              VariationalMonteCarlo.Advance_loop World MCResult Solver
                Gradient_t ComputeSamples n_chains LocalValues
                others_local_values Gradient GradientOfVariance
                UpdateParameters steps w2 st1 = (w', Return st') ->
              is_Some (VariationalMonteCarlo.observable_stats_ st'
                         !! "Energy"%string) /\
              is_Some (VariationalMonteCarlo.mc_data_ st')).
    { intros w2 Hrun. destruct steps as [|steps'].
      - cbn in Hrun. injection Hrun as <- <-. subst st1.
        cbn [VariationalMonteCarlo.observable_stats_
             VariationalMonteCarlo.set_observable_stats_
             VariationalMonteCarlo.mc_data_ VariationalMonteCarlo.set_mc_data_].
        split; [|done]. rewrite lookup_insert. done.
      - apply (IH w2 w' st1 st' Hrun). lia. }
    cbn [VariationalMonteCarlo.target_ VariationalMonteCarlo.set_mc_data_
         VariationalMonteCarlo.set_observable_stats_].
    destruct (String.eqb _ "energy");
      [|destruct (String.eqb _ "variance"); [|done]];
      intros Hrun; pose proof (Hkeep _ Hrun) as Hk;
      apply IH in Hrun as (H1 & H2 & H3 & H4 & H5 & H6 & H7 & H8 & H9 & _);
      subst st1; repeat split; try done; by apply Hk.
Qed.

(** X22.  An [Advance] that returns leaves the settings fixed by [Init]
    untouched (sample quota, discarded sweeps, target, SR options, number of
    parameters); after one step or more the driver holds the last sampling
    result and the statistics of the energy under the key ["Energy"]. *)
Theorem Advance_keeps_settings (steps : Z) (w w' : World)
    (st st' : VariationalMonteCarlo.state MCResult Solver) :
  Advance steps w st = (w', Return st') ->
  (VariationalMonteCarlo.sr_ st' = VariationalMonteCarlo.sr_ st /\
   VariationalMonteCarlo.nsamples_node_ st' =
     VariationalMonteCarlo.nsamples_node_ st /\
   VariationalMonteCarlo.ndiscard_ st' = VariationalMonteCarlo.ndiscard_ st /\
   VariationalMonteCarlo.npar_ st' = VariationalMonteCarlo.npar_ st /\
   VariationalMonteCarlo.target_ st' = VariationalMonteCarlo.target_ st) /\
  (0 < steps ->
   is_Some (VariationalMonteCarlo.observable_stats_ st' !! "Energy"%string) /\
   is_Some (VariationalMonteCarlo.mc_data_ st')).
Proof.
  unfold Advance, VariationalMonteCarlo.Advance. intros Hrun.
  apply Advance_loop_invariant in Hrun
    as (H1 & H2 & H3 & H4 & H5 & H6 & H7 & H8 & H9 & H10).
  split; [done|]. intros Hsteps. apply H10. lia.
Qed.

(** X23.  Steps compose: advancing by [a + b] steps is advancing by [a]
    steps and then, if that returned, by [b] more. *)
Theorem Advance_splits (a b : Z) (w : World)
    (st : VariationalMonteCarlo.state MCResult Solver) :
  0 <= a -> 0 <= b ->
  Advance (a + b) w st =
  match Advance a w st with
  | (w1, Return st1) => Advance b w1 st1
  | (w1, failure) => (w1, failure)
  end.
Proof.
  intros Ha Hb. unfold Advance, VariationalMonteCarlo.Advance.
  rewrite Z2Nat.inj_add by done.
  generalize (Z.to_nat b). intros nb.
  generalize (Z.to_nat a). intros na. clear.
  revert w st. induction na as [|na IH]; intros w st; [done|].
  cbn [Nat.add VariationalMonteCarlo.Advance_loop].
  destruct (ComputeSamples _ _ _) as [mc w1].
  destruct (Statistics _ _ _) as [stats| | |]; try done.
  destruct (String.eqb _ "energy"); [apply IH|].
  destruct (String.eqb _ "variance"); [apply IH|done].
Qed.

End MoreDriverFacts.

Lemma Init_throws_iff_witness :
  let result :=
    (VariationalMonteCarlo.Init unit unit unit (fun _ => 2) (fun _ => 0)
       (fun _ => 3) (fun _ => true) (fun w _ _ => w) (fun _ => None)
       tt "energy" 1000 (-1) 0 "Sr" (Fin (/ 100)) false (Some true) "QR").2 in
  result = Throw InvalidInputError.
Proof.
  destruct (Init_throws_iff unit unit unit (fun _ => 2) (fun _ => 0)
              (fun _ => 3) (fun _ => true) (fun w _ _ => w) (fun _ => None)
              tt "energy" 1000 2 (-1) 0 "Sr" (Fin (/ 100)) false (Some true)
              "QR") as [H _].
  - unfold INT_MIN, INT_MAX. lia.
  - lia.
  - reflexivity.
  - apply H. left. split; [reflexivity | discriminate].
Defined.

Lemma Init_ignores_use_cholesky_witness :
  VariationalMonteCarlo.Init unit unit nat (fun _ => 2) (fun _ => 0)
    (fun _ => 3) (fun _ => true) (fun w _ _ => w) (fun _ => Some 7%nat)
    tt "energy" 1000 (-1) 0 "Sr" (Fin (/ 100)) false (Some false) "LLT" =
  VariationalMonteCarlo.Init unit unit nat (fun _ => 2) (fun _ => 0)
    (fun _ => 3) (fun _ => true) (fun w _ _ => w) (fun _ => Some 7%nat)
    tt "energy" 1000 (-1) 0 "Sr" (Fin (/ 100)) false None "LLT".
Proof.
  apply (Init_ignores_use_cholesky unit unit nat (fun _ => 2) (fun _ => 0)
           (fun _ => 3) (fun _ => true) (fun w _ _ => w) (fun _ => Some 7%nat)).
  intros [H _]. discriminate H.
Defined.

Lemma Init_default_discard_witness :
  exists st : VariationalMonteCarlo.state unit unit,
    (VariationalMonteCarlo.Init unit unit unit (fun _ => 2) (fun _ => 0)
       (fun _ => 3) (fun _ => true) (fun w _ _ => w) (fun _ => None)
       tt "energy" 1000 (-1) 5 "Gd" (Fin (/ 100)) false None "LLT").2
      = Return st /\
    VariationalMonteCarlo.ndiscard_ st = Z.quot (ceil_div 1000 2) 10 /\
    VariationalMonteCarlo.ninitsamples_ st = 5.
Proof.
  assert (Hrun : exists st : VariationalMonteCarlo.state unit unit,
    (VariationalMonteCarlo.Init unit unit unit (fun _ => 2) (fun _ => 0)
       (fun _ => 3) (fun _ => true) (fun w _ _ => w) (fun _ => None)
       tt "energy" 1000 (-1) 5 "Gd" (Fin (/ 100)) false None "LLT").2
      = Return st).
  { unfold VariationalMonteCarlo.Init.
    rewrite quota_expression by (unfold INT_MIN, INT_MAX; lia).
    cbn [Z.eqb Pos.eqb].
    rewrite tenth_expression
      by (apply ceil_div_range; unfold INT_MIN, INT_MAX; lia).
    eexists. reflexivity. }
  destruct Hrun as [st Hst]. exists st. split; [exact Hst|].
  apply (Init_default_discard unit unit unit (fun _ => 2) (fun _ => 0)
           (fun _ => 3) (fun _ => true) (fun w _ _ => w) (fun _ => None)
           tt "energy" 1000 2 5 "Gd" (Fin (/ 100)) false None "LLT" st).
  - unfold INT_MIN, INT_MAX. lia.
  - lia.
  - reflexivity.
  - exact Hst.
Defined.

Lemma Advance_unknown_target_never_returns_witness :
  let st : VariationalMonteCarlo.state unit unit :=
    VariationalMonteCarlo.mkState 1 0 None ∅ None 10 10 0 1 3 "foo" in
  returned
    (VariationalMonteCarlo.Advance unit unit unit unit
       (fun w _ _ => (tt, w)) (fun _ => 1) (fun _ _ => [czero])
       (fun _ => []) (fun _ _ _ => tt) (fun _ _ _ => tt) (fun w _ _ => w)
       1 tt st).2 = false.
Proof.
  apply (Advance_unknown_target_never_returns unit unit unit unit
           (fun w _ _ => (tt, w)) (fun _ => 1) (fun _ _ => [czero])
           (fun _ => []) (fun _ _ _ => tt) (fun _ _ _ => tt) (fun w _ _ => w)
           1 tt); [lia | discriminate | discriminate].
Defined.

(** A run of the driver on one process whose sampler returns one chain with
    one sample: [Statistics] returns, and so does [Advance]. *)
Lemma Advance_one_chain_returns (steps : nat) :
  forall st : VariationalMonteCarlo.state unit unit,
    VariationalMonteCarlo.target_ st = "energy"%string ->
    exists st',
      VariationalMonteCarlo.Advance_loop unit unit unit unit
        (fun w _ _ => (tt, w)) (fun _ => 1) (fun _ _ => [czero])
        (fun _ => []) (fun _ _ _ => tt) (fun _ _ _ => tt) (fun w _ _ => w)
        steps tt st = (tt, Return st').
Proof.
  induction steps as [|steps IH]; intros st Ht; [by eexists|].
  cbn [VariationalMonteCarlo.Advance_loop].
  destruct (StatisticsLocal_returns [czero] 1) as [r Hr];
    [lia | reflexivity |].
  unfold Statistics, Statistics_local_part.
  cbn [length Z.of_nat Z.leb Z.compare Pos.of_succ_nat Pos.compare
       Pos.compare_cont NETKET_CHECK bind].
  rewrite Hr. cbn [bind peers_local_part Z.mul Z.of_nat length Pos.of_succ_nat
    Pos.mul Z.eqb Pos.eqb isnan negb andb fst snd].
  cbn [VariationalMonteCarlo.target_ VariationalMonteCarlo.set_mc_data_
       VariationalMonteCarlo.set_observable_stats_].
  rewrite Ht. cbn [String.eqb Ascii.eqb Bool.eqb].
  apply IH. exact Ht.
Qed.

Lemma Advance_keeps_settings_witness :
  let st : VariationalMonteCarlo.state unit unit :=
    VariationalMonteCarlo.mkState 1 0 None ∅ None 10 10 0 1 3 "energy" in
  exists st',
    VariationalMonteCarlo.Advance unit unit unit unit
      (fun w _ _ => (tt, w)) (fun _ => 1) (fun _ _ => [czero])
      (fun _ => []) (fun _ _ _ => tt) (fun _ _ _ => tt) (fun w _ _ => w)
      2 tt st = (tt, Return st') /\
    VariationalMonteCarlo.nsamples_node_ st' = 10 /\
    is_Some (VariationalMonteCarlo.observable_stats_ st' !! "Energy"%string).
Proof.
  intros st.
  destruct (Advance_one_chain_returns 2 st eq_refl) as [st' Hrun].
  exists st'.
  destruct (Advance_keeps_settings unit unit unit unit
              (fun w _ _ => (tt, w)) (fun _ => 1) (fun _ _ => [czero])
              (fun _ => []) (fun _ _ _ => tt) (fun _ _ _ => tt)
              (fun w _ _ => w) 2 tt tt st st' Hrun)
    as [(_ & Hq & _) Hlast].
  split; [exact Hrun|]. split; [exact Hq|]. apply Hlast. lia.
Defined.

Lemma Advance_splits_witness :
  let st : VariationalMonteCarlo.state unit unit :=
    VariationalMonteCarlo.mkState 1 0 None ∅ None 10 10 0 1 3 "energy" in
  let Advance :=
    VariationalMonteCarlo.Advance unit unit unit unit
      (fun w _ _ => (tt, w)) (fun _ => 1) (fun _ _ => [czero])
      (fun _ => []) (fun _ _ _ => tt) (fun _ _ _ => tt) (fun w _ _ => w) in
  Advance (1 + 2) tt st =
  match Advance 1 tt st with
  | (w1, Return st1) => Advance 2 w1 st1
  | (w1, failure) => (w1, failure)
  end.
Proof.
  apply (Advance_splits unit unit unit unit
           (fun w _ _ => (tt, w)) (fun _ => 1) (fun _ _ => [czero])
           (fun _ => []) (fun _ _ _ => tt) (fun _ _ _ => tt) (fun w _ _ => w)
           1 2 tt); lia.
Defined.

(** ** Indexed access *)

Lemma at_in_range {A} (l : list A) (i : Z) :
  0 <= i < Z.of_nat (length l) ->
  exists x, at_ l i = Return x /\ l !! Z.to_nat i = Some x.
Proof.
  intros Hi. unfold at_.
  replace ((0 <=? i) && (i <? Z.of_nat (length l))) with true
    by (symmetry; apply andb_true_iff; split; [apply Z.leb_le | apply Z.ltb_lt]; lia).
  destruct (lookup_lt_is_Some_2 l (Z.to_nat i)) as [x Hx]; [lia|].
  rewrite Hx. eauto.
Qed.

Lemma at_Return_inv {A} (l : list A) (i : Z) (x : A) :
  at_ l i = Return x ->
  0 <= i < Z.of_nat (length l) /\ l !! Z.to_nat i = Some x.
Proof.
  unfold at_. destruct (_ && _) eqn:E; [|done].
  apply andb_true_iff in E as [H1%Z.leb_le H2%Z.ltb_lt].
  destruct (l !! Z.to_nat i) eqn:El; [|done]. intros [= ->]. done.
Qed.

Lemma set_at_in_range {A} (l : list A) (i : Z) (x : A) :
  0 <= i < Z.of_nat (length l) ->
  set_at l i x = Return (<[Z.to_nat i := x]> l).
Proof.
  intros Hi. unfold set_at.
  replace ((0 <=? i) && (i <? Z.of_nat (length l))) with true; [done|].
  symmetry; apply andb_true_iff; split; [apply Z.leb_le | apply Z.ltb_lt]; lia.
Qed.

Lemma lookup_total_Some {A} `{Inhabited A} (l : list A) (i : nat) (x : A) :
  l !! i = Some x -> l !!! i = x.
Proof. apply list_lookup_total_correct. Qed.

(** ** [UpdateConf] on exchanged pairs of sites *)

(** Writing, pair after pair, the values the original configuration [v]
    holds at two sites into the other site of the pair permutes the
    configuration, provided no site occurs twice. *)
Lemma UpdateConf_swaps (v : list double) (A B : Z -> Z) (js : list Z) :
  forall cur : list double,
    NoDup js ->
    length cur = length v ->
    (forall j, j ∈ js ->
       0 <= A j < Z.of_nat (length v) /\ 0 <= B j < Z.of_nat (length v) /\
       A j <> B j /\
       cur !! Z.to_nat (A j) = v !! Z.to_nat (A j) /\
       cur !! Z.to_nat (B j) = v !! Z.to_nat (B j)) ->
    (forall j j', j ∈ js -> j' ∈ js -> j <> j' ->
       A j <> A j' /\ A j <> B j' /\ B j <> A j' /\ B j <> B j') ->
    exists out,
      UpdateConf cur (flat_map (fun j => [A j; B j]) js)
        (flat_map (fun j => [v !!! Z.to_nat (B j); v !!! Z.to_nat (A j)]) js)
      = Return out /\
      out ≡ₚ cur.
Proof.
  induction js as [|j js IH]; intros cur Hnd Hlen Hin Hdis.
  - exists cur. done.
  - apply NoDup_cons in Hnd as [Hj Hnd].
    destruct (Hin j) as (HA & HB & HAB & HcA & HcB); [by left|].
    destruct (lookup_lt_is_Some_2 v (Z.to_nat (A j))) as [a Ha]; [lia|].
    destruct (lookup_lt_is_Some_2 v (Z.to_nat (B j))) as [b Hb]; [lia|].
    cbn [flat_map app UpdateConf].
    rewrite (lookup_total_Some _ _ _ Ha), (lookup_total_Some _ _ _ Hb).
    rewrite set_at_in_range by lia. cbn [bind].
    rewrite set_at_in_range by (rewrite length_insert; lia). cbn [bind].
    set (cur' := <[Z.to_nat (B j) := a]> (<[Z.to_nat (A j) := b]> cur)).
    assert (Hperm : cur' ≡ₚ cur).
    { apply Permutation_insert_swap; congruence. }
    destruct (IH cur') as (out & Hout & Hp).
    + done.
    + unfold cur'. by rewrite !length_insert.
    + intros j' Hj'. destruct (Hin j') as (HA' & HB' & HAB' & HcA' & HcB');
        [by right|].
      assert (j <> j') by (intros ->; done).
      destruct (Hdis j j') as (D1 & D2 & D3 & D4); [by left | by right | done|].
      split; [done|]. split; [done|]. split; [done|].
      unfold cur'. rewrite !list_lookup_insert_ne by lia. done.
    + intros j1 j2 H1 H2 Hne. apply Hdis; [by right | by right | done].
    + exists out. split; [done|]. by rewrite Hp.
Qed.

(** ** Clusters *)

Lemma GenerateClusters_valid (dist : nat -> nat -> Z) (nv : nat) (dmax : Z)
    (c : list Z) :
  c ∈ GenerateClusters dist nv dmax ->
  exists i j, c = [Z.of_nat i; Z.of_nat j] /\ (i < nv)%nat /\ (j < nv)%nat /\ i <> j.
Proof.
  intros Hc%list_elem_of_In. unfold GenerateClusters in Hc.
  apply in_flat_map in Hc as (i & Hi%in_seq & Hc).
  apply in_flat_map in Hc as (j & Hj%in_seq & Hc).
  destruct (_ && _) eqn:E; [|done].
  apply andb_true_iff in E as [_ Hne%negb_true_iff%Nat.eqb_neq].
  destruct Hc as [<-|[]]. exists i, j. repeat split; (done || lia).
Qed.

Lemma same_frame_refl {rng LT : Type} (st : MetropolisGlobal.state rng LT) :
  same_frame st st.
Proof. by repeat split. Qed.

Lemma same_frame_trans {rng LT : Type}
    (st1 st2 st3 : MetropolisGlobal.state rng LT) :
  same_frame st1 st2 -> same_frame st2 st3 -> same_frame st1 st3.
Proof.
  intros (A1 & A2 & A3 & A4 & A5 & A6) (B1 & B2 & B3 & B4 & B5 & B6).
  repeat split; try congruence. by rewrite B6.
Qed.

Lemma wf_sampler_frame {rng LT : Type} (st st' : MetropolisGlobal.state rng LT) :
  wf_sampler st -> same_frame st st' -> wf_sampler st'.
Proof.
  intros (W1 & W2 & W3 & W4 & W5 & W6 & W7 & W8) (A1 & A2 & A3 & A4 & A5 & A6).
  unfold wf_sampler. rewrite A1, A2, A3, A4, A5.
  repeat split; try done.
  apply Permutation_length in A6. congruence.
Qed.

Lemma dgt_dsub_self (a : double) : dgt (dsub a a) epsilon = false.
Proof.
  unfold dgt, dsub, epsilon. destruct a; try reflexivity.
  cbn [dneg dadd dlt]. apply Rltb_false.
  replace (r + - r)%R with 0%R by ring.
  left. apply Rinv_0_lt_compat. apply pow_lt. lra.
Qed.

Lemma increment_in_range (x : list double) (i : Z) :
  0 <= i < Z.of_nat (length x) ->
  exists x', MetropolisGlobal.increment x i = Return x' /\ length x' = length x.
Proof.
  intros Hi. unfold MetropolisGlobal.increment.
  destruct (at_in_range x i Hi) as (xi & -> & _). cbn [bind].
  rewrite set_at_in_range by done. eexists. split; [done|].
  by rewrite length_insert.
Qed.

Lemma site_injective (L a b j j' : Z) :
  0 <= j < L -> 0 <= j' < L -> a * L + j = b * L + j' -> a = b /\ j = j'.
Proof.
  intros Hj Hj' Heq.
  assert (Hd : (b - a) * L = j - j') by lia.
  destruct (Z.lt_trichotomy a b) as [Hlt|[->|Hgt]].
  - assert (L <= (b - a) * L) by nia. lia.
  - lia.
  - assert ((b - a) * L <= - L) by nia. lia.
Qed.

(** ** Evaluating comparisons of doubles *)


Lemma dgt_fin_false (a b : R) : (a <= b)%R -> dgt (Fin a) (Fin b) = false.
Proof. intros H. unfold dgt, dlt. by apply Rltb_false. Qed.

Lemma epsilon_bounds : (0 < / 2 ^ 52 < 1)%R.
Proof.
  assert (H : (1 < 2 ^ 52)%R) by (apply Rlt_pow_R1; [lra | lia]).
  split.
  - apply Rinv_0_lt_compat. lra.
  - rewrite <- Rinv_1. apply Rinv_lt_contravar; lra.
Qed.


(** Runs a sampler on given draws: the program is evaluated up to the next
    comparison of two real numbers, which is then decided. *)
Ltac real_side :=
  pose proof epsilon_bounds; unfold Rabs; repeat destruct (Rcase_abs _); lra.

Ltac sampler_run :=
  repeat (lazy -[IZR Rltb Rabs pow Rplus Rminus Rmult Ropp Rinv Rdiv];
          first [ rewrite Rltb_true by real_side
                | rewrite Rltb_false by real_side ]).

(** ** [MetropolisGlobal::Init] *)

(** On [k * k] sites the side is found: [sqrt (k * k) + 0.5] truncates to
    [k]. *)
Lemma Init_L_side (k : Z) :
  0 <= k -> k <= INT_MAX -> MetropolisGlobal.Init_L_ (k * k) = Some k.
Proof.
  intros Hk Hmax. unfold MetropolisGlobal.Init_L_, to_double.
  rewrite mult_IZR.
  assert (Hkr : (0 <= IZR k)%R) by (by apply IZR_le).
  rewrite dsqrt_fin by nra. rewrite sqrt_square by done. rewrite dadd_fin.
  unfold to_int. rewrite Rltb_false by lra.
  rewrite (Rfloor_unique k) by lra.
  replace ((INT_MIN <=? k) && (k <=? INT_MAX)) with true; [done|].
  symmetry. apply andb_true_iff.
  split; apply Z.leb_le; unfold INT_MIN in *; lia.
Qed.

(** On three sites [sqrt 3 + 0.5] lies between 2 and 3: [L_ = 2], and the
    [2] x [2] view has one entry more than the configuration. *)
Lemma Init_L_three : MetropolisGlobal.Init_L_ 3 = Some 2.
Proof.
  unfold MetropolisGlobal.Init_L_, to_double.
  rewrite dsqrt_fin by lra. rewrite dadd_fin.
  assert (H1 : (3 / 2 <= sqrt 3)%R).
  { rewrite <- (sqrt_square (3 / 2)) by lra. apply sqrt_le_1_alt. lra. }
  assert (H2 : (sqrt 3 < 5 / 2)%R).
  { rewrite <- (sqrt_square (5 / 2)) by lra. apply sqrt_lt_1_alt. lra. }
  unfold to_int. rewrite Rltb_false by lra.
  rewrite (Rfloor_unique 2) by lra. reflexivity.
Qed.

(** On a square lattice with a pair of distinct sites within [dmax], [Init]
    leaves a sampler whose configuration holds the [L_] x [L_] view.
    [RandomVals] writes through an [Eigen::Ref] and cannot change the number
    of entries. *)
Lemma Init_on_square_lattice {rng LookupType : Type}
    (psi_ : MetropolisGlobal.WfType LookupType)
    (RandomVals : list double -> rng -> list double * rng)
    (dist : nat -> nat -> Z) (dmax k : Z) (storage : nat -> double)
    (seeded : rng) (lt : LookupType) :
  1 <= k -> k * k <= INT_MAX ->
  GenerateClusters dist (Z.to_nat (k * k)) dmax <> [] ->
  (forall v g, length (RandomVals v g).1 = length v) ->
  exists st,
    MetropolisGlobal.Init rng LookupType psi_ RandomVals dist dmax (k * k)
      storage seeded lt = Return st /\
    MetropolisGlobal.nv_ st = k * k /\
    MetropolisGlobal.L_ st = k /\
    wf_sampler st.
Proof.
  intros Hk Hmax Hne Hlen. unfold MetropolisGlobal.Init.
  rewrite Init_L_side by nia.
  eexists. split; [reflexivity|].
  unfold MetropolisGlobal.Reset.
  cbn [MetropolisGlobal.v_ MetropolisGlobal.rgen_].
  pose proof (Hlen (map storage (seq 0 (Z.to_nat (k * k)))) seeded) as Hl.
  destruct (RandomVals _ seeded) as [v rgen]. cbn [fst] in Hl.
  rewrite length_map, length_seq in Hl.
  cbn [MetropolisGlobal.nv_ MetropolisGlobal.L_ MetropolisGlobal.clusters_
       MetropolisGlobal.lt_ MetropolisGlobal.v_ MetropolisGlobal.accept_
       MetropolisGlobal.moves_].
  split; [done|]. split; [done|].
  unfold wf_sampler.
  cbn [MetropolisGlobal.nv_ MetropolisGlobal.L_ MetropolisGlobal.clusters_
       MetropolisGlobal.lt_ MetropolisGlobal.v_ MetropolisGlobal.accept_
       MetropolisGlobal.moves_].
  split; [nia|]. split; [done|]. split; [done|]. split; [done|].
  split; [done|]. split; [lia|]. split; [done|].
  by exists dist, dmax.
Qed.

(** ** [MetropolisGlobal::Sweep] *)

Section MetropolisGlobalFacts.

Variable rng : Type.
Variable uniform_real : rng -> double * rng.
Variable uniform_int : Z -> Z -> rng -> Z * rng.
Variable std_exp : Complex -> Complex.
Variable LookupType : Type.
Variable psi_ : MetropolisGlobal.WfType LookupType.

Let state := MetropolisGlobal.state rng LookupType.
Let metropolis_test :=
  MetropolisGlobal.metropolis_test rng uniform_real std_exp LookupType psi_.
Let Sweep_body :=
  MetropolisGlobal.Sweep_body rng uniform_real uniform_int std_exp LookupType psi_.
Let Sweep_loop :=
  MetropolisGlobal.Sweep_loop rng uniform_real uniform_int std_exp LookupType psi_.
Let Sweep :=
  MetropolisGlobal.Sweep rng uniform_real uniform_int std_exp LookupType psi_.

Lemma metropolis_test_frame (which : Z) (tochange : list Z)
    (newconf : list double) (st : state) :
  0 <= which < Z.of_nat (length (MetropolisGlobal.accept_ st)) ->
  (exists v', UpdateConf (MetropolisGlobal.v_ st) tochange newconf = Return v' /\
              v' ≡ₚ MetropolisGlobal.v_ st) ->
  exists st', metropolis_test which tochange newconf st = Return st' /\
              same_frame st st'.
Proof.
  intros Hwhich (v' & Hv' & Hperm).
  unfold metropolis_test, MetropolisGlobal.metropolis_test.
  destruct (uniform_real (MetropolisGlobal.rgen_ st)) as [u rgen].
  destruct (dgt _ u).
  - destruct (increment_in_range _ _ Hwhich) as (accept & -> & Hlen).
    cbn [bind]. rewrite Hv'. cbn [bind].
    eexists. split; [done|]. by repeat split.
  - eexists. split; [done|]. by repeat split.
Qed.

Lemma line_swap_loop_spec (cols : bool) (v : list double) (L r : Z) :
  let r' := Z.rem (r + 1) L in
  let site (c j : Z) := if cols then c * L + j else j * L + c in
  let cond (j : Z) :=
    dgt (dsub (v !!! Z.to_nat (site r j)) (v !!! Z.to_nat (site r' j)))
        epsilon = true in
  0 <= r < L -> L * L <= Z.of_nat (length v) ->
  forall (js : list Z) (tochange : list Z) (newconf : list double),
    (forall j, j ∈ js -> 0 <= j < L) ->
    MetropolisGlobal.line_swap_loop cols v L r js tochange newconf =
    Return (tochange ++ flat_map (fun j => [site r j; site r' j]) (filter cond js),
            newconf ++ flat_map (fun j => [v !!! Z.to_nat (site r' j);
                                           v !!! Z.to_nat (site r j)])
                                (filter cond js)).
Proof.
  intros r' site cond Hr HL.
  assert (Hr' : 0 <= r' < L) by (apply Z.rem_bound_pos; lia).
  assert (Hsite : forall c j, 0 <= c < L -> 0 <= j < L ->
                              0 <= site c j < Z.of_nat (length v)).
  { intros c j Hc Hj. unfold site. destruct cols; nia. }
  induction js as [|j js IH]; intros tochange newconf Hjs.
  - simpl. by rewrite !app_nil_r.
  - assert (Hj : 0 <= j < L) by (apply Hjs; by left).
    cbn [MetropolisGlobal.line_swap_loop]. fold r'.
    change (if cols then r * L + j else j * L + r) with (site r j).
    change (if cols then r' * L + j else j * L + r') with (site r' j).
    destruct (at_in_range v (site r j)) as (a & -> & Ha); [by apply Hsite|].
    destruct (at_in_range v (site r' j)) as (b & -> & Hb); [by apply Hsite|].
    cbn [bind].
    assert (Hcond : cond j <-> dgt (dsub a b) epsilon = true).
    { unfold cond.
      by rewrite (lookup_total_Some _ _ _ Ha), (lookup_total_Some _ _ _ Hb). }
    destruct (dgt (dsub a b) epsilon) eqn:E.
    + rewrite IH by (intros j' Hj'; apply Hjs; by right).
      rewrite filter_cons_True by (by apply Hcond).
      cbn [flat_map].
      rewrite (lookup_total_Some _ _ _ Ha), (lookup_total_Some _ _ _ Hb).
      by rewrite <- !app_assoc.
    + rewrite IH by (intros j' Hj'; apply Hjs; by right).
      rewrite filter_cons_False; [done|].
      intros Hc. apply Hcond in Hc. done.
Qed.

Lemma line_swap_permutes (cols : bool) (v : list double) (L r : Z) :
  let r' := Z.rem (r + 1) L in
  let site (c j : Z) := if cols then c * L + j else j * L + c in
  let cond (j : Z) :=
    dgt (dsub (v !!! Z.to_nat (site r j)) (v !!! Z.to_nat (site r' j)))
        epsilon = true in
  0 <= r < L -> L * L <= Z.of_nat (length v) ->
  exists out,
    UpdateConf v
      (flat_map (fun j => [site r j; site r' j]) (filter cond (seqZ 0 L)))
      (flat_map (fun j => [v !!! Z.to_nat (site r' j); v !!! Z.to_nat (site r j)])
                (filter cond (seqZ 0 L)))
    = Return out /\ out ≡ₚ v.
Proof.
  intros r' site cond Hr HL.
  assert (Hr' : 0 <= r' < L) by (apply Z.rem_bound_pos; lia).
  assert (Hsite : forall c j, 0 <= c < L -> 0 <= j < L ->
                              0 <= site c j < Z.of_nat (length v)).
  { intros c j Hc Hj. unfold site. destruct cols; nia. }
  assert (Hjs : forall j, j ∈ filter cond (seqZ 0 L) -> 0 <= j < L /\ cond j).
  { intros j [Hc Hj%elem_of_seqZ]%list_elem_of_filter. split; [lia | done]. }
  apply (UpdateConf_swaps v (site r) (site r')).
  - apply NoDup_filter, NoDup_seqZ.
  - done.
  - intros j Hj. destruct (Hjs j Hj) as [Hrange Hc].
    split; [by apply Hsite|]. split; [by apply Hsite|]. split; [|done].
    intros Heq. unfold cond in Hc. rewrite Heq, dgt_dsub_self in Hc. done.
  - intros j j' Hj Hj' Hne.
    destruct (Hjs j Hj) as [Hrange _]. destruct (Hjs j' Hj') as [Hrange' _].
    unfold site.
    destruct cols; repeat split; intros Heq;
      apply site_injective in Heq as [? ?]; lia.
Qed.

Hypothesis uniform_int_range :
  forall (a b : Z) (g : rng), a <= b -> a <= (uniform_int a b g).1 <= b.

Lemma Sweep_body_frame (st : state) :
  wf_sampler st ->
  exists st',
    Sweep_body (0, Z.of_nat (length (MetropolisGlobal.clusters_ st)) - 1)
               (0, MetropolisGlobal.L_ st - 1) st = Return st' /\
    same_frame st st'.
Proof.
  intros (Hnv & Hv & Hacc & Hmov & HL1 & HLL & Hne & dist & dmax & Hcl).
  unfold Sweep_body, MetropolisGlobal.Sweep_body.
  destruct (uniform_real (MetropolisGlobal.rgen_ st)) as [u rgen].
  cbn [MetropolisGlobal.set_rgen MetropolisGlobal.rgen_ MetropolisGlobal.clusters_
       MetropolisGlobal.v_ MetropolisGlobal.L_ MetropolisGlobal.moves_ fst snd].
  destruct (dgt u (Fin (2 / 10))).
  - (* exchange of the two sites of a cluster *)
    pose proof (uniform_int_range 0
      (Z.of_nat (length (MetropolisGlobal.clusters_ st)) - 1) rgen) as Hrcl.
    destruct (uniform_int 0 _ rgen) as [rcl rgen'].
    cbn [fst] in Hrcl.
    assert (Hlen : (0 < length (MetropolisGlobal.clusters_ st))%nat)
      by (destruct (MetropolisGlobal.clusters_ st); [done | simpl; lia]).
    destruct (at_in_range (MetropolisGlobal.clusters_ st) rcl) as (cluster & -> & Hc);
      [lia|].
    cbn [bind].
    apply list_elem_of_lookup_2 in Hc. rewrite Hcl in Hc.
    apply GenerateClusters_valid in Hc as (i & j & -> & Hi & Hj & _).
    change (at_ [Z.of_nat i; Z.of_nat j] 0) with (Return (A:=Z) (Z.of_nat i)).
    change (at_ [Z.of_nat i; Z.of_nat j] 1) with (Return (A:=Z) (Z.of_nat j)).
    cbn [bind].
    destruct (at_in_range (MetropolisGlobal.v_ st) (Z.of_nat i)) as (vsi & -> & Hvsi);
      [lia|].
    destruct (at_in_range (MetropolisGlobal.v_ st) (Z.of_nat j)) as (vsj & -> & Hvsj);
      [lia|].
    cbn [bind].
    set (st1 := MetropolisGlobal.set_rgen rng LookupType
                  (MetropolisGlobal.set_rgen rng LookupType st rgen) rgen').
    assert (Hf1 : same_frame st st1) by (by repeat split).
    assert (Htest : exists st2,
      (if dgt (dabs (dsub vsi vsj)) epsilon
       then metropolis_test 0 [Z.of_nat i; Z.of_nat j] [vsj; vsi] st1
       else Return st1) = Return st2 /\ same_frame st1 st2).
    { destruct (dgt _ epsilon).
      - apply metropolis_test_frame.
        + cbn. rewrite Hacc. lia.
        + cbn [st1 MetropolisGlobal.set_rgen MetropolisGlobal.v_ UpdateConf].
          rewrite set_at_in_range by lia. cbn [bind].
          rewrite set_at_in_range by (rewrite length_insert; lia). cbn [bind].
          eexists. split; [done|].
          by apply Permutation_insert_swap.
      - exists st1. split; [done | apply same_frame_refl]. }
    destruct Htest as (st2 & Htest & Hf2).
    fold metropolis_test. fold st1. rewrite Htest. cbn [bind].
    destruct Hf2 as (F1 & F2 & F3 & F4 & F5 & F6).
    destruct (increment_in_range (MetropolisGlobal.moves_ st2) 0) as (moves & -> & Hm).
    { rewrite F5. cbn. rewrite Hmov. lia. }
    cbn [bind]. eexists. split; [done|].
    apply (same_frame_trans _ st1); [done|].
    unfold same_frame. cbn.
    repeat split; try done; try congruence; by rewrite Hm, F5.
  - (* exchange of two neighbouring lines of the lattice *)
    pose proof (uniform_int_range 0 (MetropolisGlobal.L_ st - 1) rgen) as Hr.
    destruct (uniform_int 0 _ rgen) as [r rgen'].
    cbn [fst] in Hr. specialize (Hr ltac:(lia)).
    destruct (uniform_real rgen') as [u' rgen''].
    assert (Hr1 : 0 <= r < MetropolisGlobal.L_ st) by lia.
    assert (HLv : MetropolisGlobal.L_ st * MetropolisGlobal.L_ st
                  <= Z.of_nat (length (MetropolisGlobal.v_ st))) by lia.
    rewrite (line_swap_loop_spec (dgt u' (Fin (/ 2))) (MetropolisGlobal.v_ st)
               (MetropolisGlobal.L_ st) r Hr1 HLv)
      by (intros j Hj%elem_of_seqZ; lia).
    cbn [bind app].
    set (st1 := MetropolisGlobal.set_rgen rng LookupType _ rgen'').
    assert (Hf1 : same_frame st st1) by (by repeat split).
    destruct (line_swap_permutes (dgt u' (Fin (/ 2))) (MetropolisGlobal.v_ st)
                (MetropolisGlobal.L_ st) r Hr1 HLv)
      as (out & Hout & Hperm).
    match goal with
    | |- context [if negb ?b then MetropolisGlobal.metropolis_test _ _ _ _ _ 1 ?tc ?nc st1 else _] =>
        assert (Htest : exists st2,
          (if negb b then metropolis_test 1 tc nc st1 else Return st1)
          = Return st2 /\ same_frame st1 st2)
    end.
    { destruct (negb _).
      - apply metropolis_test_frame.
        + cbn. rewrite Hacc. lia.
        + exists out. split; [exact Hout | exact Hperm].
      - exists st1. split; [done | apply same_frame_refl]. }
    destruct Htest as (st2 & Htest & Hf2).
    fold metropolis_test. rewrite Htest. cbn [bind].
    destruct Hf2 as (F1 & F2 & F3 & F4 & F5 & F6).
    destruct (increment_in_range (MetropolisGlobal.moves_ st2) 1) as (moves & -> & Hm).
    { rewrite F5. cbn. rewrite Hmov. lia. }
    cbn [bind]. eexists. split; [done|].
    apply (same_frame_trans _ st1); [done|].
    unfold same_frame. cbn.
    repeat split; try done; try congruence; by rewrite Hm, F5.
Qed.

Lemma Sweep_loop_frame (n : nat) (st0 : state) :
  forall st : state,
    wf_sampler st -> same_frame st0 st ->
    exists st',
      Sweep_loop n
        (0, Z.of_nat (length (MetropolisGlobal.clusters_ st0)) - 1)
        (0, MetropolisGlobal.L_ st0 - 1) st = Return st' /\
      same_frame st st'.
Proof.
  induction n as [|n IH]; intros st Hwf Hf.
  - exists st. split; [done | apply same_frame_refl].
  - cbn [Sweep_loop MetropolisGlobal.Sweep_loop].
    destruct (Sweep_body_frame st Hwf) as (st1 & Hbody & Hf1).
    destruct Hf as (F1 & F2 & F3 & F4 & F5 & F6).
    rewrite <- F3, <- F2.
    unfold Sweep_body in Hbody. rewrite Hbody. cbn [bind].
    destruct (IH st1) as (st' & Hloop & Hf').
    + by apply (wf_sampler_frame st).
    + apply (same_frame_trans _ st); [by repeat split | done].
    + exists st'. split.
      * rewrite <- F3, <- F2 in Hloop. exact Hloop.
      * by apply (same_frame_trans _ st1).
Qed.

Lemma Sweep_permutes (st : state) :
  wf_sampler st ->
  exists st', Sweep st = Return st' /\
              MetropolisGlobal.v_ st' ≡ₚ MetropolisGlobal.v_ st.
Proof.
  intros Hwf. pose proof Hwf as (Hnv & Hv & Hacc & Hmov & HL1 & HLL & Hne & _).
  unfold Sweep, MetropolisGlobal.Sweep, uniform_int_distribution.
  assert (Hlen : (0 < length (MetropolisGlobal.clusters_ st))%nat)
    by (destruct (MetropolisGlobal.clusters_ st); [done | simpl; lia]).
  replace (0 <=? Z.of_nat (length (MetropolisGlobal.clusters_ st)) - 1) with true
    by (symmetry; apply Z.leb_le; lia).
  replace (0 <=? MetropolisGlobal.L_ st - 1) with true
    by (symmetry; apply Z.leb_le; lia).
  cbn [bind].
  destruct (Sweep_loop_frame (Z.to_nat (MetropolisGlobal.nv_ st)) st st Hwf
              (same_frame_refl st)) as (st' & Hloop & Hf).
  exists st'. split; [exact Hloop|]. apply Hf.
Qed.

Lemma dadd_comm (x y : double) : dadd x y = dadd y x.
Proof. destruct x, y; try reflexivity. cbn. f_equal. ring. Qed.

Lemma dadd_assoc (x y z : double) : dadd x (dadd y z) = dadd (dadd x y) z.
Proof. destruct x, y, z; try reflexivity. cbn. f_equal. ring. Qed.

Lemma dsum_Permutation (l k : list double) : l ≡ₚ k -> dsum l = dsum k.
Proof.
  induction 1 as [|x l k _ IH|x y l|l k j _ IH1 _ IH2].
  - done.
  - change (dadd x (dsum l) = dadd x (dsum k)). by rewrite IH.
  - change (dadd y (dadd x (dsum l)) = dadd x (dadd y (dsum l))).
    rewrite !dadd_assoc. f_equal. apply dadd_comm.
  - congruence.
Qed.

(** A sweep conserves the sum of the local values (total magnetisation,
    particle number). *)
Lemma Sweep_conserves_total (st : state) :
  wf_sampler st ->
  exists st', Sweep st = Return st' /\
              dsum (MetropolisGlobal.v_ st') = dsum (MetropolisGlobal.v_ st).
Proof.
  intros Hwf. destruct (Sweep_permutes st Hwf) as (st' & HS & Hperm).
  exists st'. split; [done | by apply dsum_Permutation].
Qed.

(** *** [ExchangeKernel::operator()] *)

Lemma swap_permutes (row : list double) (si sj : Z) :
  0 <= si < Z.of_nat (length row) -> 0 <= sj < Z.of_nat (length row) ->
  exists row', ExchangeKernel.swap row si sj = Return row' /\ row' ≡ₚ row.
Proof.
  intros Hsi Hsj. unfold ExchangeKernel.swap.
  destruct (at_in_range row si Hsi) as (a & -> & Ha).
  destruct (at_in_range row sj Hsj) as (b & -> & Hb).
  cbn [bind]. rewrite set_at_in_range by done. cbn [bind].
  rewrite set_at_in_range by (rewrite length_insert; lia).
  eexists. split; [done|]. by apply Permutation_insert_swap.
Qed.

Lemma ExchangeKernel_permutes (dist : nat -> nat -> Z) (nv : nat) (dmax : Z)
    (k : ExchangeKernel.state) (v : list (list double))
    (log_acceptance_correction : list double) (rgen : rng) :
  ExchangeKernel.Init dist nv dmax = Return k ->
  Forall (fun row => length row = nv) v ->
  exists vnew rgen',
    ExchangeKernel.call rng uniform_int k v log_acceptance_correction rgen =
    Return (vnew, map (fun _ => Fin 0) log_acceptance_correction, rgen') /\
    Forall2 (≡ₚ) vnew v.
Proof.
  unfold ExchangeKernel.Init, uniform_int_distribution.
  destruct (Z.leb_spec 0 (Z.of_nat (length (GenerateClusters dist nv dmax)) - 1))
    as [Hlen|]; [|done].
  cbn [bind]. intros [= <-] Hrows.
  unfold ExchangeKernel.call.
  assert (Hloop : exists vnew rgen',
    ExchangeKernel.rows_loop rng uniform_int
      {| ExchangeKernel.nv_ := Z.of_nat nv;
         ExchangeKernel.clusters_ := GenerateClusters dist nv dmax;
         ExchangeKernel.distcl_ :=
           (0, Z.of_nat (length (GenerateClusters dist nv dmax)) - 1) |}
      v rgen = Return (vnew, rgen') /\ Forall2 (≡ₚ) vnew v).
  { revert rgen. induction Hrows as [|row v Hrow Hrows IH]; intros rgen.
    - exists [], rgen. split; [done | constructor].
    - cbn [ExchangeKernel.rows_loop ExchangeKernel.distcl_
           ExchangeKernel.clusters_ fst snd].
      pose proof (uniform_int_range 0
        (Z.of_nat (length (GenerateClusters dist nv dmax)) - 1) rgen Hlen) as Hrcl.
      destruct (uniform_int 0 _ rgen) as [rcl rgen1]. cbn [fst] in Hrcl.
      destruct (at_in_range (GenerateClusters dist nv dmax) rcl)
        as (cluster & -> & Hc); [lia|].
      cbn [bind]. apply list_elem_of_lookup_2 in Hc.
      apply GenerateClusters_valid in Hc as (i & j & -> & Hi & Hj & _).
      change (at_ [Z.of_nat i; Z.of_nat j] 0) with (Return (A:=Z) (Z.of_nat i)).
      change (at_ [Z.of_nat i; Z.of_nat j] 1) with (Return (A:=Z) (Z.of_nat j)).
      cbn [bind].
      destruct (swap_permutes row (Z.of_nat i) (Z.of_nat j))
        as (row' & -> & Hperm); [lia | lia |].
      cbn [bind].
      destruct (IH rgen1) as (vnew & rgen' & -> & Hall).
      cbn [bind fst snd]. exists (row' :: vnew), rgen'.
      split; [done | by constructor]. }
  destruct Hloop as (vnew & rgen' & -> & Hall).
  cbn [bind fst snd]. eauto.
Qed.

(** C10.  A sweep of [MetropolisGlobal] and a call of [ExchangeKernel] only
    exchange the values held at pairs of sites: each returns, and the
    configuration it leaves (each row, for the kernel) is a permutation of
    the one it started from, whatever the values of the configuration and the
    random draws.  For [MetropolisGlobal] this holds of a sampler whose
    configuration holds the [L_] x [L_] view and which has a cluster
    ([wf_sampler]); [Init] builds such a sampler on [k * k] sites when some
    pair of distinct sites is within [dmax].  For the kernel it holds once
    [Init] has returned, on rows of [nv] entries. *)
Theorem exchange_moves_preserve_multiset :
  (forall st : state,
     wf_sampler st ->
     exists st', Sweep st = Return st' /\
                 MetropolisGlobal.v_ st' ≡ₚ MetropolisGlobal.v_ st) /\
  (forall (dist : nat -> nat -> Z) (nv : nat) (dmax : Z)
          (k : ExchangeKernel.state) (v : list (list double))
          (log_acceptance_correction : list double) (rgen : rng),
     ExchangeKernel.Init dist nv dmax = Return k ->
     Forall (fun row => length row = nv) v ->
     exists vnew rgen',
       ExchangeKernel.call rng uniform_int k v log_acceptance_correction rgen =
       Return (vnew, map (fun _ => Fin 0) log_acceptance_correction, rgen') /\
       Forall2 (≡ₚ) vnew v) /\
  (forall (RandomVals : list double -> rng -> list double * rng)
          (dist : nat -> nat -> Z) (dmax k : Z) (storage : nat -> double)
          (seeded : rng) (lt : LookupType),
     1 <= k -> k * k <= INT_MAX ->
     GenerateClusters dist (Z.to_nat (k * k)) dmax <> [] ->
     (forall v g, length (RandomVals v g).1 = length v) ->
     exists st : state,
       MetropolisGlobal.Init rng LookupType psi_ RandomVals dist dmax (k * k)
         storage seeded lt = Return st /\
       wf_sampler st).
Proof.
  split; [|split].
  - apply Sweep_permutes.
  - apply ExchangeKernel_permutes.
  - intros RandomVals dist dmax k storage seeded lt Hk Hmax Hne Hlen.
    destruct (Init_on_square_lattice psi_ RandomVals dist dmax k storage
                seeded lt Hk Hmax Hne Hlen) as (st & Hinit & _ & _ & Hwf).
    by exists st.
Qed.

(** *** The acceptance test *)

Lemma bind_Return_inv {A B : Type} (c : outcome A) (k : A -> outcome B) (y : B) :
  bind c k = Return y -> exists x, c = Return x /\ k x = Return y.
Proof. destruct c; [eauto | done | done | done]. Qed.

Let tested := move_tested std_exp psi_ (rng:=rng).

Lemma metropolis_test_inv (which : Z) (tochange : list Z)
    (newconf : list double) (st st' : state) :
  metropolis_test which tochange newconf st = Return st' ->
  MetropolisGlobal.moves_ st' = MetropolisGlobal.moves_ st /\
  tested st st' which tochange newconf
         (uniform_real (MetropolisGlobal.rgen_ st)).1.
Proof.
  unfold metropolis_test, MetropolisGlobal.metropolis_test, tested, move_tested.
  destruct (uniform_real (MetropolisGlobal.rgen_ st)) as [u rgen]. cbn [fst].
  destruct (dgt _ u) eqn:E.
  - intros (accept & Hacc & H)%bind_Return_inv.
    apply bind_Return_inv in H as (v & Hv & [= <-]).
    split; [done|]. left. by repeat split.
  - intros [= <-]. split; [done|]. right. by repeat split.
Qed.






End MetropolisGlobalFacts.

Lemma exchange_moves_preserve_multiset_witness :
  let psi := MetropolisGlobal.mkWf unit (fun _ => czero) (fun _ _ _ _ => czero)
               (fun _ l => l) (fun _ _ _ l => l) in
  let uniform_real := fun g : nat =>
    (Fin (match g with
          | 0%nat | 2%nat | 4%nat => / 10
          | 6%nat => 3 / 4
          | _ => / 2
          end), S g) in
  let uniform_int := fun (_ b : Z) (g : nat) => (b, S g) in
  let std_exp := fun _ : Complex => mkComplex (Fin 1) (Fin 0) in
  let st := MetropolisGlobal.mkState 4 2 0%nat
              [Fin (-1); Fin 1; Fin 1; Fin 1] [Fin 0; Fin 0] [Fin 0; Fin 0]
              (GenerateClusters (fun _ _ => 1) 4 1) tt in
  exists st',
    MetropolisGlobal.Sweep nat uniform_real uniform_int std_exp unit psi st
      = Return st' /\
    MetropolisGlobal.v_ st' ≡ₚ MetropolisGlobal.v_ st /\
    MetropolisGlobal.v_ st' = [Fin 1; Fin 1; Fin 1; Fin (-1)] /\
    MetropolisGlobal.accept_ st' = [Fin (0 + 1 + 1); Fin (0 + 1 + 1)] /\
    MetropolisGlobal.moves_ st' = [Fin (0 + 1 + 1); Fin (0 + 1 + 1)].
Proof.
  intros psi uniform_real uniform_int std_exp st.
  destruct (exchange_moves_preserve_multiset nat uniform_real uniform_int
              std_exp unit psi) as [Hsweep _].
  - intros a b g Hab. cbn. lia.
  - destruct (Hsweep st) as (st' & Hrun & Hperm).
    + unfold wf_sampler. cbn.
      repeat split; try lia; try done.
      exists (fun _ _ => 1), 1. reflexivity.
    + exists st'. split; [exact Hrun|]. split; [exact Hperm|].
      assert (Hval : exists st2,
                MetropolisGlobal.Sweep nat uniform_real uniform_int std_exp
                  unit psi st = Return st2 /\
                MetropolisGlobal.v_ st2 = [Fin 1; Fin 1; Fin 1; Fin (-1)] /\
                MetropolisGlobal.accept_ st2
                  = [Fin (0 + 1 + 1); Fin (0 + 1 + 1)] /\
                MetropolisGlobal.moves_ st2
                  = [Fin (0 + 1 + 1); Fin (0 + 1 + 1)]).
      { eexists. split; [sampler_run; reflexivity|].
        split; [reflexivity|]. split; reflexivity. }
      destruct Hval as (st2 & Hrun2 & Hv).
      rewrite Hrun in Hrun2. injection Hrun2 as <-. exact Hv.
Defined.

(** The claim C10 as it was made, for every sampler and every draw, fails on
    a sampler that the code builds: on three sites [Init] returns with
    [L_ = 2], and a sweep whose first draw chooses a line move reads the
    entry of index 3 of a configuration of three entries. *)
Lemma Sweep_three_sites_counterexample :
  let psi := MetropolisGlobal.mkWf unit (fun _ => czero) (fun _ _ _ _ => czero)
               (fun _ l => l) (fun _ _ _ l => l) in
  let dist := fun i j : nat => Z.abs (Z.of_nat i - Z.of_nat j) in
  let RandomVals := fun (_ : list double) (g : unit) =>
                      ([Fin 1; Fin (-1); Fin 1], g) in
  exists st,
    MetropolisGlobal.Init unit unit psi RandomVals dist 1 3 (fun _ => Fin 0) tt tt
      = Return st /\
    MetropolisGlobal.nv_ st = 3 /\
    MetropolisGlobal.L_ st = 2 /\
    MetropolisGlobal.v_ st = [Fin 1; Fin (-1); Fin 1] /\
    MetropolisGlobal.clusters_ st = [[0; 1]; [1; 0]; [1; 2]; [2; 1]] /\
    MetropolisGlobal.Sweep unit (fun g => (Fin 0, g)) (fun a _ g => (a, g))
      (fun z => z) unit psi st = Undefined.
Proof.
  intros psi dist RandomVals.
  unfold MetropolisGlobal.Init. rewrite Init_L_three.
  exists (MetropolisGlobal.mkState 3 2 tt [Fin 1; Fin (-1); Fin 1]
            [Fin 0; Fin 0] [Fin 0; Fin 0] [[0; 1]; [1; 0]; [1; 2]; [2; 1]] tt).
  split; [reflexivity|].
  repeat (split; [reflexivity|]).
  sampler_run. reflexivity.
Qed.


(* ------------------------------------------------------------------ *)
(** ** Further properties of the samplers *)
(* ------------------------------------------------------------------ *)

Lemma GenerateClusters_elem (dist : nat -> nat -> Z) (nv : nat) (dmax : Z)
    (c : list Z) :
  c ∈ GenerateClusters dist nv dmax <->
  exists i j, c = [Z.of_nat i; Z.of_nat j] /\ (i < nv)%nat /\ (j < nv)%nat /\
              i <> j /\ dist i j <= dmax.
Proof.
  unfold GenerateClusters. rewrite list_elem_of_In. split.
  - intros (i & Hi & Hc)%in_flat_map.
    apply in_flat_map in Hc as (j & Hj & Hc).
    apply in_seq in Hi, Hj.
    destruct (dist i j <=? dmax) eqn:Hd; [|by destruct Hc].
    destruct (Nat.eqb_spec i j) as [|Hne]; [by destruct Hc|].
    cbn in Hc. destruct Hc as [<-|[]].
    exists i, j. apply Z.leb_le in Hd. repeat split; (done || lia).
  - intros (i & j & -> & Hi & Hj & Hne & Hd).
    apply in_flat_map. exists i. split; [apply in_seq; lia|].
    apply in_flat_map. exists j. split; [apply in_seq; lia|].
    replace (dist i j <=? dmax) with true by (symmetry; by apply Z.leb_le).
    destruct (Nat.eqb_spec i j); [done|]. cbn. by left.
Qed.

Lemma NoDup_flat_map {A B} (f : A -> list B) (l : list A) :
  NoDup l -> (forall x, x ∈ l -> NoDup (f x)) ->
  (forall x1 x2 y, x1 ∈ l -> x2 ∈ l -> y ∈ f x1 -> y ∈ f x2 -> x1 = x2) ->
  NoDup (flat_map f l).
Proof.
  induction 1 as [|x l Hx Hl IH]; intros Hf Hdisj; [constructor|].
  cbn [flat_map]. apply NoDup_app. split; [|split].
  - apply Hf. left.
  - intros y Hy Hy2. apply list_elem_of_In, in_flat_map in Hy2 as (x2 & Hx2 & Hy2).
    apply list_elem_of_In in Hx2, Hy2.
    assert (x = x2) as <- by (eapply Hdisj; [left | by right | done | done]).
    done.
  - apply IH.
    + intros z Hz. apply Hf. by right.
    + intros x1 x2 y H1 H2. apply Hdisj; by right.
Qed.

(** X24.  [GenerateClusters] lists exactly the ordered pairs of distinct
    sites of the lattice whose distance is at most [dmax], each of them
    once. *)
Theorem GenerateClusters_spec (dist : nat -> nat -> Z) (nv : nat) (dmax : Z) :
  NoDup (GenerateClusters dist nv dmax) /\
  forall c : list Z,
    c ∈ GenerateClusters dist nv dmax <->
    exists i j, c = [Z.of_nat i; Z.of_nat j] /\ (i < nv)%nat /\ (j < nv)%nat /\
                i <> j /\ dist i j <= dmax.
Proof.
  split; [|intros c; apply GenerateClusters_elem].
  unfold GenerateClusters.
  assert (Hcell : forall i j (y : list Z),
            y ∈ (if (dist i j <=? dmax) && negb (Nat.eqb i j)
                 then [[Z.of_nat i; Z.of_nat j]] else []) ->
            y = [Z.of_nat i; Z.of_nat j]).
  { intros i j y. destruct (_ && _); [|by intros ?%elem_of_nil].
    by intros ->%list_elem_of_singleton. }
  apply NoDup_flat_map; [apply NoDup_seq| |].
  - intros i _. apply NoDup_flat_map; [apply NoDup_seq| |].
    + intros j _. destruct (_ && _); [apply NoDup_singleton | constructor].
    + intros j1 j2 y _ _ H1%Hcell H2%Hcell. rewrite H1 in H2.
      injection H2 as H2. lia.
  - intros i1 i2 y _ _ H1 H2.
    apply list_elem_of_In, in_flat_map in H1 as (j1 & _ & H1).
    apply list_elem_of_In, in_flat_map in H2 as (j2 & _ & H2).
    apply list_elem_of_In, Hcell in H1. apply list_elem_of_In, Hcell in H2.
    rewrite H1 in H2. injection H2 as H2 _. lia.
Qed.

(** X25.  Without a single pair of distinct sites within [dmax] there is no
    cluster to draw from: [ExchangeKernel::Init] then builds a uniform
    distribution over the empty range [[0, -1]], which is not defined;
    as soon as there is such a pair it returns a kernel that draws among all
    the clusters. *)
Theorem ExchangeKernel_Init_defined (dist : nat -> nat -> Z) (nv : nat)
    (dmax : Z) :
  ((forall i j, (i < nv)%nat -> (j < nv)%nat -> i <> j -> dmax < dist i j) ->
   ExchangeKernel.Init dist nv dmax = Undefined) /\
  (forall i j, (i < nv)%nat -> (j < nv)%nat -> i <> j -> dist i j <= dmax ->
   exists k,
     ExchangeKernel.Init dist nv dmax = Return k /\
     ExchangeKernel.clusters_ k = GenerateClusters dist nv dmax /\
     ExchangeKernel.distcl_ k =
       (0, Z.of_nat (length (GenerateClusters dist nv dmax)) - 1)).
Proof.
  unfold ExchangeKernel.Init, uniform_int_distribution. split.
  - intros Hfar.
    assert (Hnil : GenerateClusters dist nv dmax = []).
    { destruct (GenerateClusters dist nv dmax) as [|c l] eqn:E; [done|].
      assert (Hc : c ∈ GenerateClusters dist nv dmax)
        by (rewrite E; apply list_elem_of_here).
      apply GenerateClusters_elem in Hc as (i & j & _ & Hi & Hj & Hne & Hd).
      specialize (Hfar i j Hi Hj Hne). lia. }
    rewrite Hnil. reflexivity.
  - intros i j Hi Hj Hne Hd.
    assert (Hc : [Z.of_nat i; Z.of_nat j] ∈ GenerateClusters dist nv dmax)
      by (apply GenerateClusters_elem; eauto 10).
    destruct (GenerateClusters dist nv dmax) as [|c l] eqn:E;
      [by apply elem_of_nil in Hc|].
    replace (0 <=? Z.of_nat (length (c :: l)) - 1) with true
      by (symmetry; apply Z.leb_le; cbn [length]; lia).
    cbn [bind]. eexists. repeat split.
Qed.

(** X26.  On a square lattice of [k * k] sites, [Init] finds the side:
    [L_ = int(sqrt(nv_) + 0.5)] is [k]. *)
Theorem Init_L_of_square (k : Z) :
  0 <= k -> k <= INT_MAX -> MetropolisGlobal.Init_L_ (k * k) = Some k.
Proof. exact (Init_L_side k). Qed.

Lemma Init_L_of_square_witness : MetropolisGlobal.Init_L_ (4 * 4) = Some 4.
Proof. apply (Init_L_of_square 4); unfold INT_MAX; lia. Defined.

(** *** Acceptance counters *)

Lemma increment_counter (x0 x1 : R) (i : Z) (x' : list double) :
  MetropolisGlobal.increment [Fin x0; Fin x1] i = Return x' ->
  (i = 0 /\ x' = [Fin (x0 + 1); Fin x1]) \/
  (i = 1 /\ x' = [Fin x0; Fin (x1 + 1)]).
Proof.
  unfold MetropolisGlobal.increment, at_, set_at. cbn [length].
  destruct (decide (i = 0)) as [->|H0]; [intros [= <-]; by left|].
  destruct (decide (i = 1)) as [->|H1]; [intros [= <-]; by right|].
  destruct ((0 <=? i) && (i <? Z.of_nat 2)) eqn:E; [|done].
  apply andb_true_iff in E as [?%Z.leb_le ?%Z.ltb_lt]. lia.
Qed.

Section CounterFacts.

Variable rng : Type.
Variable uniform_real : rng -> double * rng.
Variable uniform_int : Z -> Z -> rng -> Z * rng.
Variable std_exp : Complex -> Complex.
Variable LookupType : Type.
Variable psi_ : MetropolisGlobal.WfType LookupType.
Variable RandomVals : list double -> rng -> list double * rng.

Let state := MetropolisGlobal.state rng LookupType.
Let Sweep_body :=
  MetropolisGlobal.Sweep_body rng uniform_real uniform_int std_exp LookupType psi_.
Let Sweep_loop :=
  MetropolisGlobal.Sweep_loop rng uniform_real uniform_int std_exp LookupType psi_.
Let Sweep :=
  MetropolisGlobal.Sweep rng uniform_real uniform_int std_exp LookupType psi_.
Let Reset := MetropolisGlobal.Reset rng LookupType psi_ RandomVals.
Let Acceptance := MetropolisGlobal.Acceptance rng LookupType.

(** What the acceptance test does to the counters. *)
Lemma metropolis_test_counts (which : Z) (tochange : list Z)
    (newconf : list double) (st st' : state) (a0 a1 m0 m1 : R) :
  MetropolisGlobal.metropolis_test rng uniform_real std_exp LookupType psi_
    which tochange newconf st = Return st' ->
  counters a0 a1 m0 m1 st ->
  counters a0 a1 m0 m1 st' \/
  (which = 0 /\ counters (a0 + 1) a1 m0 m1 st') \/
  (which = 1 /\ counters a0 (a1 + 1) m0 m1 st').
Proof.
  intros Htest [Ha Hm].
  apply metropolis_test_inv in Htest as [Hmoves Ht].
  unfold move_tested in Ht. unfold counters. rewrite Hmoves, Hm.
  destruct Ht as [(_ & _ & _ & Hinc)|(_ & _ & _ & ->)]; [|by left].
  rewrite Ha in Hinc.
  apply increment_counter in Hinc as [[-> <-]|[-> <-]]; right; [left|right]; done.
Qed.

Lemma Sweep_body_counts (distcl distline : Z * Z) (st st' : state)
    (a0 a1 m0 m1 : R) :
  Sweep_body distcl distline st = Return st' ->
  counters a0 a1 m0 m1 st ->
  exists a0' a1' m0' m1',
    counters a0' a1' m0' m1' st' /\
    counters_advance 1 a0 a1 m0 m1 a0' a1' m0' m1'.
Proof.
  unfold Sweep_body, MetropolisGlobal.Sweep_body. intros Hrun Hc.
  destruct (uniform_real (MetropolisGlobal.rgen_ st)) as [u rgen].
  destruct (dgt u (Fin (2 / 10))).
  - destruct (uniform_int _ _ _) as [rcl rgen'].
    apply bind_Return_inv in Hrun as (cluster & _ & H).
    apply bind_Return_inv in H as (si & _ & H).
    apply bind_Return_inv in H as (sj & _ & H).
    apply bind_Return_inv in H as (vsi & _ & H).
    apply bind_Return_inv in H as (vsj & _ & H).
    apply bind_Return_inv in H as (st2 & Htest & H).
    apply bind_Return_inv in H as (moves & Hmoves & [= <-]).
    assert (Hst2 : counters a0 a1 m0 m1 st2 \/ counters (a0 + 1) a1 m0 m1 st2).
    { destruct (dgt (dabs (dsub vsi vsj)) epsilon).
      - eapply metropolis_test_counts in Htest as [?|[[_ ?]|[? _]]];
          [by left | by right | done | exact Hc].
      - injection Htest as <-. by left. }
    destruct Hst2 as [[Ha Hm]|[Ha Hm]]; rewrite Hm in Hmoves;
      apply increment_counter in Hmoves as [[_ ->]|[? _]]; try done;
      eexists _, _, _, _; (split; [split; [exact Ha|reflexivity]|]);
      unfold counters_advance; lra.
  - destruct (uniform_int _ _ _) as [r rgen'].
    destruct (uniform_real _) as [u' rgen''].
    apply bind_Return_inv in Hrun as ([tochange newconf] & _ & H).
    apply bind_Return_inv in H as (st2 & Htest & H).
    apply bind_Return_inv in H as (moves & Hmoves & [= <-]).
    assert (Hst2 : counters a0 a1 m0 m1 st2 \/ counters a0 (a1 + 1) m0 m1 st2).
    { destruct (negb _).
      - eapply metropolis_test_counts in Htest as [?|[[? _]|[_ ?]]];
          [by left | done | by right | exact Hc].
      - injection Htest as <-. by left. }
    destruct Hst2 as [[Ha Hm]|[Ha Hm]]; rewrite Hm in Hmoves;
      apply increment_counter in Hmoves as [[? _]|[_ ->]]; try done;
      eexists _, _, _, _; (split; [split; [exact Ha|reflexivity]|]);
      unfold counters_advance; lra.
Qed.

Lemma Sweep_loop_counts (n : nat) (distcl distline : Z * Z) :
  forall (st st' : state) (a0 a1 m0 m1 : R),
    Sweep_loop n distcl distline st = Return st' ->
    counters a0 a1 m0 m1 st ->
    exists a0' a1' m0' m1',
      counters a0' a1' m0' m1' st' /\
      counters_advance (INR n) a0 a1 m0 m1 a0' a1' m0' m1'.
Proof.
  induction n as [|n IH]; intros st st' a0 a1 m0 m1 Hrun Hc.
  - injection Hrun as <-. exists a0, a1, m0, m1. split; [done|].
    unfold counters_advance. cbn [INR]. lra.
  - cbn [Sweep_loop MetropolisGlobal.Sweep_loop] in Hrun.
    apply bind_Return_inv in Hrun as (st1 & Hbody & Hrest).
    destruct (Sweep_body_counts _ _ _ _ _ _ _ _ Hbody Hc)
      as (b0 & b1 & k0 & k1 & Hc1 & Hadv1).
    destruct (IH _ _ _ _ _ _ Hrest Hc1) as (c0 & c1 & l0 & l1 & Hc2 & Hadv2).
    exists c0, c1, l0, l1. split; [done|].
    unfold counters_advance in *. rewrite S_INR. lra.
Qed.

Lemma Sweep_counts_inv (st st' : state) (a0 a1 m0 m1 : R) :
  0 <= MetropolisGlobal.nv_ st ->
  Sweep st = Return st' ->
  counters a0 a1 m0 m1 st ->
  exists a0' a1' m0' m1',
    counters a0' a1' m0' m1' st' /\
    counters_advance (IZR (MetropolisGlobal.nv_ st))
                     a0 a1 m0 m1 a0' a1' m0' m1'.
Proof.
  intros Hnv Hrun Hc. unfold Sweep, MetropolisGlobal.Sweep in Hrun.
  apply bind_Return_inv in Hrun as (distcl & _ & H).
  apply bind_Return_inv in H as (distline & _ & H).
  destruct (Sweep_loop_counts _ _ _ _ _ _ _ _ _ H Hc)
    as (b0 & b1 & k0 & k1 & Hc1 & Hadv).
  exists b0, b1, k0, k1. split; [done|].
  rewrite INR_IZR_INZ, Z2Nat.id in Hadv by done. exact Hadv.
Qed.

Lemma Acceptance_value (st : state) (a0 a1 m0 m1 : R) :
  counters a0 a1 m0 m1 st ->
  (0 <= a0 <= m0)%R -> (0 <= a1 <= m1)%R ->
  exists x0 x1,
    Acceptance st = Return [x0; x1] /\
    acceptance_rate a0 m0 x0 /\ acceptance_rate a1 m1 x1.
Proof.
  intros [Ha Hm] H0 H1. unfold Acceptance, MetropolisGlobal.Acceptance.
  rewrite Ha, Hm. cbn [foldl bind at_ set_at length Z.of_nat Z.leb Z.ltb
    Z.compare Pos.compare Pos.compare_cont andb Pos.of_succ_nat Pos.succ
    Z.to_nat Pos.to_nat Pos.iter_op Nat.add lookup list_lookup list_insert
    insert].
  assert (Hrate : forall a m, (0 <= a <= m)%R ->
            acceptance_rate a m (ddiv (Fin a) (Fin m))).
  { intros a m Ham. unfold acceptance_rate, ddiv.
    destruct (Req_EM_T m 0) as [->|Hm0].
    - left. rewrite !Reqb_true by lra. done.
    - right. rewrite (Reqb_false m 0) by done.
      assert (0 < m)%R by lra. split; [done|]. split; [done|].
      split.
      + apply Rmult_le_pos; [lra|]. left. by apply Rinv_0_lt_compat.
      + apply Rmult_le_reg_r with (r := m); [done|].
        replace (a / m * m)%R with a by (field; lra). lra. }
  eexists _, _. split; [reflexivity|]. split; by apply Hrate.
Qed.


(** What [Reset] leaves in the members that do not hold the configuration. *)
Lemma Reset_counters (initrandom : bool) (st : state) :
  counters 0 0 0 0 (Reset initrandom st) /\
  MetropolisGlobal.nv_ (Reset initrandom st) = MetropolisGlobal.nv_ st.
Proof.
  unfold Reset, MetropolisGlobal.Reset.
  destruct (if initrandom then _ else _) as [v rgen]. done.
Qed.

(** X27.  A sweep of a sampler of [nv_ >= 0] sites makes exactly [nv_]
    attempts: when it returns, on any lattice and for any draws, the two
    entries of [moves_] have grown by [nv_] in total, and each entry of
    [accept_] by at least zero and at most the number of new attempts of its
    kind.  It does return when the configuration holds the [L_] x [L_] view
    and there is a cluster ([wf_sampler]) and the integer draws lie within
    the bounds of their distributions. *)
Theorem Sweep_counts (st : state) (a0 a1 m0 m1 : R) :
  0 <= MetropolisGlobal.nv_ st ->
  counters a0 a1 m0 m1 st ->
  (forall st',
     Sweep st = Return st' ->
     exists a0' a1' m0' m1',
       counters a0' a1' m0' m1' st' /\
       counters_advance (IZR (MetropolisGlobal.nv_ st))
                        a0 a1 m0 m1 a0' a1' m0' m1') /\
  ((forall (a b : Z) (g : rng), a <= b -> a <= (uniform_int a b g).1 <= b) ->
   wf_sampler st ->
   exists st', Sweep st = Return st').
Proof.
  intros Hnv Hc. split.
  - intros st' Hrun. by apply (Sweep_counts_inv st st').
  - intros Hrange Hwf.
    destruct (Sweep_permutes rng uniform_real uniform_int std_exp LookupType
                psi_ Hrange st Hwf) as (st' & Hrun & _).
    by exists st'.
Qed.

(** X28.  Right after [Reset], with or without a new random configuration,
    nothing has been attempted and both acceptance rates are not-a-number
    (zero divided by zero), whatever the sampler.  After a sweep that
    returns, on [nv_ >= 0] sites, the attempts add up to [nv_], and each
    acceptance rate is not-a-number, when no move of its kind was attempted,
    or a number between zero and one.  The sweep does return when the
    configuration holds the [L_] x [L_] view and there is a cluster
    ([wf_sampler]) and the integer draws lie within the bounds of their
    distributions. *)
Theorem Acceptance_after_Reset (initrandom : bool) (st : state) :
  Acceptance (Reset initrandom st) = Return [NaN; NaN] /\
  (0 <= MetropolisGlobal.nv_ st ->
   forall st',
     Sweep (Reset initrandom st) = Return st' ->
     exists a0 a1 m0 m1 x0 x1,
       counters a0 a1 m0 m1 st' /\
       (m0 + m1)%R = IZR (MetropolisGlobal.nv_ st) /\
       Acceptance st' = Return [x0; x1] /\
       acceptance_rate a0 m0 x0 /\ acceptance_rate a1 m1 x1) /\
  ((forall (a b : Z) (g : rng), a <= b -> a <= (uniform_int a b g).1 <= b) ->
   wf_sampler (Reset initrandom st) ->
   exists st', Sweep (Reset initrandom st) = Return st').
Proof.
  destruct (Reset_counters initrandom st) as [Hc0 Hnv0].
  split; [|split].
  - destruct (Acceptance_value (Reset initrandom st) 0 0 0 0 Hc0)
      as (x0 & x1 & Hacc & [[_ ->]|[? _]] & [[_ ->]|[? _]]); (lra || done).
  - intros Hnv st' Hrun.
    destruct (Sweep_counts_inv _ st' 0 0 0 0 ltac:(by rewrite Hnv0) Hrun Hc0)
      as (a0 & a1 & m0 & m1 & Hc & Hadv).
    rewrite Hnv0 in Hadv.
    destruct Hadv as (Hm & Ha0 & Ha1).
    destruct (Acceptance_value st' a0 a1 m0 m1 Hc) as (x0 & x1 & Hacc & Hx0 & Hx1);
      [lra | lra |].
    exists a0, a1, m0, m1, x0, x1.
    split; [exact Hc|]. split; [lra|]. done.
  - intros Hrange Hwf.
    destruct (Sweep_permutes rng uniform_real uniform_int std_exp LookupType
                psi_ Hrange _ Hwf) as (st' & Hrun & _).
    by exists st'.
Qed.

End CounterFacts.

Lemma Sweep_counts_witness :
  let psi := MetropolisGlobal.mkWf unit (fun _ => czero) (fun _ _ _ _ => czero)
               (fun _ l => l) (fun _ _ _ l => l) in
  let st := MetropolisGlobal.mkState 4 2 tt
              [Fin 1; Fin (-1); Fin 1; Fin (-1)] [Fin 0; Fin 0] [Fin 0; Fin 0]
              (GenerateClusters (fun _ _ => 1) 4 1) tt in
  exists st' a0' a1' m0' m1',
    MetropolisGlobal.Sweep unit (fun g => (Fin 0, g)) (fun a _ g => (a, g))
      (fun z => z) unit psi st = Return st' /\
    counters a0' a1' m0' m1' st' /\
    counters_advance 4 0 0 0 0 a0' a1' m0' m1'.
Proof.
  intros psi st.
  destruct (Sweep_counts unit (fun g => (Fin 0, g)) (fun a _ g => (a, g))
              (fun z => z) unit psi st 0 0 0 0) as [Hcount Hreturns].
  - cbn. lia.
  - done.
  - destruct Hreturns as [st' Hrun].
    + intros a b g H. cbn. lia.
    + repeat split; try done.
      exists (fun _ _ => 1), 1. reflexivity.
    + destruct (Hcount st' Hrun) as (a0' & a1' & m0' & m1' & Hc & Hadv).
      by exists st', a0', a1', m0', m1'.
Defined.

Lemma Acceptance_after_Reset_witness :
  let psi := MetropolisGlobal.mkWf unit (fun _ => czero) (fun _ _ _ _ => czero)
               (fun _ l => l) (fun _ _ _ l => l) in
  let st := MetropolisGlobal.mkState 4 2 tt
              [Fin 1; Fin (-1); Fin 1; Fin (-1)] [Fin 3; Fin 0] [Fin 5; Fin 0]
              (GenerateClusters (fun _ _ => 1) 4 1) tt in
  let st0 := MetropolisGlobal.Reset unit unit psi (fun v g => (v, g)) false st in
  MetropolisGlobal.Acceptance unit unit st0 = Return [NaN; NaN] /\
  exists st' a0 a1 m0 m1 x0 x1,
    MetropolisGlobal.Sweep unit (fun g => (Fin 0, g)) (fun a _ g => (a, g))
      (fun z => z) unit psi st0 = Return st' /\
    counters a0 a1 m0 m1 st' /\
    (m0 + m1)%R = 4%R /\
    MetropolisGlobal.Acceptance unit unit st' = Return [x0; x1] /\
    acceptance_rate a0 m0 x0 /\ acceptance_rate a1 m1 x1.
Proof.
  intros psi st st0.
  destruct (Acceptance_after_Reset unit (fun g => (Fin 0, g))
              (fun a _ g => (a, g)) (fun z => z) unit psi (fun v g => (v, g))
              false st) as (Hnan & Hrates & Hreturns).
  split; [exact Hnan|].
  destruct Hreturns as [st' Hrun].
  - intros a b g H. cbn. lia.
  - repeat split; try done.
    exists (fun _ _ => 1), 1. reflexivity.
  - destruct (Hrates ltac:(cbn; lia) st' Hrun)
      as (a0 & a1 & m0 & m1 & x0 & x1 & H).
    by exists st', a0, a1, m0, m1, x0, x1.
Defined.

(** *** What [ExchangeKernel::operator()] does to a row *)

Lemma swap_value (row : list double) (si sj : Z) :
  0 <= si < Z.of_nat (length row) -> 0 <= sj < Z.of_nat (length row) ->
  ExchangeKernel.swap row si sj =
  Return (<[Z.to_nat sj := row !!! Z.to_nat si]>
            (<[Z.to_nat si := row !!! Z.to_nat sj]> row)).
Proof.
  intros Hsi Hsj. unfold ExchangeKernel.swap.
  destruct (at_in_range row si Hsi) as (a & -> & Ha).
  destruct (at_in_range row sj Hsj) as (b & -> & Hb).
  cbn [bind]. rewrite set_at_in_range by done. cbn [bind].
  rewrite set_at_in_range by (rewrite length_insert; lia).
  by rewrite (lookup_total_Some _ _ _ Ha), (lookup_total_Some _ _ _ Hb).
Qed.

Section KernelFacts.

Variable rng : Type.
Variable uniform_int : Z -> Z -> rng -> Z * rng.

Hypothesis uniform_int_range :
  forall (a b : Z) (g : rng), a <= b -> a <= (uniform_int a b g).1 <= b.

(** X29.  A call of the kernel exchanges, in every row, the values held at
    the two sites of one cluster (two distinct sites at distance at most
    [dmax]) and touches nothing else; it sets the whole of
    [log_acceptance_correction] to zero. *)
Theorem ExchangeKernel_exchanges_one_pair (dist : nat -> nat -> Z) (nv : nat)
    (dmax : Z) (k : ExchangeKernel.state) (v : list (list double))
    (log_acceptance_correction : list double) (rgen : rng) :
  ExchangeKernel.Init dist nv dmax = Return k ->
  Forall (fun row => length row = nv) v ->
  exists vnew rgen',
    ExchangeKernel.call rng uniform_int k v log_acceptance_correction rgen =
    Return (vnew, replicate (length log_acceptance_correction) (Fin 0), rgen') /\
    Forall2 (fun row' row =>
               exists i j, (i < nv)%nat /\ (j < nv)%nat /\ i <> j /\
                           dist i j <= dmax /\
                           row' = <[j := row !!! i]> (<[i := row !!! j]> row))
            vnew v.
Proof.
  unfold ExchangeKernel.Init, uniform_int_distribution.
  destruct (Z.leb_spec 0 (Z.of_nat (length (GenerateClusters dist nv dmax)) - 1))
    as [Hlen|]; [|done].
  cbn [bind]. intros [= <-] Hrows.
  unfold ExchangeKernel.call.
  assert (Hzero : map (fun _ : double => Fin 0) log_acceptance_correction
                  = replicate (length log_acceptance_correction) (Fin 0)).
  { induction log_acceptance_correction as [|x l IH]; [done|].
    cbn. by rewrite IH. }
  rewrite Hzero.
  assert (Hloop : exists vnew rgen',
    ExchangeKernel.rows_loop rng uniform_int
      {| ExchangeKernel.nv_ := Z.of_nat nv;
         ExchangeKernel.clusters_ := GenerateClusters dist nv dmax;
         ExchangeKernel.distcl_ :=
           (0, Z.of_nat (length (GenerateClusters dist nv dmax)) - 1) |}
      v rgen = Return (vnew, rgen') /\
    Forall2 (fun row' row =>
               exists i j, (i < nv)%nat /\ (j < nv)%nat /\ i <> j /\
                           dist i j <= dmax /\
                           row' = <[j := row !!! i]> (<[i := row !!! j]> row))
            vnew v).
  { revert rgen. induction Hrows as [|row v Hrow Hrows IH]; intros rgen.
    - exists [], rgen. split; [done | constructor].
    - cbn [ExchangeKernel.rows_loop ExchangeKernel.distcl_
           ExchangeKernel.clusters_ fst snd].
      pose proof (uniform_int_range 0
        (Z.of_nat (length (GenerateClusters dist nv dmax)) - 1) rgen Hlen) as Hrcl.
      destruct (uniform_int 0 _ rgen) as [rcl rgen1]. cbn [fst] in Hrcl.
      destruct (at_in_range (GenerateClusters dist nv dmax) rcl)
        as (cluster & -> & Hc); [lia|].
      cbn [bind]. apply list_elem_of_lookup_2 in Hc.
      apply GenerateClusters_elem in Hc as (i & j & -> & Hi & Hj & Hne & Hd).
      change (at_ [Z.of_nat i; Z.of_nat j] 0) with (Return (A:=Z) (Z.of_nat i)).
      change (at_ [Z.of_nat i; Z.of_nat j] 1) with (Return (A:=Z) (Z.of_nat j)).
      cbn [bind].
      rewrite swap_value by lia. rewrite !Nat2Z.id. cbn [bind].
      destruct (IH rgen1) as (vnew & rgen' & -> & Hall).
      cbn [bind fst snd]. eexists _, rgen'.
      split; [done|]. constructor; [|done]. exists i, j. done. }
  destruct Hloop as (vnew & rgen' & -> & Hall).
  cbn [bind fst snd]. eauto.
Qed.

End KernelFacts.

Lemma ExchangeKernel_exchanges_one_pair_witness :
  let dist := fun _ _ : nat => 1 in
  let k := {| ExchangeKernel.nv_ := 2;
              ExchangeKernel.clusters_ := [[0; 1]; [1; 0]];
              ExchangeKernel.distcl_ := (0, 1) |} in
  exists vnew rgen',
    ExchangeKernel.call unit (fun a _ g => (a, g)) k [[Fin 1; Fin 2]] [Fin 7] tt
    = Return (vnew, replicate 1 (Fin 0), rgen') /\
    Forall2 (fun row' row =>
               exists i j, (i < 2)%nat /\ (j < 2)%nat /\ i <> j /\
                           dist i j <= 1 /\
                           row' = <[j := row !!! i]> (<[i := row !!! j]> row))
            vnew [[Fin 1; Fin 2]].
Proof.
  intros dist k.
  apply (ExchangeKernel_exchanges_one_pair unit (fun a _ g => (a, g))
           (fun a b g H => conj (Z.le_refl a) H) dist 2 1 k
           [[Fin 1; Fin 2]] [Fin 7] tt).
  - reflexivity.
  - repeat constructor.
Defined.

(* ------------------------------------------------------------------ *)
(** ** [SubtractMean] *)
(* ------------------------------------------------------------------ *)

Lemma lookup_total_zip_with {A B D} `{Inhabited A, Inhabited B, Inhabited D}
    (f : A -> B -> D) (l : list A) (k : list B) (j : nat) :
  (j < length l)%nat -> (j < length k)%nat ->
  zip_with f l k !!! j = f (l !!! j) (k !!! j).
Proof.
  intros Hl Hk.
  destruct (lookup_lt_is_Some_2 l j Hl) as [x Hx].
  destruct (lookup_lt_is_Some_2 k j Hk) as [y Hy].
  rewrite (lookup_total_Some l j x Hx), (lookup_total_Some k j y Hy).
  apply lookup_total_Some. rewrite lookup_zip_with, Hx, Hy. reflexivity.
Qed.

Lemma map_imap_ext {A B D} (F : nat -> A -> B) (G : B -> D) (H : A -> D)
    (l : list A) :
  (forall i x, l !! i = Some x -> G (F i x) = H x) ->
  map G (imap F l) = map H l.
Proof.
  intros HF. apply list_eq. intros i.
  rewrite !list_lookup_fmap, list_lookup_imap.
  destruct (l !! i) as [x|] eqn:Hx; [|done].
  cbn. f_equal. by apply HF.
Qed.

Lemma Csum_Permutation (l k : list (R * R)) : l ≡ₚ k -> Csum l = Csum k.
Proof.
  intros Hp. unfold Csum.
  rewrite (Rsum_Permutation (map fst l) (map fst k)) by (by rewrite Hp).
  rewrite (Rsum_Permutation (map snd l) (map snd k)) by (by rewrite Hp).
  reflexivity.
Qed.

Lemma column_Cfin (j cols : nat) (V : list (list (R * R))) :
  (j < cols)%nat -> Forall (fun row => length row = cols) V ->
  map (fun row : list Complex => row !!! j) (map (map Cfin) V) =
  map Cfin (column j V).
Proof.
  intros Hj Hrows. unfold column. rewrite !map_map.
  apply Forall_fmap_ext_1. eapply Forall_impl; [exact Hrows|].
  intros row Hrow. cbn beta in *.
  assert (Hjrow : (j < length row)%nat) by lia.
  destruct (lookup_lt_is_Some_2 row j Hjrow) as [z Hz].
  rewrite (lookup_total_Some row j z Hz).
  apply lookup_total_Some. by rewrite list_lookup_fmap, Hz.
Qed.

Lemma colwise_mean_finite (j n cols : nat) (V : list (list (R * R))) :
  (1 <= n)%nat -> (j < cols)%nat ->
  length V = n -> Forall (fun row => length row = cols) V ->
  colwise_mean cols (map (map Cfin) V) !!! j = Cfin (column_mean j n V).
Proof.
  intros Hn Hj Hlen Hrows. unfold colwise_mean.
  rewrite lookup_total_map_seq by done.
  rewrite (column_Cfin j cols) by done.
  rewrite csum_fin, length_map, Hlen. unfold to_double.
  rewrite <- INR_IZR_INZ, cdivr_fin by (apply not_0_INR; lia).
  reflexivity.
Qed.

Lemma MeanOnNodes_finite (j n cols : nat) (V : list (list (R * R)))
    (others : list (list (list (R * R)))) :
  (1 <= n)%nat -> (j < cols)%nat ->
  Forall (shaped n cols) (V :: others) ->
  MeanOnNodes (map (colwise_mean cols) (map (map (map Cfin)) others))
              (colwise_mean cols (map (map Cfin) V)) !!! j =
  Cfin (global_column_mean j n (V :: others)).
Proof.
  intros Hn Hj Hall. apply Forall_cons in Hall as [[HV Hrows] Hothers].
  unfold MeanOnNodes.
  rewrite lookup_total_map_seq
    by (unfold colwise_mean; by rewrite length_map, length_seq).
  rewrite (colwise_mean_finite j n cols) by done.
  rewrite !map_map, !length_map.
  assert (Ho : map (fun x => colwise_mean cols (map (map Cfin) x) !!! j) others
               = map Cfin (map (column_mean j n) others)).
  { rewrite map_map. apply Forall_fmap_ext_1.
    eapply Forall_impl; [exact Hothers|]. intros W [HW HWrows]. cbn beta.
    by apply colwise_mean_finite. }
  rewrite Ho. unfold SumOnNodes_complex. rewrite csum_fin, cadd_fin.
  unfold to_double. rewrite <- INR_IZR_INZ, cdivr_fin by (apply not_0_INR; lia).
  reflexivity.
Qed.

Lemma length_MeanOnNodes (others : list (list Complex)) (x : list Complex) :
  length (MeanOnNodes others x) = length x.
Proof. unfold MeanOnNodes. by rewrite length_map, length_seq. Qed.

Lemma Csum_shift (g : R * R) (l : list (R * R)) :
  Csum (map (fun z => Cminus z g) l) =
  Cminus (Csum l) (Cscale (INR (length l)) g).
Proof.
  unfold Csum, Cminus, Cscale. cbn [fst snd]. rewrite !map_map. cbn [fst snd].
  induction l as [|z l IH]; [cbn; f_equal; lra|].
  cbn [map]. rewrite !Rsum_cons. injection IH as IH1 IH2.
  rewrite IH1, IH2. cbn [length]. rewrite S_INR. f_equal; lra.
Qed.

(** The column sums of what one rank holds after [SubtractMean]. *)
Lemma SubtractMean_column_sum (j n cols : nat) (V : list (list (R * R)))
    (others : list (list (list (R * R)))) :
  (1 <= n)%nat -> (j < cols)%nat ->
  Forall (shaped n cols) (V :: others) ->
  csum (column j (SubtractMean (map (map (map Cfin)) others) cols
                               (map (map Cfin) V))) =
  Cfin (Cminus (column_sum j V)
               (Cscale (INR n) (global_column_mean j n (V :: others)))).
Proof.
  intros Hn Hj Hall.
  pose proof (MeanOnNodes_finite j n cols V others Hn Hj Hall) as Hmean.
  apply Forall_cons in Hall as [[HV Hrows] Hothers].
  unfold SubtractMean, column in *.
  set (mean := MeanOnNodes _ _) in *. rewrite !map_map.
  assert (Hlen : length mean = cols).
  { unfold mean. rewrite length_MeanOnNodes. unfold colwise_mean.
    by rewrite length_map, length_seq. }
  rewrite (Forall_fmap_ext_1 _
             (fun row => Cfin (Cminus (row !!! j)
                                 (global_column_mean j n (V :: others)))) V).
  - rewrite <- (map_map (fun row => Cminus (row !!! j) _) Cfin), csum_fin.
    rewrite <- (map_map (fun row => row !!! j) (fun z => Cminus z _)).
    rewrite Csum_shift, length_map, HV. reflexivity.
  - eapply Forall_impl; [exact Hrows|]. intros row Hrow. cbn beta in *.
    rewrite lookup_total_zip_with by (rewrite ?length_map; lia).
    rewrite Hmean.
    assert (Hjrow : (j < length row)%nat) by lia.
    destruct (lookup_lt_is_Some_2 row j Hjrow) as [z Hz].
    rewrite (lookup_total_Some row j z Hz).
    assert (map Cfin row !!! j = Cfin z) as ->
      by (apply lookup_total_Some; by rewrite list_lookup_fmap, Hz).
    reflexivity.
Qed.

Lemma delete_map {A B} (f : A -> B) (i : nat) (l : list A) :
  delete i (map f l) = map f (delete i l).
Proof.
  revert i. induction l as [|x l IH]; intros [|i]; try done.
  cbn. by rewrite <- IH.
Qed.

Lemma cadd_czero_l (z : Complex) : cadd czero z = z.
Proof.
  destruct z as [[| | |a] [| | |b]]; unfold cadd, czero; cbn; try done;
    f_equal; f_equal; lra.
Qed.

Lemma cadd_assoc (x y z : Complex) : cadd x (cadd y z) = cadd (cadd x y) z.
Proof. unfold cadd. cbn [real imag]. by rewrite !dadd_assoc. Qed.

Lemma csum_app (l k : list Complex) :
  csum (l ++ k) = cadd (csum l) (csum k).
Proof.
  induction l as [|z l IH]; [by rewrite cadd_czero_l|].
  cbn [app]. rewrite !csum_cons, IH. apply cadd_assoc.
Qed.

Lemma csum_concat (ls : list (list Complex)) :
  csum (concat ls) = csum (map csum ls).
Proof.
  induction ls as [|l ls IH]; [done|].
  cbn [concat map]. by rewrite csum_app, csum_cons, IH.
Qed.

Lemma Csum_map_shift {A} (f : A -> R * R) (g : R * R) (l : list A) :
  Csum (map (fun x => Cminus (f x) g) l) =
  Cminus (Csum (map f l)) (Cscale (INR (length l)) g).
Proof.
  rewrite <- (map_map f (fun z => Cminus z g)), Csum_shift.
  by rewrite length_map.
Qed.

Lemma Csum_map_divr {A} (f : A -> R * R) (r : R) (l : list A) :
  Csum (map (fun x => Cdivr (f x) r) l) = Cdivr (Csum (map f l)) r.
Proof.
  unfold Csum, Cdivr. cbn [fst snd]. rewrite !map_map. cbn [fst snd].
  induction l as [|x l IH]; [unfold Rsum; cbn; f_equal; lra|].
  cbn [map]. rewrite !Rsum_cons. injection IH as IH1 IH2.
  rewrite IH1, IH2. f_equal; lra.
Qed.

(** X30.  [SubtractMean] centres the data of the whole communicator: when
    every rank holds [n >= 1] rows of finite numbers, the entries of each
    column of the matrices the ranks are left with add up to zero. *)
Theorem SubtractMean_centres (n cols j : nat)
    (ranks : list (list (list (R * R)))) :
  (1 <= n)%nat -> (j < cols)%nat ->
  Forall (shaped n cols) ranks ->
  csum (concat (map (column j)
                 (SubtractMean_on_all_ranks cols
                    (map (map (map Cfin)) ranks)))) = czero.
Proof.
  intros Hn Hj Hall.
  set (g := global_column_mean j n ranks).
  rewrite csum_concat, map_map. unfold SubtractMean_on_all_ranks.
  rewrite imap_fmap.
  rewrite (map_imap_ext _ _
             (fun V => Cfin (Cminus (column_sum j V) (Cscale (INR n) g)))).
  2:{ intros i V Hi. unfold compose.
      pose proof (delete_Permutation ranks i V Hi) as Hp.
      rewrite delete_map.
      rewrite (SubtractMean_column_sum j n cols V (delete i ranks))
        by (done || by rewrite <- Hp).
      assert (Hg : global_column_mean j n (V :: delete i ranks) = g).
      { unfold g, global_column_mean.
        rewrite (Csum_Permutation (map (column_mean j n) ranks)
                   (map (column_mean j n) (V :: delete i ranks)))
          by (by rewrite <- Hp).
        by rewrite (Permutation_length Hp). }
      by rewrite Hg. }
  rewrite <- (map_map _ Cfin), csum_fin, Csum_map_shift.
  unfold g, global_column_mean, column_mean. rewrite Csum_map_divr.
  destruct ranks as [|V ranks]; [unfold Cfin, czero; cbn; f_equal; f_equal; lra|].
  assert (HP : INR (length (V :: ranks)) <> 0%R) by (apply not_0_INR; done).
  assert (Hn0 : INR n <> 0%R) by (apply not_0_INR; lia).
  generalize (Csum (map (column_sum j) (V :: ranks))).
  generalize dependent (INR (length (V :: ranks))).
  generalize dependent (INR n). intros rn Hrn rp Hrp [a b].
  unfold Cfin, czero, Cminus, Cscale, Cdivr. cbn [fst snd].
  f_equal; f_equal; field; done.
Qed.

Lemma SubtractMean_centres_witness :
  csum (concat (map (column 0)
                 (SubtractMean_on_all_ranks 1
                    (map (map (map Cfin))
                         [[[(1, 0)]; [(2, 0)]]; [[(4, 1)]; [(7, 0)]]]%R))))
  = czero.
Proof.
  apply (SubtractMean_centres 2 1 0
           [[[(1, 0)]; [(2, 0)]]; [[(4, 1)]; [(7, 0)]]]%R).
  - lia.
  - lia.
  - repeat constructor.
Defined.
